(** * SOFA: schema-to-route compiler and request pipeline

    A shallow embedding of [src/open-api/types.ts], [src/open-api/utils.ts],
    [src/open-api/operations.ts], [src/open-api/index.ts] and [src/router.ts],
    followed by the properties established about them.

    Conventions of the embedding:
    - a JavaScript object used as a dictionary is a finite map ([gmap]) when
      only lookups matter, and an insertion-ordered association list with
      unique keys ([obj_set]/[obj_get]) when the iteration order is observed
      (GraphQL names and route paths are no array indices, so insertion
      order is the order of enumeration; where any key may occur,
      [ownPropertyKeys] puts the array indices first);
      these hold the own keys, and where the code looks a name up through the
      prototype chain ([name in params], [body.hasOwnProperty]) the members
      of [Object.prototype] are taken into account;
    - [undefined] is [None];
    - a call that may throw, and a promise that may reject, is a [Result];
    - the mutable server context handed from the transport to every handler
      is threaded explicitly;
    - a response built by [Response.json] is the pair of its arguments, and
      reading its body back yields the value it was built from; any other
      response carries its body as text;
    - what lives outside these sources (the platform's [JSON], [URL] and
      [String], the transport router's path matching, the operation
      synthesizer, [./common], [./parse]) is gathered in the record
      [Externals], and what the [Sofa] object carries (executor, context
      factory, error handler, route overrides, limits) in the record [Sofa].

    The router is modelled over the routes compiled from the root fields;
    the webhook routes, which only delegate to the subscription manager, are
    left out.  The transport hands a route handler an isolated view of the
    caller's server context: the handler reads the caller's values through
    it, and what it assigns stays in the view. *)

From Stdlib Require Import ZArith Lia Permutation.
From stdpp Require Import base option list strings pretty gmap sorting.

Local Open Scope string_scope.
Local Open Scope Z_scope.
Set Warnings "-register-all,-clear-no-such-hyp".

(* ===================================================================== *)
(** * Part I: definitions                                                 *)
(* ===================================================================== *)

(** ** JavaScript values *)

Module JS.

(** Values that travel as JSON.  Numbers are kept to the integers. *)
Inductive Json :=
| JNull
| JBool (b : bool)
| JNum (n : Z)
| JStr (s : string)
| JArr (items : list Json)
| JObj (fields : list (string * Json)).

(** [o[k]] on an insertion-ordered object. *)
Fixpoint obj_get {A} (k : string) (o : list (string * A)) : option A :=
  match o with
  | [] => None
  | (k', v) :: o' => if decide (k = k') then Some v else obj_get k o'
  end.

(** [o[k] = v]: an existing key keeps its place, a new key goes last. *)
Fixpoint obj_set {A} (k : string) (v : A) (o : list (string * A))
  : list (string * A) :=
  match o with
  | [] => [(k, v)]
  | (k', v') :: o' =>
      if decide (k = k') then (k, v) :: o' else (k', v') :: obj_set k v o'
  end.

Definition obj_keys {A} (o : list (string * A)) : list string := o.*1.

(** Truthiness of an optional string ([undefined] and [''] are falsy). *)
Definition truthy_str (s : option string) : bool :=
  match s with
  | Some s => negb (String.eqb s "")
  | None => false
  end.

(** Truthiness of an optional number ([undefined] and [0] are falsy). *)
Definition truthy_num (n : option Z) : bool :=
  match n with
  | Some n => negb (n =? 0)
  | None => false
  end.

(** [s.includes(sub)] *)
Fixpoint includes (s sub : string) : bool :=
  String.prefix sub s
  || match s with
     | EmptyString => false
     | String _ s' => includes s' sub
     end.

(** The names of the members every ordinary object inherits from
    [Object.prototype]. *)
Definition Object_prototype : list string :=
  ["constructor"; "__defineGetter__"; "__defineSetter__"; "hasOwnProperty";
   "__lookupGetter__"; "__lookupSetter__"; "isPrototypeOf";
   "propertyIsEnumerable"; "toString"; "valueOf"; "__proto__"; "toLocaleString"].

(** An array index: the canonical decimal numeral of a number below
    [2^32 - 1]. *)
Definition digit (c : Ascii.ascii) : option N :=
  let n := Ascii.N_of_ascii c in
  if ((48 <=? n) && (n <=? 57))%N then Some (n - 48)%N else None.

Fixpoint numeral (acc : N) (s : string) : option N :=
  match s with
  | EmptyString => Some acc
  | String c s => d ← digit c; numeral (10 * acc + d)%N s
  end.

Definition arrayIndex (key : string) : option N :=
  if bool_decide (key = "") then None
  else if String.prefix "0" key && negb (bool_decide (key = "0")) then None
  else n ← numeral 0 key; if (n <? 2 ^ 32 - 1)%N then Some n else None.

Definition indexBefore {A} (e1 e2 : string * A) : Prop :=
  (default 0 (arrayIndex e1.1) ≤ default 0 (arrayIndex e2.1))%N.

#[global] Instance indexBefore_dec {A} : RelDecision (@indexBefore A).
Proof. intros e1 e2. unfold indexBefore. apply _. Defined.

(** The members written into an empty object one after the other: a key
    written twice keeps its first place and its last value. *)
Definition written {A} (entries : list (string * A)) : list (string * A) :=
  foldl (λ o '(k, v), obj_set k v o) [] entries.

(** The own keys of an object as JavaScript enumerates them: the array
    indices in ascending order, then the other keys in insertion order. *)
Definition ownPropertyKeys {A} (o : list (string * A)) : list (string * A) :=
  merge_sort indexBefore (filter (λ e, is_Some (arrayIndex e.1)) o)
  ++ filter (λ e, ¬ is_Some (arrayIndex e.1)) o.

(** The object a JSON text denotes, from its members in the order of the
    text, as [Object.entries] lists it. *)
Definition members {A} (entries : list (string * A)) : list (string * A) :=
  ownPropertyKeys (written entries).

(** JavaScript truthiness of a JSON value. *)
Definition truthy (v : Json) : bool :=
  match v with
  | JNull => false
  | JBool b => b
  | JNum n => negb (n =? 0)
  | JStr s => negb (String.eqb s "")
  | JArr _ | JObj _ => true
  end.

(** Lower-casing, for case-insensitive tests. *)
Definition lower_ascii (c : Ascii.ascii) : Ascii.ascii :=
  let n := Ascii.nat_of_ascii c in
  if (Nat.leb 65 n && Nat.leb n 90)%bool then Ascii.ascii_of_nat (n + 32) else c.

Fixpoint lower (s : string) : string :=
  match s with
  | EmptyString => EmptyString
  | String c s' => String (lower_ascii c) (lower s')
  end.

End JS.
Import JS.

(** ** JSON-Schema fragments (the values the type mapper emits) *)

Module Fragment.

(** An example value after the kind-specific coercion of
    [addExampleFromDirective]; [ExNumber raw] stands for [Number(raw)] and
    [ExInteger raw] for [parseInt(raw)]. *)
Inductive Example :=
| ExRaw (raw : string)
| ExString (raw : string)
| ExNumber (raw : string)
| ExBoolean (b : bool)
| ExInteger (raw : string).

Inductive Schema :=
| MkSchema (shape : Shape) (description : option string) (example : option Example)
with Shape :=
| ShRef (ref : string)                         (* { $ref } *)
| ShArray (items : Schema)                     (* { type: 'array', items } *)
| ShPrimitive (type : string) (format : option string)
| ShEnum (values : list string)                (* { type: 'string', enum } *)
| ShOpaque                                     (* { type: 'object' } *)
| ShObject (required : option (list string))
           (properties : list (string * Schema)).

Definition shape (s : Schema) : Shape := let 'MkSchema sh _ _ := s in sh.
Definition description (s : Schema) : option string := let 'MkSchema _ d _ := s in d.
Definition example (s : Schema) : option Example := let 'MkSchema _ _ e := s in e.

Definition plain (sh : Shape) : Schema := MkSchema sh None None.
Definition set_description (d : option string) (s : Schema) : Schema :=
  MkSchema (shape s) d (example s).
Definition set_example (e : Example) (s : Schema) : Schema :=
  MkSchema (shape s) (description s) (Some e).

(** [component.type] *)
Definition type_of (s : Schema) : option string :=
  match shape s with
  | ShRef _ => None
  | ShArray _ => Some "array"
  | ShPrimitive t _ => Some t
  | ShEnum _ => Some "string"
  | ShOpaque | ShObject _ _ => Some "object"
  end.

Definition is_ref_to (name : string) (s : Schema) : Prop :=
  shape s = ShRef ("#/components/schemas/" +:+ name).

End Fragment.
Import Fragment.

(** ** The schema type graph, as the mapper observes it *)

Module GraphQL.

(** A named type as seen through a reference to it: its class, its name
    and what [resolveFieldType] reads of it.  The fields of an object type
    live in its [TypeDefinition], so a type may refer to itself. *)
Inductive GraphQLNamedType :=
| GraphQLObjectType (name : string)
| GraphQLInputObjectType (name : string)
| GraphQLScalarType (name : string) (jsonSchema : option Schema)
| GraphQLEnumType (name : string) (values : list string)
| GraphQLInterfaceType (name : string)
| GraphQLUnionType (name : string).

Inductive GraphQLType :=
| GraphQLNonNull (ofType : GraphQLType)
| GraphQLList (ofType : GraphQLType)
| Named (t : GraphQLNamedType).

Definition type_name (t : GraphQLNamedType) : string :=
  match t with
  | GraphQLObjectType n | GraphQLInputObjectType n | GraphQLScalarType n _
  | GraphQLEnumType n _ | GraphQLInterfaceType n | GraphQLUnionType n => n
  end.

Definition isNonNullType (t : GraphQLType) : bool :=
  match t with GraphQLNonNull _ => true | _ => false end.
Definition isListType (t : GraphQLType) : bool :=
  match t with GraphQLList _ => true | _ => false end.
Definition isObjectType (t : GraphQLType) : bool :=
  match t with Named (GraphQLObjectType _) => true | _ => false end.
Definition isInputObjectType (t : GraphQLType) : bool :=
  match t with Named (GraphQLInputObjectType _) => true | _ => false end.

Record GraphQLArgument := {
  arg_name : string;
  arg_type : GraphQLType;
  arg_description : option string;
}.

Record GraphQLField := {
  field_name : string;
  field_type : GraphQLType;
  field_args : list GraphQLArgument;
  field_description : option string;
}.

(** A field and an argument of a type definition in the schema's syntax
    tree, as far as they are read: [name.value] and [description?.value]. *)
Record InputValueDefinitionNode := {
  ivd_name : string;
  ivd_description : option string;
}.

Record FieldDefinitionNode := {
  fdn_name : string;
  fdn_description : option string;
  fdn_arguments : list InputValueDefinitionNode;
}.

(** An entry of [schema.getTypeMap()]; [def_fields] is [getFields()] in
    declaration order, and [def_astNode] the fields of [type.astNode], the
    type's own definition in the syntax tree, which has not the fields that
    an extension of the type adds ([None]: the type has no [astNode]). *)
Record TypeDefinition := {
  def_type : GraphQLNamedType;
  def_fields : list GraphQLField;
  def_description : option string;
  def_astNode : option (list FieldDefinitionNode);
}.

Definition introspectionTypes : list string :=
  ["__Schema"; "__Directive"; "__DirectiveLocation"; "__Type"; "__Field";
   "__InputValue"; "__EnumValue"; "__TypeKind"].

Definition isIntrospectionType (t : GraphQLNamedType) : bool :=
  bool_decide (type_name t ∈ introspectionTypes).

(** Type references of an operation document (the AST form). *)
Inductive TypeNode :=
| NonNullTypeNode (type : TypeNode)
| ListTypeNode (type : TypeNode)
| NamedTypeNode (name : string).

Record VariableDefinitionNode := {
  variable_name : string;            (* variable.variable.name.value *)
  variable_type : TypeNode;
}.

(** What may carry a directive: a field, an argument or a type. *)
Inductive DirectiveNode :=
| OnField (f : GraphQLField)
| OnArgument (a : GraphQLArgument)
| OnType (t : GraphQLType)
| OnTypeNode (t : TypeNode).

(** The arguments of the occurrences of one directive on a node. *)
Definition Directive := list Json.

(** The schema object.  [getDirective node name] is what
    [getDirective(schema, node, name)] of the tools library reads from the
    schema's syntax tree. *)
Record GraphQLSchema := {
  getTypeMap : list TypeDefinition;
  getQueryType : option TypeDefinition;
  getMutationType : option TypeDefinition;
  getDirective : DirectiveNode -> string -> option Directive;
}.

(** [type.getFields()[fieldName]] *)
Definition getFields (t : TypeDefinition) (fieldName : string) : option GraphQLField :=
  head (filter (λ f, field_name f = fieldName) (def_fields t)).

(** [schema.getType(name)] *)
Definition getType (schema : GraphQLSchema) (n : string) : option TypeDefinition :=
  head (filter (λ d, type_name (def_type d) = n) (getTypeMap schema)).

End GraphQL.
Import GraphQL.

(** ** [src/open-api/utils.ts] *)

Module Utils.

Definition mapToPrimitive (type : string) : option Schema :=
  if decide (type = "Int") then Some (plain (ShPrimitive "integer" (Some "int32")))
  else if decide (type = "Float") then Some (plain (ShPrimitive "number" (Some "float")))
  else if decide (type = "String") then Some (plain (ShPrimitive "string" None))
  else if decide (type = "Boolean") then Some (plain (ShPrimitive "boolean" None))
  else if decide (type = "ID") then Some (plain (ShPrimitive "string" None))
  else None.

Definition mapToRef (type : string) : string := "#/components/schemas/" +:+ type.

(** The options the mapper receives (a projection of the [Sofa] object). *)
Record Opts := {
  schema : GraphQLSchema;
  customScalars : gmap string Schema;
  enumTypes : gmap string Schema;
  exampleDirective : option string;
  exampleDirectiveParser : option (Directive -> option string);
}.

(** The [switch (component.type)] of [addExampleFromDirective]. *)
Definition coerceExample (type : option string) (raw : string) : Example :=
  match type with
  | Some t =>
      if decide (t = "string") then ExString raw
      else if decide (t = "number") then ExNumber raw
      else if decide (t = "boolean")
           then ExBoolean (bool_decide (lower raw ∈ ["yes"; "true"; "1"]))
      else if decide (t = "integer") then ExInteger raw
      else ExRaw raw
  | None => ExRaw raw
  end.

Definition addExampleFromDirective (component : Schema) (node : DirectiveNode)
    (opts : Opts) : Schema :=
  match exampleDirective opts, exampleDirectiveParser opts with
  | Some directiveName, Some parser =>
      if negb (truthy_str (Some directiveName)) then component
      else match getDirective (schema opts) node directiveName with
           | None => component
           | Some directive =>
               match parser directive with
               | Some raw =>
                   if negb (truthy_str (Some raw)) then component
                   else set_example (coerceExample (type_of component) raw) component
               | None => component
               end
           end
  | _, _ => component
  end.

End Utils.
Import Utils.

(** ** [src/open-api/types.ts] *)

Module Types.

(** array -> [type]; type -> $ref; scalar -> swagger primitive *)
Fixpoint resolveFieldType (type : GraphQLType) (opts : Opts) : Schema :=
  match type with
  | GraphQLNonNull ofType => resolveFieldType ofType opts
  | GraphQLList ofType =>
      let items := resolveFieldType ofType opts in
      let items := addExampleFromDirective items (OnType ofType) opts in
      plain (ShArray items)
  | Named t =>
      if bool_decide (is_Some (customScalars opts !! type_name t))
      then plain (ShRef (mapToRef (type_name t)))
      else match t with
           | GraphQLObjectType n => plain (ShRef (mapToRef n))
           | GraphQLScalarType n jsonSchema =>
               match mapToPrimitive n with
               | Some resolved => resolved
               | None => default (plain ShOpaque) jsonSchema
               end
           | GraphQLEnumType _ values => plain (ShEnum values)
           | _ => plain ShOpaque
           end
  end.

Definition resolveField (field : GraphQLField) (opts : Opts) : Schema :=
  resolveFieldType (field_type field) opts.

(** What the loop stores under [properties[fieldName]]: the resolved
    fragment, its description when the field has one, and its example. *)
Definition fieldProperty (opts : Opts) (field : GraphQLField) : Schema :=
  let property := resolveField field opts in
  let property :=
    if truthy_str (field_description field)
    then set_description (field_description field) property
    else property in
  addExampleFromDirective property (OnField field) opts.

(** One turn of the [for (const fieldName in fields)] loop, on the pair
    [(required, properties)]. *)
Definition buildSchemaObject_step (opts : Opts)
    (acc : list string * list (string * Schema)) (field : GraphQLField)
    : list string * list (string * Schema) :=
  let '(required, properties) := acc in
  let required :=
    if isNonNullType (field_type field) then (required ++ [field_name field])%list
    else required in
  (required, obj_set (field_name field) (fieldProperty opts field) properties).

Definition buildSchemaObject_loop (opts : Opts) (fields : list GraphQLField)
    : list string * list (string * Schema) :=
  foldl (buildSchemaObject_step opts) ([], []) fields.

Definition buildSchemaObjectFromType (type : TypeDefinition) (opts : Opts) : Schema :=
  let '(required, properties) := buildSchemaObject_loop opts (def_fields type) in
  MkSchema
    (ShObject (if bool_decide (required = []) then None else Some required) properties)
    (if truthy_str (def_description type) then def_description type else None)
    None.

(** The required list of a component ([] when the key is absent). *)
Definition required_of (s : Schema) : list string :=
  match shape s with
  | ShObject (Some required) _ => required
  | _ => []
  end.

Definition properties_of (s : Schema) : list (string * Schema) :=
  match shape s with
  | ShObject _ properties => properties
  | _ => []
  end.

End Types.
Import Types.

(** ** [src/open-api/operations.ts] *)

Module Operations.

Inductive OperationTypeNode := OpQuery | OpMutation | OpSubscription.

(** An operation definition selecting one root field:
    [rootField] is [operation.selectionSet.selections[0].name.value]. *)
Record OperationDefinitionNode := {
  operation : OperationTypeNode;
  operationName : option string;
  rootField : string;
  variableDefinitions : option (list VariableDefinitionNode);
}.

(** The result of [getOperationInfo(document)]. *)
Record OperationInfo := {
  info_operation : OperationDefinitionNode;
  info_variables : list VariableDefinitionNode;
  info_name : option string;
}.

Definition isInPath (url param : string) : bool :=
  includes url (":" +:+ param) || includes url ("{" +:+ param +:+ "}").

(** [titleCase(operation.operation)] *)
Definition titleCase (op : OperationTypeNode) : string :=
  match op with
  | OpQuery => "Query"
  | OpMutation => "Mutation"
  | OpSubscription => "Subscription"
  end.

(** The fields of [parse(printType(typeDefinition)).definitions[0]]: the
    type printed from its field map and read back. *)
Definition printedFields (typeDefinition : TypeDefinition) : list FieldDefinitionNode :=
  (λ field,
     {| fdn_name := field_name field;
        fdn_description := field_description field;
        fdn_arguments :=
          (λ arg, {| ivd_name := arg_name arg; ivd_description := arg_description arg |})
          <$> field_args field |})
  <$> def_fields typeDefinition.

(** [typeDefinition.astNode || parse(printType(typeDefinition)).definitions[0]],
    which is an object type definition node when the type is an object
    type. *)
Definition definitionNode (typeDefinition : TypeDefinition) : list FieldDefinitionNode :=
  default (printedFields typeDefinition) (def_astNode typeDefinition).

Definition getOperationFieldNode (schema : GraphQLSchema)
    (operation : OperationDefinitionNode) : option FieldDefinitionNode :=
  typeDefinition ← getType schema (titleCase operation.(Operations.operation));
  match def_type typeDefinition with
  | GraphQLObjectType _ =>
      head (filter (λ field, fdn_name field = rootField operation)
                   (definitionNode typeDefinition))
  | _ => None
  end.

Definition resolveDescription (schema : GraphQLSchema)
    (operation : OperationDefinitionNode) : string :=
  match getOperationFieldNode schema operation ≫= fdn_description with
  | Some d => d
  | None => ""
  end.

Definition resolveVariableDescription (schema : GraphQLSchema)
    (operation : OperationDefinitionNode) (variable : VariableDefinitionNode)
    : option string :=
  fieldNode ← getOperationFieldNode schema operation;
  argument ← head (filter (λ arg, ivd_name arg = variable_name variable)
                          (fdn_arguments fieldNode));
  ivd_description argument.

(** [Object.fromEntries] over the enum types of the type map. *)
Definition resolveEnumTypes (schema : GraphQLSchema) : gmap string Schema :=
  foldl (λ acc d,
           match def_type d with
           | GraphQLEnumType n values => <[n := plain (ShEnum values)]> acc
           | _ => acc
           end) ∅ (getTypeMap schema).

(** array -> [type]; type -> $ref; scalar -> swagger primitive *)
Fixpoint resolveParamSchema (type : TypeNode) (opts : Opts) : Schema :=
  match type with
  | NonNullTypeNode t => resolveParamSchema t opts
  | ListTypeNode t =>
      let items := resolveParamSchema t opts in
      let items := addExampleFromDirective items (OnTypeNode t) opts in
      plain (ShArray items)
  | NamedTypeNode n =>
      if bool_decide (is_Some (customScalars opts !! n))
      then plain (ShRef (mapToRef n))
      else match mapToPrimitive n with
           | Some s => s
           | None => default (plain (ShRef (mapToRef n))) (enumTypes opts !! n)
           end
  end.

Definition isNonNullTypeNode (t : TypeNode) : bool :=
  match t with NonNullTypeNode _ => true | _ => false end.

(** A documented parameter ([in] is [path] or [query]). *)
Inductive ParameterLocation := InPath | InQuery | InBody.

Record ParameterObject := {
  param_in : ParameterLocation;
  param_name : string;
  param_required : bool;
  param_schema : Schema;
  param_description : option string;
}.

Definition resolveParameters (url : string)
    (variables : option (list VariableDefinitionNode))
    (operation : OperationDefinitionNode) (opts : Opts) : list ParameterObject :=
  match variables with
  | None => []
  | Some variables =>
      (λ variable,
         {| param_in := if isInPath url (variable_name variable) then InPath else InQuery;
            param_name := variable_name variable;
            param_required := isNonNullTypeNode (variable_type variable);
            param_schema := resolveParamSchema (variable_type variable) opts;
            param_description :=
              resolveVariableDescription (schema opts) operation variable |})
      <$> variables
  end.

Definition resolveRequestBody_step (operation : OperationDefinitionNode) (opts : Opts)
    (acc : list string * list (string * Schema)) (variable : VariableDefinitionNode)
    : list string * list (string * Schema) :=
  let '(required, properties) := acc in
  let required :=
    if isNonNullTypeNode (variable_type variable)
    then (required ++ [variable_name variable])%list else required in
  (required,
   obj_set (variable_name variable)
     (set_description (resolveVariableDescription (schema opts) operation variable)
        (resolveParamSchema (variable_type variable) opts))
     properties).

(** [None] is the empty fragment [{}] returned when there are no variable
    definitions at all. *)
Definition resolveRequestBody (variables : option (list VariableDefinitionNode))
    (operation : OperationDefinitionNode) (opts : Opts) : option Schema :=
  match variables with
  | None => None
  | Some variables =>
      let '(required, properties) :=
        foldl (resolveRequestBody_step operation opts) ([], []) variables in
      Some (plain (ShObject (if bool_decide (required = []) then None else Some required)
                            properties))
  end.

Definition resolveResponse (operation : OperationDefinitionNode) (opts : Opts)
    : option Schema :=
  match operation.(Operations.operation) with
  | OpQuery =>
      queryType ← getQueryType (schema opts);
      field ← getFields queryType (rootField operation);
      Some (resolveFieldType (field_type field) opts)
  | OpMutation =>
      mutationType ← getMutationType (schema opts);
      field ← getFields mutationType (rootField operation);
      Some (resolveFieldType (field_type field) opts)
  | OpSubscription => None
  end.

Record OperationObject := {
  op_tags : list string;
  op_description : string;
  op_summary : string;
  op_operationId : option string;
  op_parameters : list ParameterObject;
  op_requestBody : option (option Schema);
  op_response : option Schema;
}.

Definition buildPathFromOperation (url : string) (info : OperationInfo)
    (useRequestBody : bool) (tags : list string) (description : string)
    (opts : Opts) : OperationObject :=
  let opts :=
    {| schema := schema opts; customScalars := customScalars opts;
       enumTypes := resolveEnumTypes (schema opts);
       exampleDirective := exampleDirective opts;
       exampleDirectiveParser := exampleDirectiveParser opts |} in
  let operation := info_operation info in
  let variables := variableDefinitions operation in
  let pathParams := filter (λ v, isInPath url (variable_name v) = true) <$> variables in
  let bodyParams := filter (λ v, isInPath url (variable_name v) ≠ true) <$> variables in
  {| op_tags := tags;
     op_description := description;
     op_summary := resolveDescription (schema opts) operation;
     op_operationId := info_name info;
     op_parameters :=
       if useRequestBody then resolveParameters url pathParams operation opts
       else resolveParameters url variables operation opts;
     op_requestBody :=
       if useRequestBody then Some (resolveRequestBody bodyParams operation opts)
       else None;
     op_response := resolveResponse operation opts |}.

(** Where the document places a variable. *)
Definition documented_locations (o : OperationObject) (v : string)
    : list ParameterLocation :=
  (param_in <$> filter (λ p, param_name p = v) (op_parameters o))
  ++ match op_requestBody o with
     | Some (Some body) =>
         if bool_decide (v ∈ obj_keys (properties_of body)) then [InBody] else []
     | _ => []
     end.

End Operations.
Import Operations.

(** ** [src/router.ts] *)

Module Router.

(** *** Errors, responses, requests *)

(** [error.extensions.http] *)
Record GraphQLHTTPErrorExtensions := {
  http_spec : option bool;
  http_status : option Z;
  http_headers : option (gmap string string);
}.

Record GraphQLErrorExtensions := {
  ext_http : option GraphQLHTTPErrorExtensions;
  ext_other : list (string * Json);
}.

(** A primitive value that was thrown in place of an error object. *)
Inductive Primitive :=
| PUndefined
| PNull
| PBoolean (b : bool)
| PNumber (n : Z)
| PString (s : string).

(** What is thrown or reported: an error object with its optional
    [extensions], or a primitive value. *)
Inductive Error :=
| ErrorObject (message : string) (extensions : option GraphQLErrorExtensions)
| ErrorValue (v : Primitive).

Definition createGraphQLError (message : string) (status : Z) : Error :=
  ErrorObject message
    (Some {| ext_http := Some {| http_spec := None; http_status := Some status;
                                 http_headers := None |};
             ext_other := [] |}).

(** The outcome of a call that may throw (or of a promise that may reject). *)
Inductive Result (A : Type) :=
| Ok (a : A)
| Throw (e : Error).
Arguments Ok {A} a.
Arguments Throw {A} e.

#[global] Instance Result_ret : MRet Result := λ A a, Ok a.
#[global] Instance Result_bind : MBind Result :=
  λ A B f m, match m with Ok a => f a | Throw e => Throw e end.

Inductive HTTPMethod :=
| GET | HEAD | POST | PUT | DELETE | CONNECT | OPTIONS | TRACE | PATCH.

#[global] Instance HTTPMethod_eq_dec : EqDecision HTTPMethod.
Proof. solve_decision. Defined.

Definition useRequestBody (method : HTTPMethod) : bool :=
  match method with
  | POST | PUT | PATCH => true
  | _ => false
  end.

(** A response body.  A body built by [Response.json] is kept as the value
    handed to it, and reading it back with [res.json()] yields that value;
    any other body is its text. *)
Inductive Body :=
| BodyJson (value : Json)                         (* Response.json(value) *)
| BodyErrors (errors : list Error)                (* Response.json({ errors }) *)
| BodyMessage (message : string)                  (* Response.json({ message }) *)
| BodyBatch (responses : list (Z * Body))         (* Response.json([{ status, body }]) *)
| BodyText (text : string).                       (* new Response(text) *)

Record Response := {
  res_body : Body;
  res_status : Z;
  res_statusText : option string;
  res_headers : gmap string string;
}.

(** The [TypeError]s of the platform; their messages are the platform's
    own.  [notAFunction]: calling [body.hasOwnProperty] when the body has a
    key of that name; [notSerializable]: [Response.json(undefined)]. *)
Definition notAFunction : Error := ErrorObject "body.hasOwnProperty is not a function" None.
Definition notSerializable : Error := ErrorObject "Value is not JSON serializable" None.

(** [Response.json(body, { status, statusText, headers })], for a [body]
    that is not [undefined]. *)
Definition Response_json (body : Body) (status : option Z)
    (statusText : option string) (headers : gmap string string) : Response :=
  {| res_body := body; res_status := default 200 status;
     res_statusText := statusText; res_headers := headers |}.

(** A parsed request target: [searchParams] are the entries of
    [new URLSearchParams(url.split('?')[1])], in order. *)
Record Url := {
  pathname : string;
  searchParams : list (string * string);
}.

Record RouterRequest := {
  req_method : HTTPMethod;
  req_url : Url;
  req_params : option (gmap string string);   (* set by the transport router *)
  req_body : option string;                   (* [None]: request.body == null *)
}.

Definition ErrorHandler := list Error -> Response.

(** *** The default error-handling policy *)

Definition http_of (error : Error) : option GraphQLHTTPErrorExtensions :=
  match error with
  | ErrorObject _ (Some extensions) => ext_http extensions
  | _ => None
  end.

(** [delete error.extensions.http] *)
Definition delete_http (error : Error) : Error :=
  match error with
  | ErrorObject message (Some extensions) =>
      ErrorObject message
        (Some {| ext_http := None; ext_other := ext_other extensions |})
  | _ => error
  end.

(** [!status || candidate > status] *)
Definition exceeds (candidate : Z) (status : option Z) : bool :=
  negb (truthy_num status)
  || match status with Some current => candidate >? current | None => false end.

Definition defaultErrorHandler_step
    (acc : option Z * gmap string string) (error : Error)
    : option Z * gmap string string :=
  let '(status, headers) := acc in
  match http_of error with
  | Some http =>
      let status :=
        match http_status http with
        | Some hinted =>
            if truthy_num (Some hinted) && exceeds hinted status
            then Some hinted else status
        | None => status
        end in
      let headers :=
        match http_headers http with
        | Some hinted => hinted ∪ headers          (* Object.assign(headers, hinted) *)
        | None => headers
        end in
      (status, headers)
  | None => acc
  end.

Definition initialHeaders : gmap string string :=
  {[ "Content-Type" := "application/json; charset=utf-8" ]}.

Definition defaultErrorHandler : ErrorHandler := λ errors,
  let '(status, headers) :=
    foldl defaultErrorHandler_step (None, initialHeaders) errors in
  let status := if negb (truthy_num status) then Some 500 else status in
  Response_json (BodyErrors (delete_http <$> errors)) status None headers.

(** *** Route derivation *)

Record RouteConfig := {
  rc_method : option HTTPMethod;
  rc_path : option string;
  rc_responseStatus : option Z;
  rc_tags : option (list string);
  rc_description : option string;
}.

Record Route := {
  route_method : HTTPMethod;
  route_path : string;
  route_responseStatus : Z;
}.

Record RouteInfo := {
  ri_document : OperationDefinitionNode;
  ri_path : string;
  ri_method : HTTPMethod;
  ri_tags : list string;
  ri_description : string;
}.

(** *** Request-time variable lookup *)

(** What [pickParam] returns: a value found in the request, or the member
    of [Object.prototype] that [params[name]] reads through the prototype
    chain. *)
Inductive Param :=
| ParamValue (value : Json)
| ParamInherited (name : string).

(** [body.hasOwnProperty(name)] followed by [body[name]] on a parsed JSON
    value.  The method is read from the body: a body with a key
    [hasOwnProperty] of its own holds a JSON value there, and calling it
    throws.  Operation variable names are GraphQL names, so the index keys
    of arrays and strings never match; their [length] does. *)
Definition own_property (body : Json) (name : string) : Result (option Json) :=
  match body with
  | JObj fields =>
      if bool_decide (is_Some (obj_get "hasOwnProperty" fields))
      then Throw notAFunction
      else Ok (obj_get name fields)
  | JArr items =>
      Ok (if decide (name = "length") then Some (JNum (Z.of_nat (length items)))
          else None)
  | JStr s =>
      Ok (if decide (name = "length") then Some (JNum (Z.of_nat (String.length s)))
          else None)
  | _ => Ok None
  end.

(** [params] are the path parameters the transport bound for the matched
    route, an ordinary object as is the default [{}]: [name in params] holds
    of its own keys and of the members of [Object.prototype]. *)

(** [searchParams.getAll(name)] *)
Definition getAll (entries : list (string * string)) (name : string) : list string :=
  (filter (λ e, e.1 = name) entries).*2.

Definition pickParam (name : string) (url : Url) (params : gmap string string)
    (body : Json) : Result (option Param) :=
  match params !! name with
  | Some value => Ok (Some (ParamValue (JStr value)))
  | None =>
      if bool_decide (name ∈ Object_prototype) then Ok (Some (ParamInherited name))
      else
        match getAll (searchParams url) name with
        | [] =>
            if truthy body
            then match own_property body name with
                 | Ok value => Ok (ParamValue <$> value)
                 | Throw error => Throw error
                 end
            else Ok None
        | [value] => Ok (Some (ParamValue (JStr value)))
        | values => Ok (Some (ParamValue (JArr (JStr <$> values))))
        end
  end.

Section Pipeline.

(** The rest of the transport's server context, and the execution context
    the context factory builds from it. *)
Context {Env ContextValue : Type}.

Record ServerContext := {
  sc_request : option RouterRequest;
  sc_env : Env;
}.

(** [Object.assign(serverContext, { request })] *)
Definition assign_request (serverContext : ServerContext) (request : RouterRequest)
    : ServerContext :=
  {| sc_request := Some request; sc_env := sc_env serverContext |}.

Record ExecutionArgs := {
  ea_schema : GraphQLSchema;
  ea_document : OperationDefinitionNode;
  ea_contextValue : ContextValue;
  ea_variableValues : gmap string Json;
  ea_operationName : option string;
}.

Record ExecutionResult := {
  data : option (list (string * Json));
  errors : option (list Error);
}.

(** The [Sofa] object, as far as the router reads it. *)
Record Sofa := {
  sofa_opts : Opts;        (* schema, customScalars, enumTypes, example directive *)
  routes : option (gmap string RouteConfig);
  batching_enabled : bool;
  batching_limit : Z;
  errorHandler : option ErrorHandler;
  contextFactory : ServerContext -> Result ContextValue;
  execute : ExecutionArgs -> Result ExecutionResult;
  openAPI_schemas : list (string * Schema);   (* sofa.openAPI.components.schemas *)
}.

(** Collaborators outside this repository's sources: the platform
    ([JSON], [URL], [String]), the transport router, the operation
    synthesizer, and the modules [./common] and [./parse]. *)
Record Externals := {
  convertName : string -> string;
  parseVariable : option Param -> VariableDefinitionNode -> GraphQLSchema
                  -> Result (option Json);
  buildOperation : OperationTypeNode -> string -> OperationInfo;
  JSON_parse : string -> option Json;   (* [None]: it throws [JSON_error text] *)
  JSON_error : string -> Error;
  JSON_stringify : list (string * Json) -> string;
  String_of : Json -> string;
  URL_of : string -> option Url;   (* new URL(path, 'http://localhost'); [None]: it throws *)
  matchPath : string -> string -> option (gmap string string);
  unhandled : RouterRequest -> Response;
  errorText : Error -> string;   (* error.message || error.toString?.() || error *)
}.

Context (X : Externals).

(** *** Setup time: routes and their schemas *)

Definition getPath (fieldName : string) (hasId : bool) : string :=
  "/" +:+ convertName X fieldName +:+ (if hasId then "/:id" else "").

(** The [{ properties, required }] pair kept for path and query parameters. *)
Record ParamsSchema := {
  ps_properties : list (string * Schema);
  ps_required : list string;
}.

Record RouteSchemas := {
  request_json : option (option Schema);
  request_params : ParamsSchema;
  request_query : ParamsSchema;
  responses : list (Z * option Schema);
}.

Definition ps_add (varName : string) (varSchema : Schema) (required : bool)
    (varObj : ParamsSchema) : ParamsSchema :=
  {| ps_properties := obj_set varName varSchema (ps_properties varObj);
     ps_required := if required then (ps_required varObj ++ [varName])%list
                    else ps_required varObj |}.

(** The fragment the loop over [info.variables] computes for a variable.
    The description is written onto the resolved fragment itself.  For a
    variable of an enum type that fragment is the one object of the enum
    table, so in the program the description is seen through every other
    use of that enum as well; this sharing is not tracked here, where each
    variable has its fragment to itself. *)
Definition variableSchema (field : option GraphQLField) (info : OperationInfo)
    (sofa : Sofa) (variable : VariableDefinitionNode) : Schema :=
  let varName := variable_name variable in
  let opts := sofa_opts sofa in
  let varSchema := resolveParamSchema (variable_type variable) opts in
  let varSchema :=
    set_description
      (resolveVariableDescription (schema opts) (info_operation info) variable)
      varSchema in
  let arg := field ≫= λ f, head (filter (λ a, arg_name a = varName) (field_args f)) in
  match arg with
  | Some arg => addExampleFromDirective varSchema (OnArgument arg) opts
  | None => varSchema
  end.

(** One turn of the loop over [info.variables]. *)
Definition getRouteSchemas_step (field : option GraphQLField) (path : string)
    (info : OperationInfo) (sofa : Sofa)
    (acc : ParamsSchema * ParamsSchema) (variable : VariableDefinitionNode)
    : ParamsSchema * ParamsSchema :=
  let '(params, query) := acc in
  let varName := variable_name variable in
  let varSchema := variableSchema field info sofa variable in
  let required := isNonNullTypeNode (variable_type variable) in
  if isInPath path varName
  then (ps_add varName varSchema required params, query)
  else (params, ps_add varName varSchema required query).

Definition getRouteSchemas (field : option GraphQLField) (method : HTTPMethod)
    (path : string) (info : OperationInfo) (sofa : Sofa) (responseStatus : Z)
    : RouteSchemas :=
  let empty := {| ps_properties := []; ps_required := [] |} in
  let '(params, query) :=
    foldl (getRouteSchemas_step field path info sofa) (empty, empty)
          (info_variables info) in
  {| request_json :=
       if useRequestBody method
       then Some (resolveRequestBody (Some (info_variables info))
                    (info_operation info) (sofa_opts sofa))
       else None;
     request_params := params;
     request_query := query;
     responses :=
       [(responseStatus, resolveResponse (info_operation info) (sofa_opts sofa))] |}.

(** The parameter locations under which a route's schemas list a variable. *)
Definition route_locations (schemas : RouteSchemas) (v : string)
    : list ParameterLocation :=
  ((if bool_decide (v ∈ obj_keys (ps_properties (request_params schemas)))
    then [InPath] else [])
   ++ (if bool_decide (v ∈ obj_keys (ps_properties (request_query schemas)))
       then [InQuery] else [])
   ++ match request_json schemas with
      | Some (Some body) =>
          if bool_decide (v ∈ obj_keys (properties_of body)) then [InBody] else []
      | _ => []
      end)%list.

(** What [useHandler] closes over. *)
Record HandlerConfig := {
  hc_sofa : Sofa;
  hc_info : OperationInfo;
  hc_route : Route;
  hc_operation : OperationDefinitionNode;
  hc_fieldName : string;
}.

(** An entry registered with [router.route]. *)
Record CompiledRoute := {
  cr_path : string;
  cr_method : HTTPMethod;
  cr_schemas : RouteSchemas;
  cr_handler : HandlerConfig;
}.

(** [sofa.routes?.[graphqlPath]] *)
Definition routeConfigOf (sofa : Sofa) (graphqlPath : string) : option RouteConfig :=
  routes sofa ≫= λ table, table !! graphqlPath.

Definition isSingle (fieldType : GraphQLType) : bool :=
  isObjectType fieldType
  || match fieldType with
     | GraphQLNonNull ofType => isObjectType ofType
     | _ => false
     end.

Definition hasIdArgument (field : GraphQLField) : bool :=
  bool_decide (Exists (λ arg, arg_name arg = "id") (field_args field)).

Definition createQueryRoute (sofa : Sofa) (fieldName : string)
    : option (CompiledRoute * RouteInfo) :=
  queryType ← getQueryType (schema (sofa_opts sofa));
  let info := buildOperation X OpQuery fieldName in
  let operation := info_operation info in
  field ← getFields queryType fieldName;
  let graphqlPath := type_name (def_type queryType) +:+ "." +:+ fieldName in
  let routeConfig := routeConfigOf sofa graphqlPath in
  let route :=
    {| route_method := default GET (routeConfig ≫= rc_method);
       route_path :=
         default (getPath fieldName (isSingle (field_type field) && hasIdArgument field))
                 (routeConfig ≫= rc_path);
       route_responseStatus := default 200 (routeConfig ≫= rc_responseStatus) |} in
  Some ({| cr_path := route_path route;
           cr_method := route_method route;
           cr_schemas :=
             getRouteSchemas (Some field) (route_method route) (route_path route)
                             info sofa (route_responseStatus route);
           cr_handler :=
             {| hc_sofa := sofa; hc_info := info; hc_route := route;
                hc_operation := operation; hc_fieldName := fieldName |} |},
        {| ri_document := operation;
           ri_path := route_path route;
           ri_method := route_method route;
           ri_tags := default [] (routeConfig ≫= rc_tags);
           ri_description :=
             default (default "" (field_description field))
                     (routeConfig ≫= rc_description) |}).

Definition createMutationRoute (sofa : Sofa) (fieldName : string)
    : option (CompiledRoute * RouteInfo) :=
  mutationType ← getMutationType (schema (sofa_opts sofa));
  field ← getFields mutationType fieldName;
  let info := buildOperation X OpMutation fieldName in
  let operation := info_operation info in
  let graphqlPath := type_name (def_type mutationType) +:+ "." +:+ fieldName in
  let routeConfig := routeConfigOf sofa graphqlPath in
  let method := default POST (routeConfig ≫= rc_method) in
  let path := default (getPath fieldName false) (routeConfig ≫= rc_path) in
  let responseStatus := default 200 (routeConfig ≫= rc_responseStatus) in
  let route :=
    {| route_method := method; route_path := path;
       route_responseStatus := responseStatus |} in
  Some ({| cr_path := path;
           cr_method := method;
           cr_schemas := getRouteSchemas (Some field) method path info sofa responseStatus;
           cr_handler :=
             {| hc_sofa := sofa; hc_info := info; hc_route := route;
                hc_operation := operation; hc_fieldName := fieldName |} |},
        {| ri_document := operation;
           ri_path := path;
           ri_method := method;
           ri_tags := default [] (routeConfig ≫= rc_tags);
           ri_description :=
             default (default "" (field_description field))
                     (routeConfig ≫= rc_description) |}).

(** One turn of the loop over the type map: the assignment
    [schemas[typeName] = ...] it performs, if any. *)
Definition componentFor (sofa : Sofa) (type : TypeDefinition)
    : option (string * Schema) :=
  let opts := sofa_opts sofa in
  let typeName := type_name (def_type type) in
  if (isObjectType (Named (def_type type))
      || isInputObjectType (Named (def_type type)))
     && negb (isIntrospectionType (def_type type))
  then Some (typeName, buildSchemaObjectFromType type opts)
  else if negb (isIntrospectionType (def_type type))
  then match customScalars opts !! typeName with
       | Some custom =>
           Some (typeName,
                 addExampleFromDirective
                   (MkSchema (shape custom)
                      (match description custom with
                       | Some d => Some d
                       | None => def_description type
                       end)
                      (example custom))
                   (OnType (Named (def_type type))) opts)
       | None => None
       end
  else None.

(** The assignments performed by the whole loop, in order: one per object or
    input-object type that is not an introspection type, and one per
    declared custom scalar. *)
Definition component_builds (sofa : Sofa) : list (string * Schema) :=
  omap (componentFor sofa) (getTypeMap (schema (sofa_opts sofa))).

(** [sofa.openAPI.components.schemas] after the loop. *)
Definition createRouter_schemas (sofa : Sofa) : list (string * Schema) :=
  foldl (λ schemas '(typeName, component), obj_set typeName component schemas)
        (openAPI_schemas sofa) (component_builds sofa).

(** The field routes registered by [createRouter]: queries, then mutations. *)
Definition createRouter_routes (sofa : Sofa) : list CompiledRoute :=
  let fieldNames (t : option TypeDefinition) :=
    match t with Some t => field_name <$> def_fields t | None => [] end in
  ((omap (λ fieldName, fst <$> createQueryRoute sofa fieldName)
         (fieldNames (getQueryType (schema (sofa_opts sofa)))))
   ++ omap (λ fieldName, fst <$> createMutationRoute sofa fieldName)
           (fieldNames (getMutationType (schema (sofa_opts sofa)))))%list.

(** *** Request time: one call through [useHandler] *)

Definition invalidJson : Error :=
  createGraphQLError "POST body sent invalid JSON." 400.

(** Step 1: the body.  An absent body stream and an empty body text both
    leave [body = {}]. *)
Definition parseBody (request : RouterRequest) : Result Json :=
  match req_body request with
  | None => Ok (JObj [])
  | Some strBody =>
      if truthy_str (Some strBody)
      then match JSON_parse X strBody with
           | Some body => Ok body
           | None => Throw invalidJson
           end
      else Ok (JObj [])
  end.

(** One turn of [info.variables.reduce]. *)
Definition resolveVariables_step (sofa : Sofa) (request : RouterRequest) (body : Json)
    (acc : Result (gmap string Json)) (variable : VariableDefinitionNode)
    : Result (gmap string Json) :=
  variables ← acc;
  let name := variable_name variable in
  picked ← pickParam name (req_url request) (default ∅ (req_params request)) body;
  value ← parseVariable X picked variable (schema (sofa_opts sofa));
  mret (match value with
        | None => variables
        | Some value => <[name := value]> variables
        end).

(** Step 2: the variable values; a failure is rethrown with a 400 hint. *)
Definition resolveVariables (sofa : Sofa) (info : OperationInfo)
    (request : RouterRequest) (body : Json) : Result (gmap string Json) :=
  match foldl (resolveVariables_step sofa request body) (Ok ∅) (info_variables info) with
  | Ok variableValues => Ok variableValues
  | Throw error => Throw (createGraphQLError (errorText X error) 400)
  end.

Definition errorHandlerOf (sofa : Sofa) : ErrorHandler :=
  default defaultErrorHandler (errorHandler sofa).

(** Steps 3 to 6, after the variables are known: the context, the execution
    and the shaping of its result. *)
Definition executeOperation (config : HandlerConfig) (variableValues : gmap string Json)
    (sofaContext : ServerContext) : Result Response :=
  let sofa := hc_sofa config in
  contextValue ← contextFactory sofa sofaContext;
  result ← execute sofa
              {| ea_schema := schema (sofa_opts sofa);
                 ea_document := hc_operation config;
                 ea_contextValue := contextValue;
                 ea_variableValues := variableValues;
                 ea_operationName := operationName (info_operation (hc_info config)) |};
  match errors result with
  | Some errors => mret (errorHandlerOf sofa errors)
  | None =>
      match data result ≫= obj_get (hc_fieldName config) with
      | Some value =>
          mret (Response_json (BodyJson value)
                  (Some (route_responseStatus (hc_route config))) None ∅)
      | None => Throw notSerializable               (* Response.json(undefined) *)
      end
  end.

(** The body of the [try] block, with the server context it leaves behind. *)
Definition handlerTry (config : HandlerConfig) (request : RouterRequest)
    (serverContext : ServerContext) : Result Response * ServerContext :=
  match parseBody request with
  | Throw error => (Throw error, serverContext)
  | Ok body =>
      match resolveVariables (hc_sofa config) (hc_info config) request body with
      | Throw error => (Throw error, serverContext)
      | Ok variableValues =>
          let sofaContext := assign_request serverContext request in
          (executeOperation config variableValues sofaContext, sofaContext)
      end
  end.

Definition useHandler (config : HandlerConfig) (request : RouterRequest)
    (serverContext : ServerContext) : Response * ServerContext :=
  match handlerTry config request serverContext with
  | (Ok response, serverContext) => (response, serverContext)
  | (Throw error, serverContext) =>
      (errorHandlerOf (hc_sofa config) [error], serverContext)
  end.

(** *** The transport router over the compiled field routes *)

Definition matchRoute (request : RouterRequest) (route : CompiledRoute)
    : option (CompiledRoute * gmap string string) :=
  if decide (cr_method route = req_method request)
  then params ← matchPath X (cr_path route) (pathname (req_url request));
       Some (route, params)
  else None.

Definition withParams (request : RouterRequest) (params : gmap string string)
    : RouterRequest :=
  {| req_method := req_method request; req_url := req_url request;
     req_params := Some params; req_body := req_body request |}.

(** [router.handle(request, serverContext)]: the answer, and the caller's
    server context afterwards.  The handler of the matched route runs on an
    isolated view of that context, so what it assigns does not reach the
    caller's object. *)
Definition router_handle (router : list CompiledRoute) (request : RouterRequest)
    (serverContext : ServerContext) : Response * ServerContext :=
  match head (omap (matchRoute request) router) with
  | Some (route, params) =>
      ((useHandler (cr_handler route) (withParams request params) serverContext).1,
       serverContext)
  | None => (unhandled X request, serverContext)
  end.

(** *** The batch route *)

(** [method: 'GET' | 'POST'] *)
Inductive BatchMethod := BatchGET | BatchPOST.

Definition methodOf (method : BatchMethod) : HTTPMethod :=
  match method with BatchGET => GET | BatchPOST => POST end.

Record BatchItem := {
  item_path : string;
  item_method : BatchMethod;
  item_params : option (list (string * Json));
}.

(** The [TypeError] of the URL constructor. *)
Definition invalidURL : Error := ErrorObject "Invalid URL" None.

(** The internal request built for one item; building it throws when the
    URL constructor rejects the item's path.  [item_params] lists the
    members of [params] as the batch body gives them, and [members] is the
    object they denote. *)
Definition batchRequest (item : BatchItem) : Result RouterRequest :=
  match URL_of X (item_path item) with
  | None => Throw invalidURL
  | Some url =>
      Ok match members <$> item_params item with
         | Some params =>
             match item_method item with
             | BatchGET =>
                 {| req_method := GET;
                    req_url :=
                      {| pathname := pathname url;
                         searchParams :=
                           (searchParams url
                            ++ ((λ '(key, value), (key, String_of X value))
                                  <$> params))%list |};
                    req_params := None;
                    req_body := None |}
             | BatchPOST =>
                 {| req_method := POST; req_url := url;
                    req_params := None;
                    req_body := Some (JSON_stringify X params) |}
             end
         | None =>
             {| req_method := methodOf (item_method item); req_url := url;
                req_params := None; req_body := None |}
         end
  end.

(** What one item contributes: [{ status: res.status, body: await res.json() }];
    reading the body throws when it is a text that is not JSON. *)
Definition responseBody (res : Response) : Result (Z * Body) :=
  match res_body res with
  | BodyText text =>
      match JSON_parse X text with
      | Some value => Ok (res_status res, BodyJson value)
      | None => Throw (JSON_error X text)
      end
  | body => Ok (res_status res, body)
  end.

(** The promise of one item, run to its end: its outcome, the server
    context it leaves and the request it handed to the router, if any. *)
Definition dispatchItem (router : list CompiledRoute) (item : BatchItem)
    (serverContext : ServerContext)
    : Result (Z * Body) * ServerContext * list RouterRequest :=
  match batchRequest item with
  | Throw error => (Throw error, serverContext, [])
  | Ok request =>
      let '(res, serverContext) := router_handle router request serverContext in
      (responseBody res, serverContext, [request])
  end.

(** The state of a batch in flight: the shared server context, the promises
    settled so far (by input position) and the requests dispatched. *)
Definition BatchState : Type :=
  ServerContext * gmap nat (Result (Z * Body)) * list RouterRequest.

(** The promise of the item at position [i] settles. *)
Definition settle (router : list CompiledRoute) (body : list BatchItem)
    (st : BatchState) (i : nat) : BatchState :=
  let '(serverContext, settled, dispatched) := st in
  match body !! i, settled !! i with
  | Some item, None =>
      let '(outcome, serverContext, requests) :=
        dispatchItem router item serverContext in
      (serverContext, <[i := outcome]> settled, (dispatched ++ requests)%list)
  | _, _ => st
  end.

Definition rejection {A} (settled : gmap nat (Result A)) (i : nat) : option Error :=
  match settled !! i with Some (Throw error) => Some error | _ => None end.

Definition fulfilment {A} (settled : gmap nat (Result A)) (i : nat) : option A :=
  match settled !! i with Some (Ok value) => Some value | _ => None end.

(** [await Promise.all(promises)], the promises having settled in the order
    [schedule]: it throws the first rejection, and otherwise yields the
    values by input position once every promise is fulfilled ([None]: it is
    still pending). *)
Definition Promise_all {A} (n : nat) (settled : gmap nat (Result A))
    (schedule : list nat) : option (Result (list A)) :=
  match head (omap (rejection settled) schedule) with
  | Some error => Some (Throw error)
  | None => Ok <$> mapM (fulfilment settled) (seq 0 n)
  end.

(** The handler of [POST /batch] on a decoded body.  [schedule] is the order
    in which the items' promises settle.  The result is what the handler
    returns or throws (if it settles), the server context and the requests
    dispatched. *)
Definition batchHandler (sofa : Sofa) (router : list CompiledRoute)
    (schedule : list nat) (body : list BatchItem) (serverContext : ServerContext)
    : option (Result Response) * ServerContext * list RouterRequest :=
  if Z.of_nat (length body) >? batching_limit sofa
  then (Some (Ok (Response_json
                    (BodyMessage ("Batching is limited to "
                                  +:+ String_of X (JNum (batching_limit sofa))
                                  +:+ " operations per request."))
                    (Some 413) (Some "Content Too Large") ∅)),
        serverContext, [])
  else
    let '(serverContext, settled, dispatched) :=
      foldl (settle router body) (serverContext, ∅, []) schedule in
    (match Promise_all (length body) settled schedule with
     | Some (Ok responses) =>
         Some (Ok (Response_json (BodyBatch responses) None None ∅))
     | Some (Throw error) => Some (Throw error)
     | None => None
     end,
     serverContext, dispatched).

End Pipeline.
Arguments ServerContext : clear implicits.
Arguments ExecutionArgs : clear implicits.
Arguments Sofa : clear implicits.
Arguments HandlerConfig : clear implicits.
Arguments CompiledRoute : clear implicits.
Arguments BatchState : clear implicits.

End Router.
Import Router.

(** ** [src/open-api/utils.ts]: path templates *)

Module PathTemplates.

Import Stdlib.Strings.Ascii.

Definition slash : ascii := "/"%char.

(** [s.split(sep)] for a separator of one character. *)
Fixpoint String_split (sep : Ascii.ascii) (s : string) : list string :=
  match s with
  | EmptyString => [EmptyString]
  | String c s' =>
      if Ascii.eqb c sep then EmptyString :: String_split sep s'
      else match String_split sep s' with
           | part :: parts => String c part :: parts
           | [] => [String c EmptyString]
           end
  end.

(** [parts.join(sep)] *)
Fixpoint Array_join (sep : string) (parts : list string) : string :=
  match parts with
  | [] => ""
  | [part] => part
  | part :: parts => part +:+ sep +:+ Array_join sep parts
  end.

(** [part.slice(1)] *)
Definition slice1 (part : string) : string :=
  match part with
  | EmptyString => EmptyString
  | String _ rest => rest
  end.

(** The callback of [pathParts.map]. *)
Definition normalizePart (part : string) : string :=
  if String.prefix ":" part then "{" +:+ slice1 part +:+ "}" else part.

Definition normalizePathParamForOpenAPI (path : string) : string :=
  let pathParts := String_split slash path in
  let normalizedPathParts := normalizePart <$> pathParts in
  Array_join "/" normalizedPathParts.

End PathTemplates.
Import PathTemplates.

(** ** [src/open-api/index.ts] *)

Module Document.

(** The document under construction, as far as [OpenAPI] and [addRoute]
    write to it: [paths] maps a path to its path item, which maps the
    lower-cased method to the operation; [schemas] is
    [components.schemas]. *)
Record Swagger := {
  paths : list (string * list (string * OperationObject));
  schemas : list (string * Schema);
}.


(** The assignment of the loop over the type map, if any. *)
Definition schemaFor (opts : Opts) (type : TypeDefinition) : option (string * Schema) :=
  if (isObjectType (Named (def_type type)) || isInputObjectType (Named (def_type type)))
     && negb (isIntrospectionType (def_type type))
  then Some (type_name (def_type type), buildSchemaObjectFromType type opts)
  else None.

(** [OpenAPI(config)], up to the document it starts from.  The spread
    [{ ...components, ...swagger.components }] keeps the [schemas] just
    built. *)
Definition OpenAPI (opts : Opts) : Swagger :=
  {| paths := [];
     schemas :=
       foldl (λ schemas '(typeName, component), obj_set typeName component schemas)
             [] (omap (schemaFor opts) (getTypeMap (schema opts))) |}.

Section AddRoute.

(** [getOperationInfo] of [../ast], which is not among these sources. *)
Context (getOperationInfo : OperationDefinitionNode → OperationInfo).

(** The path under which a route is documented. *)
Definition documentedPath (info : RouteInfo) (basePath : option string) : string :=
  let basePath := if truthy_str basePath then default "" basePath else "" in
  basePath +:+ normalizePathParamForOpenAPI (ri_path info).

(** The operation [addRoute] stores; no example directive is handed on. *)
Definition documentedOperation (opts : Opts) (info : RouteInfo)
    (basePath : option string) : OperationObject :=
  buildPathFromOperation (documentedPath info basePath)
    (getOperationInfo (ri_document info))
    (bool_decide (ri_method info ∈ [POST; PUT; PATCH]))
    (ri_tags info) (ri_description info)
    {| schema := schema opts; customScalars := customScalars opts;
       enumTypes := enumTypes opts;
       exampleDirective := None; exampleDirectiveParser := None |}.



End AddRoute.

End Document.
Import Document.

(** ** A small schema and deployment, used to exercise the definitions *)

Module Fixtures.

(** type User { id: ID!  name: String  friend: User  lastPost: Post  posts: [Post!]! }
    type Post { title: String!  author: User! }
    input A { b: B }   input B { a: A }
    type Query { user(id: ID!): User  users: [User]  me: User! }
    type Mutation { createUser(name: String!): User } *)

Definition ID := Named (GraphQLScalarType "ID" None).
Definition String_ := Named (GraphQLScalarType "String" None).
Definition User := Named (GraphQLObjectType "User").
Definition Post := Named (GraphQLObjectType "Post").

Definition mkField (n : string) (t : GraphQLType) (args : list GraphQLArgument)
    : GraphQLField :=
  {| field_name := n; field_type := t; field_args := args; field_description := None |}.

Definition mkArg (n : string) (t : GraphQLType) : GraphQLArgument :=
  {| arg_name := n; arg_type := t; arg_description := None |}.

Definition userType : TypeDefinition :=
  {| def_type := GraphQLObjectType "User";
     def_fields := [mkField "id" (GraphQLNonNull ID) [];
                    mkField "name" String_ [];
                    mkField "friend" User [];
                    mkField "lastPost" Post [];
                    mkField "posts" (GraphQLNonNull (GraphQLList (GraphQLNonNull Post))) []];
     def_description := None; def_astNode := None |}.

Definition postType : TypeDefinition :=
  {| def_type := GraphQLObjectType "Post";
     def_fields := [mkField "title" (GraphQLNonNull String_) [];
                    mkField "author" (GraphQLNonNull User) []];
     def_description := None; def_astNode := None |}.

Definition inputA : TypeDefinition :=
  {| def_type := GraphQLInputObjectType "A";
     def_fields := [mkField "b" (Named (GraphQLInputObjectType "B")) []];
     def_description := None; def_astNode := None |}.

Definition inputB : TypeDefinition :=
  {| def_type := GraphQLInputObjectType "B";
     def_fields := [mkField "a" (Named (GraphQLInputObjectType "A")) []];
     def_description := None; def_astNode := None |}.

Definition queryType : TypeDefinition :=
  {| def_type := GraphQLObjectType "Query";
     def_fields := [mkField "user" User [mkArg "id" (GraphQLNonNull ID)];
                    mkField "users" (GraphQLList User) [];
                    mkField "me" (GraphQLNonNull User) []];
     def_description := None; def_astNode := None |}.

Definition mutationType : TypeDefinition :=
  {| def_type := GraphQLObjectType "Mutation";
     def_fields := [mkField "createUser" User [mkArg "name" (GraphQLNonNull String_)]];
     def_description := None; def_astNode := None |}.

Definition demoSchema : GraphQLSchema :=
  {| getTypeMap := [queryType; mutationType; userType; postType; inputA; inputB];
     getQueryType := Some queryType;
     getMutationType := Some mutationType;
     getDirective := λ _ _, None |}.

Definition demoOpts : Opts :=
  {| schema := demoSchema; customScalars := ∅; enumTypes := ∅;
     exampleDirective := None; exampleDirectiveParser := None |}.

Definition var (n : string) (t : TypeNode) : VariableDefinitionNode :=
  {| variable_name := n; variable_type := t |}.

Definition demoVariables (fieldName : string) : list VariableDefinitionNode :=
  if decide (fieldName = "user") then [var "id" (NonNullTypeNode (NamedTypeNode "ID"))]
  else if decide (fieldName = "createUser")
       then [var "name" (NonNullTypeNode (NamedTypeNode "String"))]
  else [].

Definition demoOperation (op : OperationTypeNode) (fieldName : string) : OperationInfo :=
  let operation :=
    {| operation := op; operationName := Some (fieldName +:+ "_" +:+ titleCase op);
       rootField := fieldName;
       variableDefinitions := Some (demoVariables fieldName) |} in
  {| info_operation := operation;
     info_variables := demoVariables fieldName;
     info_name := operationName operation |}.

(** The answer of the transport to a request that matches no route: no
    JSON. *)
Definition notFound : Response :=
  {| res_body := BodyText ""; res_status := 404; res_statusText := Some "Not Found";
     res_headers := ∅ |}.

(** The path matcher of the demo transport: [/user/:id] binds [id]. *)
Definition demoMatch (template path : string) : option (gmap string string) :=
  if decide (template = path) then Some ∅
  else if decide (template = "/user/:id")
       then if String.prefix "/user/" path
            then Some {[ "id" := String.substring 6 (String.length path - 6)%nat path ]}
            else None
  else None.

Definition demoX : Externals :=
  {| convertName := λ fieldName, fieldName;
     parseVariable := λ picked _ _,
       match picked with
       | Some (ParamValue value) => Ok (Some value)
       | Some (ParamInherited name) => Throw (ErrorObject ("not a value: " +:+ name) None)
       | None => Ok None
       end;
     buildOperation := demoOperation;
     JSON_parse := λ text,
       if decide (text = "{name:Ann}") then Some (JObj [("name", JStr "Ann")])
       else if decide (text = "{}") then Some (JObj [])
       else None;
     JSON_error := λ text, ErrorObject ("not JSON: " +:+ text) None;
     JSON_stringify := λ _, "{name:Ann}";
     String_of := λ value,
       match value with JStr s => s | JNum n => pretty n | _ => "" end;
     URL_of := λ path,
       if String.prefix "/" path && negb (String.prefix "//" path)
       then Some {| pathname := path; searchParams := [] |}
       else None;
     matchPath := demoMatch;
     unhandled := λ _, notFound;
     errorText := λ error,
       match error with ErrorObject message _ => message | ErrorValue _ => "error" end |}.

Definition hinted (message : string) (status : Z) (headers : gmap string string) : Error :=
  ErrorObject message
    (Some {| ext_http := Some {| http_spec := None; http_status := Some status;
                                 http_headers := Some headers |};
             ext_other := [] |}).

(** The demo executor: [user] fails for the id [boom], [users] reports two
    field errors, everything else answers with data. *)
Definition demoExecute (args : ExecutionArgs unit) : Result ExecutionResult :=
  let fieldName := rootField (ea_document args) in
  if bool_decide (rootField (ea_document args) = "user")
     && match ea_variableValues args !! "id" with
        | Some (JStr id) => bool_decide (id = "boom")
        | _ => false
        end
  then Throw (ErrorObject "resolver exploded" None)
  else if decide (fieldName = "users")
  then Ok {| data := None;
             errors := Some [hinted "bad input" 400 {[ "X-A" := "1" ]};
                             hinted "no such user" 404 {[ "X-B" := "2" ]}] |}
  else Ok {| data := Some [(fieldName, JObj [("id", JStr "1")])]; errors := None |}.

Definition demoSofa : Sofa unit unit :=
  {| sofa_opts := demoOpts; routes := None;
     batching_enabled := true; batching_limit := 3;
     errorHandler := None;
     contextFactory := λ _, Ok tt;
     execute := demoExecute;
     openAPI_schemas := [] |}.


Definition demoContext : ServerContext unit := {| sc_request := None; sc_env := tt |}.

Definition demoRouter : list (CompiledRoute unit unit) := createRouter_routes demoX demoSofa.

Definition getItem (path : string) : BatchItem :=
  {| item_path := path; item_method := BatchGET; item_params := None |}.

End Fixtures.

(** ** A second schema: an enum, a custom scalar and renamed root types *)

Module Catalogue.

(** scalar Date
    enum Status { ACTIVE  ARCHIVED }
    type Item { id: ID!  status: Status  tags: [[String!]]  added: Date }
    type RootQuery { "One item" item("Its id" id: ID!): Item
                     items(status: Status, since: Date): [Item!]! }
    schema { query: RootQuery } *)

Definition Status_ := Named (GraphQLEnumType "Status" ["ACTIVE"; "ARCHIVED"]).
Definition Date_ := Named (GraphQLScalarType "Date" None).
Definition Item := Named (GraphQLObjectType "Item").

Definition itemType : TypeDefinition :=
  {| def_type := GraphQLObjectType "Item";
     def_fields :=
       [Fixtures.mkField "id" (GraphQLNonNull Fixtures.ID) [];
        Fixtures.mkField "status" Status_ [];
        Fixtures.mkField "tags" (GraphQLList (GraphQLList (GraphQLNonNull Fixtures.String_))) [];
        Fixtures.mkField "added" Date_ []];
     def_description := None; def_astNode := None |}.

Definition rootQuery : TypeDefinition :=
  {| def_type := GraphQLObjectType "RootQuery";
     def_fields :=
       [{| field_name := "item"; field_type := Item;
           field_args := [{| arg_name := "id"; arg_type := GraphQLNonNull Fixtures.ID;
                             arg_description := Some "Its id" |}];
           field_description := Some "One item" |};
        Fixtures.mkField "items" (GraphQLNonNull (GraphQLList (GraphQLNonNull Item)))
          [Fixtures.mkArg "status" Status_; Fixtures.mkArg "since" Date_]];
     def_description := None; def_astNode := None |}.

Definition leaf (t : GraphQLNamedType) : TypeDefinition :=
  {| def_type := t; def_fields := []; def_description := None; def_astNode := None |}.

Definition catalogueSchema : GraphQLSchema :=
  {| getTypeMap := [rootQuery; itemType;
                    leaf (GraphQLEnumType "Status" ["ACTIVE"; "ARCHIVED"]);
                    leaf (GraphQLScalarType "Date" None);
                    leaf (GraphQLScalarType "ID" None);
                    leaf (GraphQLScalarType "String" None)];
     getQueryType := Some rootQuery;
     getMutationType := None;
     getDirective := λ _ _, None |}.

Definition catalogueOpts : Opts :=
  {| schema := catalogueSchema;
     customScalars := {[ "Date" := MkSchema (ShPrimitive "string" (Some "date")) None None ]};
     enumTypes := resolveEnumTypes catalogueSchema;
     exampleDirective := None; exampleDirectiveParser := None |}.

Definition catalogueVariables (fieldName : string) : list VariableDefinitionNode :=
  if decide (fieldName = "item")
  then [Fixtures.var "id" (NonNullTypeNode (NamedTypeNode "ID"))]
  else if decide (fieldName = "items")
       then [Fixtures.var "status" (NamedTypeNode "Status");
             Fixtures.var "since" (NamedTypeNode "Date")]
  else [].

Definition catalogueOperation (op : OperationTypeNode) (fieldName : string)
    : OperationInfo :=
  let operation :=
    {| operation := op; operationName := Some (fieldName +:+ "_" +:+ titleCase op);
       rootField := fieldName;
       variableDefinitions := Some (catalogueVariables fieldName) |} in
  {| info_operation := operation;
     info_variables := catalogueVariables fieldName;
     info_name := operationName operation |}.

Definition catalogueX : Externals :=
  {| convertName := convertName Fixtures.demoX;
     parseVariable := λ picked variable _,
       match picked with
       | Some (ParamValue (JStr "")) => Throw (Fixtures.hinted "empty value" 422 ∅)
       | picked => parseVariable Fixtures.demoX picked variable Fixtures.demoSchema
       end;
     buildOperation := catalogueOperation;
     JSON_parse := JSON_parse Fixtures.demoX;
     JSON_error := JSON_error Fixtures.demoX;
     JSON_stringify := JSON_stringify Fixtures.demoX;
     String_of := String_of Fixtures.demoX;
     URL_of := URL_of Fixtures.demoX;
     matchPath := matchPath Fixtures.demoX;
     unhandled := unhandled Fixtures.demoX;
     errorText := errorText Fixtures.demoX |}.

Definition catalogueSofa : Sofa unit unit :=
  {| sofa_opts := catalogueOpts;
     routes := Some {[ "RootQuery.items" :=
                         {| rc_method := Some POST; rc_path := Some "/search/items";
                            rc_responseStatus := None; rc_tags := Some ["catalogue"];
                            rc_description := None |} ]};
     batching_enabled := true; batching_limit := 2;
     errorHandler := None;
     contextFactory := λ _, Ok tt;
     execute := λ args,
       Ok {| data := Some [(rootField (ea_document args), JNull)]; errors := None |};
     openAPI_schemas := [("Problem", plain ShOpaque)] |}.

(** The operation information of a route's document. *)
Definition catalogueInfo (document : OperationDefinitionNode) : OperationInfo :=
  {| info_operation := document;
     info_variables := default [] (variableDefinitions document);
     info_name := operationName document |}.

End Catalogue.

(** ** The vocabulary of the properties *)

Module Vocabulary.

(** The names of the fields whose declared type is non-null, in order. *)
Definition nonNullNames (fields : list GraphQLField) : list string :=
  field_name <$> filter (λ f, isNonNullType (field_type f) = true) fields.

(** The named type a field denotes once its non-null wrappers are removed
    ([None] for a list). *)
Fixpoint singleNamedType (t : GraphQLType) : option GraphQLNamedType :=
  match t with
  | GraphQLNonNull ofType => singleNamedType ofType
  | GraphQLList _ => None
  | Named n => Some n
  end.

Definition isComponentType (type : TypeDefinition) : bool :=
  (isObjectType (Named (def_type type)) || isInputObjectType (Named (def_type type)))
  && negb (isIntrospectionType (def_type type)).

(** The status an error hints, if it carries one (a status of [0] is no hint). *)
Definition hintedStatus (error : Error) : option Z :=
  http ← http_of error;
  status ← http_status http;
  if truthy_num (Some status) then Some status else None.

Definition hintedStatuses (errors : list Error) : list Z := omap hintedStatus errors.

(** The header set an error hints, if any. *)
Definition hintedHeaders (error : Error) : option (gmap string string) :=
  http_of error ≫= http_headers.

(** What the loop has computed after the errors seen so far. *)
Definition status_so_far (status : option Z) (hints : list Z) : Prop :=
  match hints with
  | [] => status = None
  | _ => ∃ s, status = Some s ∧ s ∈ hints ∧ Forall (λ h, h ≤ s) hints
  end.

(** The return type is one object type, possibly non-null, and not a list. *)
Definition denotesSingleObject (t : GraphQLType) : Prop :=
  ∃ n, t = Named (GraphQLObjectType n) ∨ t = GraphQLNonNull (Named (GraphQLObjectType n)).

(** The three sources of a variable's raw value, each taken on its own.
    The path parameters have a name as a key of their own or through
    [Object.prototype]; looking a name up in the body may throw. *)
Definition pathSource (params : gmap string string) (name : string) : option Param :=
  match params !! name with
  | Some value => Some (ParamValue (JStr value))
  | None =>
      if bool_decide (name ∈ Object_prototype) then Some (ParamInherited name) else None
  end.

Definition querySource (url : Url) (name : string) : option Param :=
  match getAll (searchParams url) name with
  | [] => None
  | [value] => Some (ParamValue (JStr value))
  | values => Some (ParamValue (JArr (JStr <$> values)))
  end.

Definition bodySource (body : Json) (name : string) : Result (option Param) :=
  if truthy body
  then match own_property body name with
       | Ok value => Ok (ParamValue <$> value)
       | Throw error => Throw error
       end
  else Ok None.

(** What one turn of the reduce computes for a variable: the raw value
    looked up under its name, parsed. *)
Definition variableValue {Env ContextValue} (X : Externals)
    (sofa : Sofa Env ContextValue) (request : RouterRequest) (body : Json)
    (variable : VariableDefinitionNode) : Result (option Json) :=
  match pickParam (variable_name variable) (req_url request)
                  (default ∅ (req_params request)) body with
  | Ok picked => parseVariable X picked variable (schema (sofa_opts sofa))
  | Throw error => Throw error
  end.

(** [reported] is [error] without its [http] extension: the same value when
    [error] is no object or has no extensions, and otherwise the error of
    the same message whose extensions are the other extensions of [error]. *)
Definition stripped (error reported : Error) : Prop :=
  match error with
  | ErrorObject message (Some extensions) =>
      ∃ extensions',
        reported = ErrorObject message (Some extensions')
        ∧ ext_http extensions' = None
        ∧ ext_other extensions' = ext_other extensions
  | _ => reported = error
  end.

(** The response was built by [Response.json]: its body reads back as
    JSON. *)
Definition jsonResponse (res : Response) : Prop :=
  ∀ text, res_body res ≠ BodyText text.

Definition variableNames (variables : list VariableDefinitionNode) : list string :=
  variable_name <$> variables.

(** The variables whose name occurs in the path template, and the others. *)
Definition pathVariables (path : string) (variables : list VariableDefinitionNode)
    : list VariableDefinitionNode :=
  filter (λ v, isInPath path (variable_name v) = true) variables.

Definition otherVariables (path : string) (variables : list VariableDefinitionNode)
    : list VariableDefinitionNode :=
  filter (λ v, isInPath path (variable_name v) ≠ true) variables.

Definition nonNullVariables (variables : list VariableDefinitionNode)
    : list VariableDefinitionNode :=
  filter (λ v, isNonNullTypeNode (variable_type v) = true) variables.

Section Batch.
Context {Env ContextValue : Type} (X : Externals).
Context (router : list (CompiledRoute Env ContextValue)) (body : list BatchItem)
        (serverContext0 : ServerContext Env).

(** The outcome of one item's promise on its own, from the server context
    the batch was called with. *)
Definition slot (item : BatchItem) : Result (Z * Body) :=
  (dispatchItem X router item serverContext0).1.1.

(** The requests dispatched for the item at a position (none if the item's
    request cannot be built). *)
Definition requestsOf (item : BatchItem) : list RouterRequest :=
  match batchRequest X item with Ok request => [request] | Throw _ => [] end.

Definition requestsAt (i : nat) : list RouterRequest :=
  default [] (requestsOf <$> body !! i).

(** The state of a batch after the promises at the positions [done] (in
    that order, repeats and positions out of range included) have been let
    run: the environment is untouched, the settled outcomes are those of the
    positions met, each the item's own, and the dispatched requests are
    those of the positions [ran], which are the valid positions met, each
    once. *)
Definition settled_by (done : list nat) (st : BatchState Env) : Prop :=
  sc_env st.1.1 = sc_env serverContext0
  ∧ (∀ i, st.1.2 !! i = if bool_decide (i ∈ done) then slot <$> body !! i else None)
  ∧ (∃ ran, NoDup ran
            ∧ (∀ i, i ∈ ran ↔ i ∈ done ∧ (i < length body)%nat)
            ∧ st.2 = ran ≫= requestsAt).

End Batch.

(** How many [array] levels a fragment opens before its items are not an
    array. *)
Fixpoint arrayDepth (s : Schema) : nat :=
  match s with
  | MkSchema (ShArray items) _ _ => S (arrayDepth items)
  | MkSchema _ _ _ => 0
  end.


(** The number of list wrappers of a type, and the named type under all
    its wrappers ([getNamedType]). *)
Fixpoint listDepth (t : GraphQLType) : nat :=
  match t with
  | GraphQLNonNull ofType => listDepth ofType
  | GraphQLList ofType => S (listDepth ofType)
  | Named _ => 0
  end.

Fixpoint namedType (t : GraphQLType) : GraphQLNamedType :=
  match t with
  | GraphQLNonNull ofType | GraphQLList ofType => namedType ofType
  | Named n => n
  end.

Fixpoint listDepthNode (t : TypeNode) : nat :=
  match t with
  | NonNullTypeNode type => listDepthNode type
  | ListTypeNode type => S (listDepthNode type)
  | NamedTypeNode _ => 0
  end.

Fixpoint namedTypeNode (t : TypeNode) : string :=
  match t with
  | NonNullTypeNode type | ListTypeNode type => namedTypeNode type
  | NamedTypeNode n => n
  end.




(** No character of the string is a slash. *)
Fixpoint slashFree (s : string) : bool :=
  match s with
  | EmptyString => true
  | String c s' => negb (Ascii.eqb c slash) && slashFree s'
  end.

(** The schema's enum type of the given name, as the parameter mapper's
    table holds it. *)
Definition enumFragment (schema : GraphQLSchema) (n : string) : option Schema :=
  match def_type <$> getType schema n with
  | Some (GraphQLEnumType _ values) => Some (plain (ShEnum values))
  | _ => None
  end.

(** The app object with its route overrides removed. *)
Definition withoutRoutes {Env ContextValue} (sofa : Sofa Env ContextValue)
    : Sofa Env ContextValue :=
  {| sofa_opts := sofa_opts sofa; routes := None;
     batching_enabled := batching_enabled sofa; batching_limit := batching_limit sofa;
     errorHandler := errorHandler sofa; contextFactory := contextFactory sofa;
     execute := execute sofa; openAPI_schemas := openAPI_schemas sofa |}.

(** The names of the query fields and of the mutation fields, in declaration
    order. *)
Definition queryFieldNames (schema : GraphQLSchema) : list string :=
  match getQueryType schema with
  | Some t => field_name <$> def_fields t
  | None => []
  end.

Definition mutationFieldNames (schema : GraphQLSchema) : list string :=
  match getMutationType schema with
  | Some t => field_name <$> def_fields t
  | None => []
  end.

(** The route a compiled route's handler closes over. *)
Definition routeOf {Env ContextValue} (compiled : CompiledRoute Env ContextValue) : Route :=
  hc_route (cr_handler compiled).

(** The shape every compiled route has, whichever function compiled it. *)
Definition wellFormed {Env ContextValue} (X : Externals) (sofa : Sofa Env ContextValue)
    (kind : OperationTypeNode) (compiled : CompiledRoute Env ContextValue) : Prop :=
  let handler := cr_handler compiled in
  hc_sofa handler = sofa
  ∧ hc_info handler = buildOperation X kind (hc_fieldName handler)
  ∧ hc_operation handler = info_operation (hc_info handler)
  ∧ cr_path compiled = route_path (hc_route handler)
  ∧ cr_method compiled = route_method (hc_route handler).


End Vocabulary.
Import Vocabulary.

(* ===================================================================== *)
(** * Part II: properties                                                 *)
(* ===================================================================== *)

(** ** The definitions at work *)

Example resolveFieldType_list_of_object :
  resolveFieldType (GraphQLNonNull (GraphQLList (GraphQLNonNull Fixtures.Post)))
    Fixtures.demoOpts
  = plain (ShArray (plain (ShRef "#/components/schemas/Post"))).
Proof. reflexivity. Qed.

Example pickParam_single_occurrence :
  pickParam "tag" {| pathname := "/users"; searchParams := [("tag", "a")] |} ∅ (JObj [])
  = Ok (Some (ParamValue (JStr "a"))).
Proof. reflexivity. Qed.

Example pickParam_repeated_occurrences :
  pickParam "tag"
    {| pathname := "/users"; searchParams := [("tag", "a"); ("q", "x"); ("tag", "b")] |}
    ∅ (JObj [("tag", JStr "c")])
  = Ok (Some (ParamValue (JArr [JStr "a"; JStr "b"]))).
Proof. reflexivity. Qed.

Example pickParam_body :
  pickParam "tag" {| pathname := "/users"; searchParams := [("q", "x")] |} ∅
    (JObj [("tag", JStr "c")])
  = Ok (Some (ParamValue (JStr "c"))).
Proof. reflexivity. Qed.

(** A name that [Object.prototype] has, and a body that has a key
    [hasOwnProperty]. *)
Example pickParam_prototype_chain :
  pickParam "toString" {| pathname := "/users"; searchParams := [("toString", "a")] |} ∅
    (JObj [])
  = Ok (Some (ParamInherited "toString"))
  ∧ pickParam "tag" {| pathname := "/users"; searchParams := [] |} ∅
      (JObj [("hasOwnProperty", JNum 1); ("tag", JStr "c")])
    = Throw notAFunction.
Proof. split; reflexivity. Qed.

(** The entries of the object [{ "b": 1, "10": 2, "2": 3, "b": 4, "02": 5 }]. *)
Example members_enumeration :
  members [("b", JNum 1); ("10", JNum 2); ("2", JNum 3); ("b", JNum 4); ("02", JNum 5)]
  = [("2", JNum 3); ("10", JNum 2); ("b", JNum 4); ("02", JNum 5)]
  ∧ arrayIndex "4294967294" = Some 4294967294%N
  ∧ arrayIndex "4294967295" = None.
Proof. split_and!; vm_compute; reflexivity. Qed.

(** Two field errors hinting 400 and 404, each with a header. *)
Example defaultErrorHandler_two_hints :
  let response :=
    defaultErrorHandler [Fixtures.hinted "bad input" 400 {[ "X-A" := "1" ]};
                         Fixtures.hinted "no such user" 404 {[ "X-B" := "2" ]}] in
  res_status response = 404
  ∧ res_headers response !! "X-A" = Some "1"
  ∧ res_headers response !! "X-B" = Some "2"
  ∧ res_headers response !! "Content-Type" = Some "application/json; charset=utf-8"
  ∧ res_body response
    = BodyErrors [ErrorObject "bad input" (Some {| ext_http := None; ext_other := [] |});
                  ErrorObject "no such user" (Some {| ext_http := None; ext_other := [] |})].
Proof. by vm_compute. Qed.

(** A present but empty body, and a body that is not JSON. *)
Example parseBody_empty_and_malformed :
  parseBody Fixtures.demoX
    {| req_method := POST; req_url := {| pathname := "/createUser"; searchParams := [] |};
       req_params := None; req_body := Some "" |}
  = Ok (JObj [])
  ∧ parseBody Fixtures.demoX
      {| req_method := POST; req_url := {| pathname := "/createUser"; searchParams := [] |};
         req_params := None; req_body := Some "{name:" |}
    = Throw (createGraphQLError "POST body sent invalid JSON." 400).
Proof. by vm_compute. Qed.

(** ** Insertion-ordered objects *)

Section Objects.
Context {A : Type}.
Implicit Types (o : list (string * A)) (k : string) (v : A).

Lemma obj_set_fresh k v o :
  k ∉ obj_keys o → obj_set k v o = (o ++ [(k, v)])%list.
Proof.
  unfold obj_keys. induction o as [|[k' v'] o IH]; simpl; intros Hk; [done|].
  rewrite not_elem_of_cons in Hk. destruct Hk as [Hne Hk].
  case_decide; [done|]. by rewrite IH.
Qed.

Lemma obj_keys_app o1 o2 : obj_keys (o1 ++ o2)%list = (obj_keys o1 ++ obj_keys o2)%list.
Proof. unfold obj_keys. apply fmap_app. Qed.

Lemma obj_get_set_eq k v o : obj_get k (obj_set k v o) = Some v.
Proof.
  induction o as [|[k' v'] o IH]; simpl.
  - by rewrite decide_True.
  - case_decide; simpl; [by rewrite decide_True|]. by rewrite decide_False.
Qed.

Lemma obj_get_set_ne k k' v o : k ≠ k' → obj_get k (obj_set k' v o) = obj_get k o.
Proof.
  intros Hne. induction o as [|[k'' v''] o IH]; simpl.
  - by rewrite decide_False.
  - destruct (decide (k' = k'')) as [->|]; simpl.
    + by rewrite !decide_False.
    + case_decide; [done|]. apply IH.
Qed.


End Objects.

(** ** The type mapper *)

Section TypeMapper.
Context (opts : Opts).

Lemma nonNullNames_app fs gs :
  nonNullNames (fs ++ gs) = (nonNullNames fs ++ nonNullNames gs)%list.
Proof. unfold nonNullNames. by rewrite filter_app, fmap_app. Qed.

(** The loop appends to [required] and [properties] in declaration order. *)
Lemma buildSchemaObject_foldl fields : ∀ required properties,
  NoDup (obj_keys properties ++ (field_name <$> fields)) →
  foldl (buildSchemaObject_step opts) (required, properties) fields
  = ((required ++ nonNullNames fields)%list,
     (properties ++ ((λ f, (field_name f, fieldProperty opts f)) <$> fields))%list).
Proof.
  induction fields as [|f fields IH]; intros required properties Hnd; simpl.
  - by rewrite !app_nil_r.
  - assert (field_name f ∉ obj_keys properties) as Hfresh.
    { apply NoDup_app in Hnd as (_ & Hdisj & _). intros Hin.
      apply (Hdisj _ Hin). simpl. apply elem_of_cons. by left. }
    rewrite (obj_set_fresh _ _ _ Hfresh).
    rewrite IH.
    + f_equal.
      * unfold nonNullNames. simpl.
        destruct (isNonNullType (field_type f)) eqn:Hnn.
        -- rewrite filter_cons_True by done. simpl. by rewrite <- app_assoc.
        -- rewrite filter_cons_False by (rewrite Hnn; done). done.
      * by rewrite <- app_assoc.
    + rewrite obj_keys_app. simpl. rewrite <- app_assoc. exact Hnd.
Qed.

Lemma buildSchemaObject_loop_spec fields :
  NoDup (field_name <$> fields) →
  buildSchemaObject_loop opts fields
  = (nonNullNames fields, (λ f, (field_name f, fieldProperty opts f)) <$> fields).
Proof.
  intros Hnd. unfold buildSchemaObject_loop.
  by rewrite buildSchemaObject_foldl.
Qed.

Lemma required_of_build type :
  NoDup (field_name <$> def_fields type) →
  required_of (buildSchemaObjectFromType type opts) = nonNullNames (def_fields type).
Proof.
  intros Hnd. unfold buildSchemaObjectFromType.
  rewrite (buildSchemaObject_loop_spec _ Hnd). unfold required_of. simpl.
  case_bool_decide as Hreq; [by rewrite Hreq|done].
Qed.

Lemma properties_of_build type :
  NoDup (field_name <$> def_fields type) →
  properties_of (buildSchemaObjectFromType type opts)
  = (λ f, (field_name f, fieldProperty opts f)) <$> def_fields type.
Proof.
  intros Hnd. unfold buildSchemaObjectFromType.
  by rewrite (buildSchemaObject_loop_spec _ Hnd).
Qed.

Lemma properties_of_build_get type (f : GraphQLField) :
  NoDup (field_name <$> def_fields type) → f ∈ def_fields type →
  obj_get (field_name f) (properties_of (buildSchemaObjectFromType type opts))
  = Some (fieldProperty opts f).
Proof.
  intros Hnd Hf. rewrite properties_of_build by done.
  revert Hnd. induction (def_fields type) as [|g fields IH]; intros Hnd.
  - by apply elem_of_nil in Hf.
  - simpl in *. apply NoDup_cons in Hnd as [Hg Hnd].
    apply elem_of_cons in Hf as [->|Hf]; [by rewrite decide_True|].
    rewrite decide_False; [by apply IH|].
    intros Heq. apply Hg. rewrite <- Heq. by apply list_elem_of_fmap_2.
Qed.

(** C7.  For a named object or input-object type [type] (whose fields, as
    the entries of one object, have distinct names), the component built by
    [buildSchemaObjectFromType] has exactly the declared fields as its
    properties, in declaration order, each holding the fragment resolved for
    that field; its required list is the list of the names of the fields
    whose declared type is non-null, in declaration order; hence a declared
    field's name is in the required list if and only if its type is
    non-null. *)
Theorem component_lists_declared_fields (type : TypeDefinition) :
  NoDup (field_name <$> def_fields type) →
  let component := buildSchemaObjectFromType type opts in
  obj_keys (properties_of component) = field_name <$> def_fields type
  ∧ (∀ f, f ∈ def_fields type →
          obj_get (field_name f) (properties_of component) = Some (fieldProperty opts f))
  ∧ required_of component
    = field_name <$> filter (λ f, isNonNullType (field_type f) = true) (def_fields type)
  ∧ (∀ f, f ∈ def_fields type →
          field_name f ∈ required_of component ↔ isNonNullType (field_type f) = true).
Proof.
  intros Hnd component. subst component.
  rewrite properties_of_build, required_of_build by done.
  split_and!.
  - unfold obj_keys. rewrite <- list_fmap_compose. done.
  - intros f Hf. rewrite <- properties_of_build by done.
    by apply properties_of_build_get.
  - done.
  - intros f Hf. unfold nonNullNames. split.
    + intros Hin. apply list_elem_of_fmap in Hin as (g & Heq & Hg).
      apply list_elem_of_filter in Hg as [Hnn Hg].
      assert (g = f) as ->; [|done].
      apply list_elem_of_lookup in Hg as [i Hi].
      apply list_elem_of_lookup in Hf as [j Hj].
      assert (i = j) as ->.
      { eapply NoDup_lookup; [exact Hnd| |].
        - rewrite list_lookup_fmap, Hi. done.
        - rewrite list_lookup_fmap, Hj. simpl. by rewrite Heq. }
      congruence.
    + intros Hnn. apply list_elem_of_fmap. exists f. split; [done|].
      by apply list_elem_of_filter.
Qed.

End TypeMapper.

(** ** Components and references between them *)

Section Components.
Context {Env ContextValue : Type}.
Implicit Types (sofa : Sofa Env ContextValue) (opts : Opts).

Lemma shape_addExampleFromDirective component node opts :
  shape (addExampleFromDirective component node opts) = shape component.
Proof.
  unfold addExampleFromDirective.
  repeat (case_match; simpl; try done).
Qed.

Lemma shape_fieldProperty opts field :
  shape (fieldProperty opts field) = shape (resolveField field opts).
Proof.
  unfold fieldProperty. rewrite shape_addExampleFromDirective.
  by case_match.
Qed.

(** A field whose type is a named object type, possibly non-null, resolves
    to a reference to that type's component; the referenced type's fields
    are never visited. *)
Lemma resolveFieldType_object (t : GraphQLType) (n : string) opts :
  singleNamedType t = Some (GraphQLObjectType n) →
  resolveFieldType t opts = plain (ShRef (mapToRef n)).
Proof.
  induction t as [t IH|t _|t]; simpl; intros Ht; [by apply IH|done|].
  injection Ht as ->. simpl. by case_bool_decide.
Qed.

Lemma foldl_obj_set_other (builds : list (string * Schema)) : ∀ init k,
  k ∉ builds.*1 →
  obj_get k (foldl (λ schemas '(typeName, component),
                      obj_set typeName component schemas) init builds)
  = obj_get k init.
Proof.
  induction builds as [|[k0 v0] builds IH]; intros init k Hk; simpl; [done|].
  simpl in Hk. apply not_elem_of_cons in Hk as [Hne Hk].
  rewrite IH by done. by apply obj_get_set_ne.
Qed.

Lemma foldl_obj_set_get (builds : list (string * Schema)) : ∀ init k v,
  NoDup builds.*1 → (k, v) ∈ builds →
  obj_get k (foldl (λ schemas '(typeName, component),
                      obj_set typeName component schemas) init builds)
  = Some v.
Proof.
  induction builds as [|[k0 v0] builds IH]; intros init k v Hnd Hin; simpl.
  - by apply elem_of_nil in Hin.
  - simpl in Hnd. apply NoDup_cons in Hnd as [Hk0 Hnd].
    apply elem_of_cons in Hin as [[= -> ->]|Hin].
    + rewrite foldl_obj_set_other by done. apply obj_get_set_eq.
    + by apply IH.
Qed.

Lemma omap_keys_NoDup {A} (f : A → option (string * Schema)) (g : A → string)
    (l : list A) :
  (∀ x y, f x = Some y → y.1 = g x) →
  NoDup (g <$> l) → NoDup (omap f l).*1.
Proof.
  intros Hf. induction l as [|x l IH]; simpl; intros Hnd; [constructor|].
  apply NoDup_cons in Hnd as [Hx Hnd].
  destruct (f x) as [y|] eqn:Hfx; simpl; [|by apply IH].
  apply NoDup_cons. split; [|by apply IH].
  intros Hin. apply Hx.
  apply list_elem_of_fmap in Hin as (z & Hz & Hin).
  apply list_elem_of_omap in Hin as (x' & Hx' & Hfx').
  apply list_elem_of_fmap. exists x'. split; [|done].
  rewrite <- (Hf _ _ Hfx), <- (Hf _ _ Hfx'). done.
Qed.

Lemma componentFor_key sofa (type : TypeDefinition) (y : string * Schema) :
  componentFor sofa type = Some y → y.1 = type_name (def_type type).
Proof.
  unfold componentFor. repeat case_match; intros [= <-]; done.
Qed.

(** Within one pass over the type map, no type name is assigned twice. *)
Lemma component_builds_NoDup sofa :
  NoDup (type_name ∘ def_type <$> getTypeMap (schema (sofa_opts sofa))) →
  NoDup (component_builds sofa).*1.
Proof.
  intros Hnd. unfold component_builds.
  eapply omap_keys_NoDup; [|exact Hnd].
  intros x y Hy. by apply componentFor_key in Hy.
Qed.

Lemma component_builds_object sofa (type : TypeDefinition) :
  type ∈ getTypeMap (schema (sofa_opts sofa)) →
  (isObjectType (Named (def_type type)) || isInputObjectType (Named (def_type type)))
  && negb (isIntrospectionType (def_type type)) = true →
  (type_name (def_type type), buildSchemaObjectFromType type (sofa_opts sofa))
  ∈ component_builds sofa.
Proof.
  intros Hin Hobj. unfold component_builds.
  apply list_elem_of_omap. exists type. split; [done|].
  unfold componentFor. by rewrite Hobj.
Qed.

Lemma createRouter_schemas_object sofa (type : TypeDefinition) :
  NoDup (type_name ∘ def_type <$> getTypeMap (schema (sofa_opts sofa))) →
  type ∈ getTypeMap (schema (sofa_opts sofa)) →
  (isObjectType (Named (def_type type)) || isInputObjectType (Named (def_type type)))
  && negb (isIntrospectionType (def_type type)) = true →
  obj_get (type_name (def_type type)) (createRouter_schemas sofa)
  = Some (buildSchemaObjectFromType type (sofa_opts sofa)).
Proof.
  intros Hnd Hin Hobj. unfold createRouter_schemas.
  apply foldl_obj_set_get.
  - by apply component_builds_NoDup.
  - by apply component_builds_object.
Qed.

End Components.

Section References.
Context {Env ContextValue : Type}.
Implicit Types (sofa : Sofa Env ContextValue).

(** Object types refer to each other by name.  In the components built by
    one pass over a type map with distinct type names, a field of a component
    type [A] whose type is the object type [n] (possibly non-null) is a
    reference to the component named [n], and that component is the one built
    from [n]'s own definition [B]; this holds whether or not [B] refers back
    to [A], since resolving the field never visits [B]'s fields. *)
Theorem object_field_is_component_reference sofa (A B : TypeDefinition)
    (f : GraphQLField) (n : string) :
  let types := getTypeMap (schema (sofa_opts sofa)) in
  NoDup (type_name ∘ def_type <$> types) →
  A ∈ types → isComponentType A = true →
  B ∈ types → def_type B = GraphQLObjectType n → isIntrospectionType (def_type B) = false →
  NoDup (field_name <$> def_fields A) → f ∈ def_fields A →
  singleNamedType (field_type f) = Some (GraphQLObjectType n) →
  ∃ a p,
    obj_get (type_name (def_type A)) (createRouter_schemas sofa) = Some a
    ∧ obj_get (field_name f) (properties_of a) = Some p
    ∧ is_ref_to n p
    ∧ obj_get n (createRouter_schemas sofa)
      = Some (buildSchemaObjectFromType B (sofa_opts sofa)).
Proof.
  intros types Hnd HA HcA HB HtB HiB HndA Hf Hty.
  exists (buildSchemaObjectFromType A (sofa_opts sofa)),
         (fieldProperty (sofa_opts sofa) f).
  split_and!.
  - by apply createRouter_schemas_object.
  - by apply properties_of_build_get.
  - unfold is_ref_to. rewrite shape_fieldProperty. unfold resolveField.
    by rewrite (resolveFieldType_object _ n).
  - replace n with (type_name (def_type B)) by (by rewrite HtB).
    apply createRouter_schemas_object; [done..|].
    unfold isComponentType in *. rewrite HtB in *. simpl. by rewrite HiB.
Qed.

End References.

(** The mutually referring object types [User] and [Post] of the demo
    schema: [User.lastPost] refers to the component built from [Post]. *)
Lemma object_field_is_component_reference_demo :
  ∃ a p,
    obj_get "User" (createRouter_schemas Fixtures.demoSofa) = Some a
    ∧ obj_get "lastPost" (properties_of a) = Some p
    ∧ is_ref_to "Post" p
    ∧ obj_get "Post" (createRouter_schemas Fixtures.demoSofa)
      = Some (buildSchemaObjectFromType Fixtures.postType Fixtures.demoOpts).
Proof.
  apply (object_field_is_component_reference Fixtures.demoSofa
           Fixtures.userType Fixtures.postType
           (Fixtures.mkField "lastPost" Fixtures.Post []) "Post").
  - vm_compute. repeat (constructor; [set_solver|]). constructor.
  - vm_compute. set_solver.
  - reflexivity.
  - vm_compute. set_solver.
  - reflexivity.
  - reflexivity.
  - vm_compute. repeat (constructor; [set_solver|]). constructor.
  - vm_compute. set_solver.
  - reflexivity.
Defined.

(** C1, at the cyclic pair of input-object types [A] and [B] of the demo
    schema ([input A { b: B }], [input B { a: A }]).  Both components are
    built, and building terminates, but the field [b] of [A] is the opaque
    fragment [{ type: 'object' }] and not a reference to the component [B]
    (and likewise [a] of [B]): [resolveFieldType] emits a reference for
    object types only.  The same name resolved as a parameter type by
    [resolveParamSchema] is a reference. *)
Theorem input_object_cycle_is_not_referenced :
  obj_get "A" (createRouter_schemas Fixtures.demoSofa)
  = Some (plain (ShObject None [("b", plain ShOpaque)]))
  ∧ obj_get "B" (createRouter_schemas Fixtures.demoSofa)
    = Some (plain (ShObject None [("a", plain ShOpaque)]))
  ∧ resolveFieldType (Named (GraphQLInputObjectType "B")) Fixtures.demoOpts
    = plain ShOpaque
  ∧ resolveParamSchema (NamedTypeNode "B") Fixtures.demoOpts
    = plain (ShRef "#/components/schemas/B").
Proof. by vm_compute. Qed.

(** ** The default error-handling policy *)

Section ErrorPolicy.

Lemma hintedStatus_nonzero error s : hintedStatus error = Some s → s ≠ 0.
Proof.
  unfold hintedStatus. destruct (http_of error) as [http|]; simpl; [|done].
  destruct (http_status http) as [status|]; simpl; [|done].
  destruct (status =? 0) eqn:Hz; simpl; [done|].
  intros [= <-]. by apply Z.eqb_neq.
Qed.

Lemma defaultErrorHandler_step_status status headers error :
  (defaultErrorHandler_step (status, headers) error).1
  = match hintedStatus error with
    | Some hinted => if exceeds hinted status then Some hinted else status
    | None => status
    end.
Proof.
  unfold defaultErrorHandler_step, hintedStatus.
  destruct (http_of error) as [http|]; simpl; [|done].
  destruct (http_status http) as [hinted|]; simpl; [|done].
  by destruct (hinted =? 0).
Qed.

Lemma defaultErrorHandler_step_headers status headers error :
  (defaultErrorHandler_step (status, headers) error).2
  = match hintedHeaders error with
    | Some hinted => hinted ∪ headers
    | None => headers
    end.
Proof.
  unfold defaultErrorHandler_step, hintedHeaders.
  destruct (http_of error) as [http|]; simpl; [|done].
  by destruct (http_headers http).
Qed.

Lemma status_so_far_step status hints error :
  Forall (λ h, h ≠ 0) hints →
  status_so_far status hints →
  status_so_far
    (match hintedStatus error with
     | Some hinted => if exceeds hinted status then Some hinted else status
     | None => status
     end)
    (hints ++ option_list (hintedStatus error)).
Proof.
  intros Hnz Hinv. destruct (hintedStatus error) as [hinted|] eqn:Hh; simpl.
  2: { by rewrite app_nil_r. }
  destruct hints as [|h0 hints]; simpl in *.
  - subst status. simpl. exists hinted. split_and!; [done|set_solver|].
    constructor; [lia|constructor].
  - destruct Hinv as (s & -> & Hin & Hle).
    assert (s ≠ 0) as Hs.
    { rewrite Forall_forall in Hnz. by apply Hnz. }
    unfold exceeds. simpl. apply Z.eqb_neq in Hs. rewrite Hs. simpl.
    destruct (hinted >? s) eqn:Hgt.
    + apply Z.gtb_lt in Hgt. exists hinted. split_and!; [done|set_solver|].
      rewrite Forall_forall in Hle |- *. intros h Hhin.
      change (h0 :: hints ++ [hinted])%list with ((h0 :: hints) ++ [hinted])%list in Hhin.
      apply elem_of_app in Hhin as [Hhin|Hhin].
      * specialize (Hle _ Hhin). simpl in Hle. lia.
      * apply list_elem_of_singleton in Hhin as ->. lia.
    + assert (hinted ≤ s) by (rewrite Z.gtb_ltb in Hgt; apply Z.ltb_ge in Hgt; lia).
      exists s. split_and!; [done|set_solver|].
      change (h0 :: hints ++ [hinted])%list with ((h0 :: hints) ++ [hinted])%list.
      apply Forall_app. split; [done|]. by constructor.
Qed.

Lemma hintedStatuses_nonzero errors : Forall (λ h, h ≠ 0) (hintedStatuses errors).
Proof.
  apply Forall_forall. intros h Hh.
  apply list_elem_of_omap in Hh as (e & _ & He). by eapply hintedStatus_nonzero.
Qed.

Lemma defaultErrorHandler_loop_status errors headers :
  status_so_far (foldl defaultErrorHandler_step (None, headers) errors).1
                (hintedStatuses errors).
Proof.
  induction errors as [|error errors IH] using rev_ind; simpl; [done|].
  rewrite foldl_app. simpl.
  destruct (foldl defaultErrorHandler_step (None, headers) errors)
    as [status headers'] eqn:Hloop.
  rewrite defaultErrorHandler_step_status.
  unfold hintedStatuses. rewrite omap_app. simpl.
  replace (match hintedStatus error with Some y => [y] | None => [] end)
    with (option_list (hintedStatus error)) by (by destruct (hintedStatus error)).
  apply status_so_far_step; [apply hintedStatuses_nonzero|done].
Qed.

(** Every key of the initial headers and of a hinted set stays present. *)
Lemma defaultErrorHandler_loop_keys errors : ∀ acc k,
  is_Some (acc.2 !! k)
  ∨ (∃ error hinted, error ∈ errors ∧ hintedHeaders error = Some hinted
                     ∧ is_Some (hinted !! k)) →
  is_Some ((foldl defaultErrorHandler_step acc errors).2 !! k).
Proof.
  induction errors as [|error errors IH]; intros [status headers] k Hk; cbn [foldl].
  - destruct Hk as [Hk|(e & _ & He & _)]; [done|]. by apply elem_of_nil in He.
  - apply IH. rewrite defaultErrorHandler_step_headers.
    destruct Hk as [Hk|(e & hinted & He & Hh & Hk)].
    + left. simpl in Hk. destruct (hintedHeaders error); [|done].
      apply lookup_union_is_Some. by right.
    + apply elem_of_cons in He as [->|He].
      * left. rewrite Hh. apply lookup_union_is_Some. by left.
      * right. by exists e, hinted.
Qed.

(** Every final header comes from the initial headers or from a hint. *)
Lemma defaultErrorHandler_loop_origin errors : ∀ acc k v,
  (foldl defaultErrorHandler_step acc errors).2 !! k = Some v →
  acc.2 !! k = Some v
  ∨ ∃ error hinted, error ∈ errors ∧ hintedHeaders error = Some hinted
                    ∧ hinted !! k = Some v.
Proof.
  induction errors as [|error errors IH]; intros [status headers] k v Hk;
    cbn [foldl] in *.
  - by left.
  - apply IH in Hk as [Hk|(e & hinted & He & Hh & Hk)].
    + rewrite defaultErrorHandler_step_headers in Hk.
      destruct (hintedHeaders error) as [hinted|] eqn:Hh; [|by left].
      apply lookup_union_Some_raw in Hk as [Hk|[_ Hk]]; [|by left].
      right. exists error, hinted. split_and!; [set_solver|done..].
    + right. exists e, hinted. split_and!; [set_solver|done..].
Qed.

(** A header survives the errors that do not hint its key. *)
Lemma defaultErrorHandler_loop_keep errors : ∀ acc k v,
  acc.2 !! k = Some v →
  (∀ error hinted, error ∈ errors → hintedHeaders error = Some hinted →
                   hinted !! k = None) →
  (foldl defaultErrorHandler_step acc errors).2 !! k = Some v.
Proof.
  induction errors as [|error errors IH]; intros [status headers] k v Hk Hlater;
    cbn [foldl] in *; [done|].
  apply IH.
  - rewrite defaultErrorHandler_step_headers.
    destruct (hintedHeaders error) as [hinted|] eqn:Hh; [|done].
    apply lookup_union_Some_raw. right. split; [|done].
    eapply Hlater; [|done]. set_solver.
  - intros e hinted He. apply Hlater. set_solver.
Qed.

(** The default policy answers in JSON. *)
Lemma defaultErrorHandler_json (errors : list Error) :
  jsonResponse (defaultErrorHandler errors).
Proof.
  intros text. unfold defaultErrorHandler. by destruct (foldl _ _ _).
Qed.

Lemma http_of_delete_http error : http_of (delete_http error) = None.
Proof. by destruct error as [message [extensions|]|]. Qed.

Lemma delete_http_stripped error : stripped error (delete_http error).
Proof.
  destruct error as [message [extensions|]|]; cbn [stripped delete_http]; [|done..].
  by eexists.
Qed.

Lemma stripped_unique error reported reported' :
  stripped error reported → stripped error reported' → reported = reported'.
Proof.
  destruct error as [message [extensions|]|]; cbn [stripped]; [|congruence..].
  intros ([http other] & -> & Hhttp & Hother) ([http' other'] & -> & Hhttp' & Hother').
  cbn in *. congruence.
Qed.

(** C3.  For every list of errors (empty or not), the response of the
    default policy has: as status, 500 when no error hints a status and
    otherwise the greatest hinted status; among its headers, every key of the
    initial content-type header and of every hinted header set, each header
    value being the initial one or a hinted one, and the value under a key
    being that of the last error that hints the key; as body, the envelope
    [{ errors }] over the same errors with the [http] extension removed from
    each (and nothing else changed on an error that had none): the reported
    errors are as many as the errors, in the same order, each error that is
    no object or has no extensions reported as it is, and each other one
    reported with its message and with its extensions other than [http], and
    no list of errors but this one is so. *)
Theorem defaultErrorHandler_aggregates (errors : list Error) :
  let response := defaultErrorHandler errors in
  (hintedStatuses errors = [] → res_status response = 500)
  ∧ (hintedStatuses errors ≠ [] →
       res_status response ∈ hintedStatuses errors
       ∧ Forall (λ hinted, hinted ≤ res_status response) (hintedStatuses errors))
  ∧ (∀ k, is_Some (initialHeaders !! k) → is_Some (res_headers response !! k))
  ∧ (∀ error hinted k, error ∈ errors → hintedHeaders error = Some hinted →
       is_Some (hinted !! k) → is_Some (res_headers response !! k))
  ∧ (∀ k v, res_headers response !! k = Some v →
       initialHeaders !! k = Some v
       ∨ ∃ error hinted, error ∈ errors ∧ hintedHeaders error = Some hinted
                         ∧ hinted !! k = Some v)
  ∧ (∀ before error after hinted k v,
       errors = (before ++ error :: after)%list →
       hintedHeaders error = Some hinted → hinted !! k = Some v →
       (∀ later hinted', later ∈ after → hintedHeaders later = Some hinted' →
                         hinted' !! k = None) →
       res_headers response !! k = Some v)
  ∧ res_body response = BodyErrors (delete_http <$> errors)
  ∧ Forall (λ error, http_of error = None) (delete_http <$> errors)
  ∧ (∀ error, http_of error = None → delete_http error = error)
  ∧ (∃ reported,
       res_body response = BodyErrors reported ∧ Forall2 stripped errors reported)
  ∧ (∀ reported, Forall2 stripped errors reported →
       res_body response = BodyErrors reported).
Proof.
  intros response. subst response. unfold defaultErrorHandler.
  pose proof (defaultErrorHandler_loop_status errors initialHeaders) as Hstatus.
  pose proof (defaultErrorHandler_loop_keys errors (None, initialHeaders)) as Hkeys.
  pose proof (defaultErrorHandler_loop_origin errors (None, initialHeaders)) as Horigin.
  destruct (foldl defaultErrorHandler_step (None, initialHeaders) errors)
    as [status headers] eqn:Hloop.
  simpl in *. split_and!.
  - intros Hnone. rewrite Hnone in Hstatus. simpl in Hstatus. by subst status.
  - intros Hsome. destruct (hintedStatuses errors) as [|h hints] eqn:Hh; [done|].
    destruct Hstatus as (s & -> & Hin & Hle).
    assert (s ≠ 0) as Hs.
    { pose proof (hintedStatuses_nonzero errors) as Hnz. rewrite Hh in Hnz.
      rewrite Forall_forall in Hnz. by apply Hnz. }
    apply Z.eqb_neq in Hs. simpl. rewrite Hs. simpl. done.
  - intros k Hk. apply Hkeys. by left.
  - intros error hinted k He Hh Hk. apply Hkeys. right. by exists error, hinted.
  - intros k v. apply Horigin.
  - intros before error after hinted k v -> Hh Hk Hlater.
    rewrite foldl_app in Hloop. simpl in Hloop.
    pose proof (defaultErrorHandler_loop_keep after
      (defaultErrorHandler_step
         (foldl defaultErrorHandler_step (None, initialHeaders) before) error) k v)
      as Hkeep.
    rewrite Hloop in Hkeep. apply Hkeep; [|done].
    destruct (foldl defaultErrorHandler_step (None, initialHeaders) before).
    rewrite defaultErrorHandler_step_headers, Hh.
    apply lookup_union_Some_raw. by left.
  - done.
  - apply Forall_fmap, Forall_forall. intros error _. apply http_of_delete_http.
  - intros [message [[[http|] other]|]|]; simpl; done.
  - exists (delete_http <$> errors). split; [done|].
    apply Forall2_fmap_r, Forall_Forall2_diag, Forall_forall.
    intros error _. apply delete_http_stripped.
  - intros reported Hreported. f_equal. clear -Hreported.
    induction Hreported as [|error reported' errors reported Hone _ IH]; [done|].
    rewrite fmap_cons, IH. f_equal.
    exact (stripped_unique _ _ _ (delete_http_stripped error) Hone).
Qed.

End ErrorPolicy.

(** ** Route derivation *)

Section RouteDerivation.
Context {Env ContextValue : Type} (X : Externals).
Implicit Types (sofa : Sofa Env ContextValue).

Lemma isSingle_spec t : isSingle t = true ↔ denotesSingleObject t.
Proof.
  unfold isSingle, denotesSingleObject. split.
  - destruct t as [[t|t|[]]|t|[]]; simpl; try done; intros _; eauto.
  - intros [n [->| ->]]; done.
Qed.

Lemma hasIdArgument_spec field :
  hasIdArgument field = true ↔ ∃ arg, arg ∈ field_args field ∧ arg_name arg = "id".
Proof.
  unfold hasIdArgument. rewrite bool_decide_eq_true. apply Exists_exists.
Qed.

Lemma append_empty_r (s : string) : s +:+ "" = s.
Proof.
  induction s as [|c s IH]; [done|].
  change (String c s +:+ "") with (String c (s +:+ "")). by rewrite IH.
Qed.

Lemma getPath_plain fieldName :
  getPath X fieldName false = "/" +:+ convertName X fieldName.
Proof. unfold getPath. by rewrite append_empty_r. Qed.

Lemma getPath_id_differs fieldName : getPath X fieldName true ≠ getPath X fieldName false.
Proof.
  unfold getPath. intros Heq.
  apply String.app_inj, String.app_inj in Heq. done.
Qed.

(** C5.  With no override for the field: a root query field is routed with
    method GET and status 200, at [/<name>/:id] when its return type is one
    object type (possibly non-null, not a list) and it has an argument named
    [id], and at [/<name>] otherwise, the first path being taken exactly in
    that case; a root mutation field is routed with method POST and status
    200 at [/<name>], which never carries the [/:id] suffix.  [<name>] is
    the field name through [convertName]. *)
Theorem default_route_derivation sofa (fieldName : string) :
  (∀ queryType field,
      getQueryType (schema (sofa_opts sofa)) = Some queryType →
      getFields queryType fieldName = Some field →
      routeConfigOf sofa (type_name (def_type queryType) +:+ "." +:+ fieldName) = None →
      ∃ compiled info,
        createQueryRoute X sofa fieldName = Some (compiled, info)
        ∧ hc_route (cr_handler compiled)
          = {| route_method := GET;
               route_path := cr_path compiled;
               route_responseStatus := 200 |}
        ∧ cr_method compiled = GET
        ∧ ri_method info = GET ∧ ri_path info = cr_path compiled
        ∧ (denotesSingleObject (field_type field)
           ∧ (∃ arg, arg ∈ field_args field ∧ arg_name arg = "id") →
           cr_path compiled = "/" +:+ convertName X fieldName +:+ "/:id")
        ∧ (¬ (denotesSingleObject (field_type field)
              ∧ (∃ arg, arg ∈ field_args field ∧ arg_name arg = "id")) →
           cr_path compiled = "/" +:+ convertName X fieldName)
        ∧ (cr_path compiled = "/" +:+ convertName X fieldName +:+ "/:id"
           ↔ denotesSingleObject (field_type field)
             ∧ ∃ arg, arg ∈ field_args field ∧ arg_name arg = "id"))
  ∧ (∀ mutationType field,
      getMutationType (schema (sofa_opts sofa)) = Some mutationType →
      getFields mutationType fieldName = Some field →
      routeConfigOf sofa (type_name (def_type mutationType) +:+ "." +:+ fieldName) = None →
      ∃ compiled info,
        createMutationRoute X sofa fieldName = Some (compiled, info)
        ∧ hc_route (cr_handler compiled)
          = {| route_method := POST;
               route_path := "/" +:+ convertName X fieldName;
               route_responseStatus := 200 |}
        ∧ cr_method compiled = POST
        ∧ cr_path compiled = "/" +:+ convertName X fieldName
        ∧ cr_path compiled ≠ "/" +:+ convertName X fieldName +:+ "/:id"
        ∧ ri_method info = POST ∧ ri_path info = cr_path compiled).
Proof.
  split.
  - intros queryType field Hq Hf Hcfg.
    unfold createQueryRoute. rewrite Hq. simpl. rewrite Hf. simpl. rewrite Hcfg. simpl.
    eexists _, _. split; [reflexivity|]. simpl.
    assert (isSingle (field_type field) && hasIdArgument field = true
            ↔ denotesSingleObject (field_type field)
              ∧ ∃ arg, arg ∈ field_args field ∧ arg_name arg = "id") as Hid.
    { rewrite andb_true_iff, isSingle_spec, hasIdArgument_spec. done. }
    split_and!; try done.
    + intros Hyes. apply Hid in Hyes. by rewrite Hyes.
    + intros Hno. destruct (isSingle (field_type field) && hasIdArgument field) eqn:Hb.
      * exfalso. apply Hno. by apply Hid.
      * apply getPath_plain.
    + rewrite <- Hid.
      destruct (isSingle (field_type field) && hasIdArgument field) eqn:Hb; [done|].
      split; [|done]. intros Heq. exfalso.
      by apply (getPath_id_differs fieldName).
  - intros mutationType field Hm Hf Hcfg.
    unfold createMutationRoute. rewrite Hm. simpl. rewrite Hf. simpl. rewrite Hcfg. simpl.
    rewrite getPath_plain.
    eexists _, _. split; [reflexivity|]. simpl. split_and!; try done.
    intros Heq. apply (getPath_id_differs fieldName). by rewrite getPath_plain.
Qed.

End RouteDerivation.

(** The demo schema: [user(id: ID!): User] is served at GET [/user/:id],
    [createUser(name: String!): User] at POST [/createUser]. *)
Lemma default_route_derivation_demo :
  (∃ compiled info,
      createQueryRoute Fixtures.demoX Fixtures.demoSofa "user" = Some (compiled, info)
      ∧ cr_method compiled = GET ∧ cr_path compiled = "/user/:id"
      ∧ route_responseStatus (hc_route (cr_handler compiled)) = 200)
  ∧ (∃ compiled info,
      createMutationRoute Fixtures.demoX Fixtures.demoSofa "createUser" = Some (compiled, info)
      ∧ cr_method compiled = POST ∧ cr_path compiled = "/createUser"
      ∧ route_responseStatus (hc_route (cr_handler compiled)) = 200).
Proof.
  pose proof (default_route_derivation Fixtures.demoX Fixtures.demoSofa "user") as [Hq _].
  pose proof (default_route_derivation Fixtures.demoX Fixtures.demoSofa "createUser")
    as [_ Hm].
  split.
  - destruct (Hq Fixtures.queryType
                (Fixtures.mkField "user" Fixtures.User
                   [Fixtures.mkArg "id" (GraphQLNonNull Fixtures.ID)])
                eq_refl eq_refl eq_refl)
      as (compiled & info & Hc & Hr & Hmeth & _ & _ & Hpath & _).
    exists compiled, info. split_and!; [done|done| |by rewrite Hr].
    rewrite Hpath; [done|]. split.
    + exists "User". by left.
    + exists (Fixtures.mkArg "id" (GraphQLNonNull Fixtures.ID)).
      split; [apply list_elem_of_here|reflexivity].
  - destruct (Hm Fixtures.mutationType
                (Fixtures.mkField "createUser" Fixtures.User
                   [Fixtures.mkArg "name" (GraphQLNonNull Fixtures.String_)])
                eq_refl eq_refl eq_refl)
      as (compiled & info & Hc & Hr & Hmeth & Hpath & _).
    exists compiled, info. split_and!; [done|done|by rewrite Hpath|by rewrite Hr].
Defined.

(** ** Request-time variable resolution *)

Section VariableResolution.
Context {Env ContextValue : Type} (X : Externals).
Implicit Types (sofa : Sofa Env ContextValue).

Lemma pickParam_sources name url params body :
  pickParam name url params body
  = match pathSource params name ∪ querySource url name with
    | Some found => Ok (Some found)
    | None => bodySource body name
    end.
Proof.
  unfold pickParam, pathSource, querySource, bodySource.
  destruct (params !! name) as [value|];
    [|case_bool_decide];
    by destruct (getAll (searchParams url) name) as [|v [|v' values]].
Qed.

Lemma resolveVariables_step_Throw sofa request body error variables :
  foldl (resolveVariables_step X sofa request body) (Throw error) variables = Throw error.
Proof. induction variables as [|v variables IH]; simpl; [done|apply IH]. Qed.

(** One turn of the reduce looks the variable up, parses what it found and
    binds the parsed value, if any. *)
Lemma resolveVariables_step_Ok sofa request body acc variable :
  resolveVariables_step X sofa request body (Ok acc) variable
  = match variableValue X sofa request body variable with
    | Ok (Some value) => Ok (<[variable_name variable := value]> acc)
    | Ok None => Ok acc
    | Throw error => Throw error
    end.
Proof.
  unfold resolveVariables_step, variableValue. cbn [mbind Result_bind].
  destruct (pickParam _ _ _ _) as [picked|]; [|done]. cbn [mbind Result_bind].
  destruct (parseVariable X picked variable _) as [[value|]|]; done.
Qed.

(** The reduce returns only if every variable is looked up and parsed. *)
Lemma resolveVariables_foldl_each sofa request body variables :
  ∀ acc variableValues variable,
    foldl (resolveVariables_step X sofa request body) (Ok acc) variables
    = Ok variableValues →
    variable ∈ variables →
    ∃ parsed, variableValue X sofa request body variable = Ok parsed.
Proof.
  induction variables as [|v variables IH]; intros acc variableValues variable Hfold Hin.
  - by apply elem_of_nil in Hin.
  - cbn [foldl] in Hfold. rewrite resolveVariables_step_Ok in Hfold.
    destruct (variableValue X sofa request body v) as [parsed|error] eqn:Hv.
    2: { by rewrite resolveVariables_step_Throw in Hfold. }
    apply elem_of_cons in Hin as [->|Hin]; [by exists parsed|].
    destruct parsed; by eapply IH.
Qed.

(** A value enters the variable set only as the parsed value of a variable
    of that name. *)
Lemma resolveVariables_foldl_origin sofa request body variables :
  ∀ acc variableValues name value,
    foldl (resolveVariables_step X sofa request body) (Ok acc) variables
    = Ok variableValues →
    variableValues !! name = Some value →
    acc !! name = Some value
    ∨ ∃ variable, variable ∈ variables ∧ variable_name variable = name
        ∧ variableValue X sofa request body variable = Ok (Some value).
Proof.
  induction variables as [|v variables IH]; intros acc variableValues name value Hfold Hv.
  - simpl in Hfold. injection Hfold as <-. by left.
  - cbn [foldl] in Hfold. rewrite resolveVariables_step_Ok in Hfold.
    destruct (variableValue X sofa request body v) as [parsed|error] eqn:Hparse.
    2: { by rewrite resolveVariables_step_Throw in Hfold. }
    assert (∃ acc', foldl (resolveVariables_step X sofa request body) (Ok acc') variables
                    = Ok variableValues
                    ∧ acc' = match parsed with
                             | Some value => <[variable_name v := value]> acc
                             | None => acc
                             end) as (acc' & Hfold' & Hacc').
    { destruct parsed; by eexists. }
    destruct (IH _ _ _ _ Hfold' Hv) as [Hacc|(variable & Hin & Hname & Hp)].
    + subst acc'. destruct parsed as [parsed|]; [|by left].
      destruct (decide (variable_name v = name)) as [<-|Hne].
      * rewrite lookup_insert_eq in Hacc. injection Hacc as ->.
        right. exists v. split_and!; [apply list_elem_of_here|done..].
      * rewrite lookup_insert_ne in Hacc by done. by left.
    + right. exists variable. split_and!; [by apply list_elem_of_further|done..].
Qed.

(** When the variables have distinct names, the variable set holds under
    each variable's name exactly what was parsed for it. *)
Lemma resolveVariables_foldl_bound sofa request body variables :
  ∀ acc variableValues,
    NoDup (variableNames variables) →
    foldl (resolveVariables_step X sofa request body) (Ok acc) variables
    = Ok variableValues →
    (∀ variable, variable ∈ variables →
       ∃ parsed, variableValue X sofa request body variable = Ok parsed
                 ∧ variableValues !! variable_name variable
                   = match parsed with
                     | Some value => Some value
                     | None => acc !! variable_name variable
                     end)
    ∧ (∀ name, name ∉ variableNames variables → variableValues !! name = acc !! name).
Proof.
  unfold variableNames.
  induction variables as [|v variables IH]; intros acc variableValues Hnd Hfold.
  - simpl in Hfold. injection Hfold as <-. split; [|done].
    intros variable Hin. by apply elem_of_nil in Hin.
  - rewrite fmap_cons in Hnd. apply NoDup_cons in Hnd as [Hv Hnd].
    cbn [foldl] in Hfold. rewrite resolveVariables_step_Ok in Hfold.
    destruct (variableValue X sofa request body v) as [parsed|error] eqn:Hparse.
    2: { by rewrite resolveVariables_step_Throw in Hfold. }
    assert (∃ acc', foldl (resolveVariables_step X sofa request body) (Ok acc') variables
                    = Ok variableValues
                    ∧ acc' = match parsed with
                             | Some value => <[variable_name v := value]> acc
                             | None => acc
                             end) as (acc' & Hfold' & Hacc').
    { destruct parsed; by eexists. }
    destruct (IH _ _ Hnd Hfold') as [Heach Hother].
    assert (∀ name, name ≠ variable_name v → acc' !! name = acc !! name) as Hkeep.
    { intros name Hne. subst acc'. destruct parsed; [|done].
      by rewrite lookup_insert_ne. }
    split.
    + intros variable Hin. apply elem_of_cons in Hin as [->|Hin].
      * exists parsed. split; [done|]. rewrite (Hother _ Hv). subst acc'.
        destruct parsed; [by rewrite lookup_insert_eq|done].
      * destruct (Heach _ Hin) as (parsed' & Hp & Hbound).
        exists parsed'. split; [done|]. rewrite Hbound.
        destruct parsed'; [done|]. apply Hkeep.
        intros Heq. apply Hv. rewrite <- Heq. by apply list_elem_of_fmap_2.
    + intros name Hname. rewrite fmap_cons in Hname.
      apply not_elem_of_cons in Hname as [Hne Hname].
      rewrite (Hother _ Hname). by apply Hkeep.
Qed.

(** C4.  What the code does for a variable [name], provided [parseVariable]
    yields no value for an absent raw value.  The raw value is that of the
    first of the path parameters, the query string and the parsed body that
    has the name; in the query string a single occurrence gives that one
    string and several occurrences give the list of their values in order;
    in a body that is an object the value is that of the same-named key; a
    name found nowhere has no raw value and is absent from the variable
    values handed to execution, which hold under a name exactly what was
    parsed for the variable of that name.  But the membership tests go
    through the prototype chain: a name that [Object.prototype] has counts
    as a path parameter whatever the request holds, and looking any name up
    in a body that has a key [hasOwnProperty] throws, which fails the whole
    variable resolution with a 400 error. *)
Theorem variable_lookup_precedence sofa (info : OperationInfo)
    (request : RouterRequest) body name :
  (∀ variable value,
      parseVariable X None variable (schema (sofa_opts sofa)) ≠ Ok (Some value)) →
  let url := req_url request in
  let params := default ∅ (req_params request) in
  let occurrences := (filter (λ entry, entry.1 = name) (searchParams url)).*2 in
  pickParam name url params body
  = match pathSource params name ∪ querySource url name with
    | Some found => Ok (Some found)
    | None => bodySource body name
    end
  ∧ (∀ value, params !! name = Some value →
        pickParam name url params body = Ok (Some (ParamValue (JStr value))))
  ∧ (params !! name = None → name ∈ Object_prototype →
        pickParam name url params body = Ok (Some (ParamInherited name)))
  ∧ (∀ value, params !! name = None → name ∉ Object_prototype →
        occurrences = [value] →
        pickParam name url params body = Ok (Some (ParamValue (JStr value))))
  ∧ (params !! name = None → name ∉ Object_prototype →
        (2 ≤ length occurrences)%nat →
        pickParam name url params body
        = Ok (Some (ParamValue (JArr (JStr <$> occurrences)))))
  ∧ (∀ fields, params !! name = None → name ∉ Object_prototype →
        occurrences = [] → body = JObj fields →
        pickParam name url params body
        = if bool_decide (is_Some (obj_get "hasOwnProperty" fields))
          then Throw notAFunction
          else Ok (ParamValue <$> obj_get name fields))
  ∧ (params !! name = None → name ∉ Object_prototype →
        occurrences = [] → bodySource body name = Ok None →
        pickParam name url params body = Ok None
        ∧ ∀ variableValues,
            resolveVariables X sofa info request body = Ok variableValues →
            variableValues !! name = None)
  ∧ (∀ variableValues value,
        resolveVariables X sofa info request body = Ok variableValues →
        variableValues !! name = Some value →
        ∃ variable raw,
          variable ∈ info_variables info ∧ variable_name variable = name
          ∧ pickParam name url params body = Ok (Some raw)
          ∧ parseVariable X (Some raw) variable (schema (sofa_opts sofa))
            = Ok (Some value))
  ∧ (NoDup (variableNames (info_variables info)) →
     ∀ variableValues variable,
        resolveVariables X sofa info request body = Ok variableValues →
        variable ∈ info_variables info → variable_name variable = name →
        ∃ picked parsed,
          pickParam name url params body = Ok picked
          ∧ parseVariable X picked variable (schema (sofa_opts sofa)) = Ok parsed
          ∧ variableValues !! name = parsed)
  ∧ (∀ variable error,
        variable ∈ info_variables info → variable_name variable = name →
        pickParam name url params body = Throw error →
        ∃ error',
          resolveVariables X sofa info request body
          = Throw (createGraphQLError (errorText X error') 400)).
Proof.
  intros Habsent url params occurrences.
  assert (∀ variable, variable_name variable = name →
            variableValue X sofa request body variable
            = match pickParam name url params body with
              | Ok picked => parseVariable X picked variable (schema (sofa_opts sofa))
              | Throw error => Throw error
              end) as Hvalue.
  { intros variable <-. done. }
  assert (∀ variableValues value,
            resolveVariables X sofa info request body = Ok variableValues →
            variableValues !! name = Some value →
            ∃ variable,
              variable ∈ info_variables info ∧ variable_name variable = name
              ∧ variableValue X sofa request body variable = Ok (Some value)) as Horigin.
  { intros variableValues value Hres Hv. unfold resolveVariables in Hres.
    destruct (foldl _ _ _) as [vv|error] eqn:Hfold; [|done].
    injection Hres as ->.
    destruct (resolveVariables_foldl_origin _ _ _ _ _ _ _ _ Hfold Hv)
      as [Hempty|Hvar]; [by rewrite lookup_empty in Hempty|done]. }
  assert (params !! name = None → name ∉ Object_prototype →
          pickParam name url params body
          = match getAll (searchParams url) name with
            | [] => bodySource body name
            | [value] => Ok (Some (ParamValue (JStr value)))
            | values => Ok (Some (ParamValue (JArr (JStr <$> values))))
            end) as Hquery.
  { intros Hp Hproto. unfold pickParam, bodySource. rewrite Hp.
    rewrite bool_decide_eq_false_2 by done.
    by destruct (getAll (searchParams url) name) as [|v [|v' values]]. }
  split_and!.
  - apply pickParam_sources.
  - intros value Hp. unfold pickParam. by rewrite Hp.
  - intros Hp Hproto. unfold pickParam. rewrite Hp.
    by rewrite bool_decide_eq_true_2.
  - intros value Hp Hproto Hocc. rewrite Hquery by done.
    unfold getAll. fold occurrences. by rewrite Hocc.
  - intros Hp Hproto Hlen. rewrite Hquery by done.
    unfold getAll. fold occurrences.
    destruct occurrences as [|v [|v' values]]; simpl in Hlen; [lia|lia|done].
  - intros fields Hp Hproto Hocc ->. rewrite Hquery by done.
    unfold getAll. fold occurrences. rewrite Hocc.
    unfold bodySource, own_property. cbn [truthy]. by case_bool_decide.
  - intros Hp Hproto Hocc Hbody.
    assert (pickParam name url params body = Ok None) as Hnone.
    { rewrite Hquery by done. unfold getAll. fold occurrences. by rewrite Hocc. }
    split; [done|]. intros variableValues Hres.
    destruct (variableValues !! name) as [value|] eqn:Hv; [|done].
    destruct (Horigin _ _ Hres Hv) as (variable & _ & Hname & Hparse).
    rewrite (Hvalue _ Hname), Hnone in Hparse. by apply Habsent in Hparse.
  - intros variableValues value Hres Hv.
    destruct (Horigin _ _ Hres Hv) as (variable & Hin & Hname & Hparse).
    rewrite (Hvalue _ Hname) in Hparse.
    destruct (pickParam name url params body) as [[raw|]|] eqn:Hraw; [|..|done].
    + by exists variable, raw.
    + by apply Habsent in Hparse.
  - intros Hnd variableValues variable Hres Hin Hname.
    unfold resolveVariables in Hres.
    destruct (foldl _ _ _) as [vv|error] eqn:Hfold; [|done].
    injection Hres as ->.
    destruct (resolveVariables_foldl_bound _ _ _ _ _ _ Hnd Hfold) as [Heach _].
    destruct (Heach _ Hin) as (parsed & Hparsed & Hbound).
    rewrite Hname, lookup_empty in Hbound. rewrite (Hvalue _ Hname) in Hparsed.
    destruct (pickParam name url params body) as [picked|] eqn:Hpicked; [|done].
    exists picked, parsed. split_and!; [done..|]. rewrite Hbound. by destruct parsed.
  - intros variable error Hin Hname Hthrow. unfold resolveVariables.
    destruct (foldl _ _ _) as [vv|error'] eqn:Hfold; [|by exists error'].
    destruct (resolveVariables_foldl_each _ _ _ _ _ _ _ Hfold Hin) as [parsed Hparsed].
    rewrite (Hvalue _ Hname), Hthrow in Hparsed. done.
Qed.

End VariableResolution.

(** In the demo deployment: a request for [/user/7?id=8&id=9] takes [id]
    from the path; and on POST [/createUser] with the body
    [{ "hasOwnProperty": 1, "name": "Ann" }] the lookup of [name] throws and
    the variable resolution fails with a 400 error, although the body has
    the name. *)
Lemma variable_lookup_precedence_demo :
  pickParam "id"
    {| pathname := "/user/7"; searchParams := [("id", "8"); ("id", "9")] |}
    {[ "id" := "7" ]} (JObj [("id", JStr "10")])
  = Ok (Some (ParamValue (JStr "7")))
  ∧ pickParam "name" {| pathname := "/createUser"; searchParams := [] |} ∅
      (JObj [("hasOwnProperty", JNum 1); ("name", JStr "Ann")])
    = Throw notAFunction
  ∧ resolveVariables (Env := unit) (ContextValue := unit) Fixtures.demoX Fixtures.demoSofa
      (Fixtures.demoOperation OpMutation "createUser")
      {| req_method := POST;
         req_url := {| pathname := "/createUser"; searchParams := [] |};
         req_params := Some ∅; req_body := None |}
      (JObj [("hasOwnProperty", JNum 1); ("name", JStr "Ann")])
    = Throw (createGraphQLError "body.hasOwnProperty is not a function" 400).
Proof.
  pose proof (variable_lookup_precedence
                (Env := unit) (ContextValue := unit) Fixtures.demoX Fixtures.demoSofa
                (Fixtures.demoOperation OpQuery "user")
                {| req_method := GET;
                   req_url := {| pathname := "/user/7";
                                 searchParams := [("id", "8"); ("id", "9")] |};
                   req_params := Some {[ "id" := "7" ]};
                   req_body := None |}
                (JObj [("id", JStr "10")]) "id") as Hpath.
  pose proof (variable_lookup_precedence
                (Env := unit) (ContextValue := unit) Fixtures.demoX Fixtures.demoSofa
                (Fixtures.demoOperation OpMutation "createUser")
                {| req_method := POST;
                   req_url := {| pathname := "/createUser"; searchParams := [] |};
                   req_params := Some ∅; req_body := None |}
                (JObj [("hasOwnProperty", JNum 1); ("name", JStr "Ann")]) "name")
    as Hbody.
  simpl in Hpath, Hbody.
  destruct Hpath as (_ & Hpath & _); [intros variable value; discriminate|].
  destruct Hbody as (_ & _ & _ & _ & _ & Hbody & _ & _ & _ & Hfail);
    [intros variable value; discriminate|].
  split_and!.
  - apply Hpath. reflexivity.
  - rewrite (Hbody [("hasOwnProperty", JNum 1); ("name", JStr "Ann")]);
      [reflexivity|reflexivity|vm_compute; set_solver|reflexivity|reflexivity].
  - destruct (Hfail (Fixtures.var "name" (NonNullTypeNode (NamedTypeNode "String")))
                notAFunction) as [error' Herror].
    + apply list_elem_of_here.
    + reflexivity.
    + reflexivity.
    + rewrite Herror. vm_compute in Herror. by injection Herror as <-.
Defined.

(** ** One request through the handler *)

Section RequestHandler.
Context {Env ContextValue : Type} (X : Externals).
Implicit Types (config : HandlerConfig Env ContextValue)
  (serverContext : ServerContext Env) (request : RouterRequest).

(** C10.  A request whose body stream is present but whose body text is
    empty is handled with the empty body object [{}]: parsing the body does
    not fail, no name is found in the body (a variable is then looked up in
    the path and the query string only), and the handler goes on to resolve
    the variables against [{}].  Parsing the body fails exactly when the
    body text is present, non-empty and rejected by [JSON.parse], and then
    with the invalid-JSON error, which hints status 400. *)
Theorem empty_body_is_not_malformed config request serverContext :
  (req_body request = Some "" →
     parseBody X request = Ok (JObj [])
     ∧ handlerTry X config request serverContext
       = match resolveVariables X (hc_sofa config) (hc_info config) request (JObj []) with
         | Throw error => (Throw error, serverContext)
         | Ok variableValues =>
             (executeOperation config variableValues
                (assign_request serverContext request),
              assign_request serverContext request)
         end)
  ∧ (∀ name, bodySource (JObj []) name = Ok None)
  ∧ (∀ name url params,
       pickParam name url params (JObj [])
       = Ok (pathSource params name ∪ querySource url name))
  ∧ (∀ error,
       parseBody X request = Throw error
       ↔ error = invalidJson
         ∧ ∃ text, req_body request = Some text ∧ text ≠ ""
                   ∧ JSON_parse X text = None)
  ∧ hintedStatus invalidJson = Some 400.
Proof.
  split_and!.
  - intros Hbody. unfold handlerTry, parseBody. rewrite Hbody. simpl. done.
  - done.
  - intros name url params. rewrite pickParam_sources.
    replace (bodySource (JObj []) name) with (@Ok (option Param) None) by done.
    by destruct (pathSource params name), (querySource url name).
  - intros error. unfold parseBody. split.
    + destruct (req_body request) as [text|]; [|done].
      destruct (truthy_str (Some text)) eqn:Htext; [|done].
      destruct (JSON_parse X text) eqn:Hparse; [done|].
      intros [= <-]. split; [done|]. exists text. split_and!; [done| |done].
      intros ->. done.
    + intros (-> & text & -> & Hne & ->).
      assert (truthy_str (Some text) = true) as ->; [|done].
      simpl. apply negb_true_iff. by apply String.eqb_neq.
  - done.
Qed.


(** Whatever is thrown inside the handler becomes the response of the
    error-handling policy for that single error. *)
Lemma useHandler_catches config request serverContext error :
  (handlerTry X config request serverContext).1 = Throw error →
  (useHandler X config request serverContext).1
  = errorHandlerOf (hc_sofa config) [error].
Proof.
  unfold useHandler.
  destruct (handlerTry X config request serverContext) as [[response|e] ctx];
    simpl; [done|]. by intros [= ->].
Qed.

(** The handler reads the server context only through its environment, and
    leaves the environment as it found it. *)
Lemma useHandler_env config request serverContext :
  sc_env (useHandler X config request serverContext).2 = sc_env serverContext.
Proof.
  unfold useHandler, handlerTry.
  destruct (parseBody X request); [|done].
  destruct (resolveVariables _ _ _ _ _); [|done].
  by destruct (executeOperation _ _ _).
Qed.

Lemma useHandler_same_env config request serverContext serverContext' :
  sc_env serverContext = sc_env serverContext' →
  (useHandler X config request serverContext).1
  = (useHandler X config request serverContext').1.
Proof.
  intros Henv. unfold useHandler, handlerTry.
  destruct (parseBody X request); [|done].
  destruct (resolveVariables _ _ _ _ _); [|done].
  unfold assign_request. rewrite Henv.
  by destruct (executeOperation _ _ _).
Qed.

Lemma router_handle_env (router : list (CompiledRoute Env ContextValue))
    request serverContext :
  sc_env (router_handle X router request serverContext).2 = sc_env serverContext.
Proof.
  unfold router_handle.
  by destruct (head (omap (matchRoute X request) router)) as [[route params]|].
Qed.

Lemma router_handle_same_env (router : list (CompiledRoute Env ContextValue))
    request serverContext serverContext' :
  sc_env serverContext = sc_env serverContext' →
  (router_handle X router request serverContext).1
  = (router_handle X router request serverContext').1.
Proof.
  intros Henv. unfold router_handle.
  destruct (head (omap (matchRoute X request) router)) as [[route params]|]; [|done].
  cbn [fst]. by apply useHandler_same_env.
Qed.

End RequestHandler.


(** ** The batch route *)

Section Batch.
Context {Env ContextValue : Type} (X : Externals).
Context (router : list (CompiledRoute Env ContextValue)) (body : list BatchItem)
        (serverContext0 : ServerContext Env).

Local Abbreviation slot := (Vocabulary.slot X router serverContext0).
Local Abbreviation requestsOf := (Vocabulary.requestsOf X).
Local Abbreviation requestsAt := (Vocabulary.requestsAt X body).
Local Abbreviation settled_by := (Vocabulary.settled_by X router body serverContext0).

Lemma dispatchItem_env item serverContext :
  sc_env (dispatchItem X router item serverContext).1.2 = sc_env serverContext.
Proof.
  unfold dispatchItem. destruct (batchRequest X item) as [request|]; [|done].
  pose proof (router_handle_env X router request serverContext) as Henv.
  by destruct (router_handle X router request serverContext).
Qed.

Lemma dispatchItem_same_env item serverContext :
  sc_env serverContext = sc_env serverContext0 →
  (dispatchItem X router item serverContext).1.1 = slot item.
Proof.
  intros Henv. unfold Vocabulary.slot, dispatchItem.
  destruct (batchRequest X item) as [request|]; [|done].
  pose proof (router_handle_same_env X router request _ _ Henv) as Hres.
  destruct (router_handle X router request serverContext),
           (router_handle X router request serverContext0).
  simpl in *. by subst.
Qed.

Lemma dispatchItem_requests item serverContext :
  (dispatchItem X router item serverContext).2 = requestsOf item.
Proof.
  unfold dispatchItem, Vocabulary.requestsOf.
  destruct (batchRequest X item) as [request|]; [|done].
  by destruct (router_handle X router request serverContext).
Qed.

Lemma settle_settled_by done st i :
  settled_by done st → settled_by (done ++ [i]) (settle X router body st i).
Proof.
  destruct st as [[ctx settled] dispatched].
  intros (Henv & Hsettled & ran & Hnd & Hran & Hlog). simpl in *.
  unfold settle.
  destruct (body !! i) as [item|] eqn:Hitem.
  - destruct (settled !! i) as [r|] eqn:Hi.
    + (* already settled: the position was met before *)
      assert (i ∈ done) as Hdone.
      { specialize (Hsettled i). rewrite Hi in Hsettled. by case_bool_decide. }
      split_and!; simpl; [done| |].
      * intros j. rewrite Hsettled. apply option_eq. intros y.
        repeat case_bool_decide; set_solver.
      * exists ran. split_and!; [done| |done].
        intros j. rewrite Hran. set_solver.
    + assert (i ∉ done) as Hfresh.
      { specialize (Hsettled i). rewrite Hi, Hitem in Hsettled.
        by case_bool_decide. }
      pose proof (dispatchItem_env item ctx) as Henv'.
      pose proof (dispatchItem_same_env item ctx Henv) as Hres.
      pose proof (dispatchItem_requests item ctx) as Hreqs.
      destruct (dispatchItem X router item ctx) as [[outcome ctx'] requests].
      simpl in *. split_and!; simpl.
      * congruence.
      * intros j. destruct (decide (j = i)) as [->|Hne].
        -- rewrite lookup_insert_eq, bool_decide_eq_true_2 by set_solver.
           rewrite Hitem. simpl. by rewrite Hres.
        -- rewrite lookup_insert_ne by done. rewrite Hsettled.
           apply option_eq. intros y. repeat case_bool_decide; set_solver.
      * exists (ran ++ [i])%list. split_and!.
        -- apply NoDup_app. split_and!; [done| |apply NoDup_singleton].
           intros j Hj ->%list_elem_of_singleton. apply Hran in Hj. tauto.
        -- intros j. rewrite !elem_of_app, Hran, !list_elem_of_singleton.
           split; [|tauto]. intros [?| ->]; [tauto|].
           split; [by right|]. by eapply lookup_lt_Some.
        -- rewrite bind_app. simpl. rewrite app_nil_r.
           unfold Vocabulary.requestsAt at 2. rewrite Hitem. simpl. by rewrite Hlog, Hreqs.
  - split_and!; simpl; [done| |].
    + intros j. rewrite Hsettled.
      destruct (decide (j = i)) as [->|Hne].
      * rewrite Hitem. simpl. by repeat case_bool_decide.
      * apply option_eq. intros y. repeat case_bool_decide; set_solver.
    + exists ran. split_and!; [done| |done].
      intros j. rewrite Hran, elem_of_app, list_elem_of_singleton.
      split; [tauto|]. intros [[?| ->] Hlt]; [done|].
      apply lookup_ge_None in Hitem. lia.
Qed.

Lemma settle_foldl schedule : ∀ done st,
  settled_by done st →
  settled_by (done ++ schedule) (foldl (settle X router body) st schedule).
Proof.
  induction schedule as [|i schedule IH]; intros done st Hst; simpl.
  - by rewrite app_nil_r.
  - replace (done ++ i :: schedule)%list with ((done ++ [i]) ++ schedule)%list
      by (by rewrite <- app_assoc).
    apply IH. by apply settle_settled_by.
Qed.

Lemma settled_by_start : settled_by [] (serverContext0, ∅, []).
Proof.
  split_and!; simpl; [done|done|]. exists []. split_and!; [constructor| |done].
  intros i. set_solver.
Qed.

Lemma head_omap_None {A B} (f : A → option B) (l : list A) :
  (∀ x, x ∈ l → f x = None) → head (omap f l) = None.
Proof.
  induction l as [|x l IH]; intros Hf; simpl; [done|].
  rewrite (Hf x) by apply list_elem_of_here.
  apply IH. intros y Hy. apply Hf. by apply list_elem_of_further.
Qed.

Lemma head_omap_is_Some {A B} (f : A → option B) (l : list A) (x : A) :
  x ∈ l → is_Some (f x) → is_Some (head (omap f l)).
Proof.
  induction l as [|y l IH]; intros Hx Hfx; [by apply elem_of_nil in Hx|].
  simpl. destruct (f y) as [b|] eqn:Hfy; simpl; [by eexists|].
  apply elem_of_cons in Hx as [->|Hx]; [|by apply IH].
  rewrite Hfy in Hfx. by destruct Hfx.
Qed.

(** A response built by [Response.json] is read back as it was built. *)
Lemma responseBody_json (res : Response) :
  jsonResponse res → responseBody X res = Ok (res_status res, res_body res).
Proof.
  unfold jsonResponse, responseBody. intros Hjson.
  destruct (res_body res) as [| | | |text] eqn:Hbody; try done.
  by destruct (Hjson text).
Qed.

(** A route handler answers in JSON when the error-handling policy does. *)
Lemma useHandler_json (config : HandlerConfig Env ContextValue) request serverContext :
  (∀ errors, jsonResponse (errorHandlerOf (hc_sofa config) errors)) →
  jsonResponse (useHandler X config request serverContext).1.
Proof.
  intros Hpolicy. unfold useHandler, handlerTry.
  destruct (parseBody X request) as [parsed|]; [|apply Hpolicy].
  destruct (resolveVariables _ _ _ _ _) as [variableValues|]; [|apply Hpolicy].
  unfold executeOperation.
  destruct (contextFactory _ _) as [contextValue|]; [|apply Hpolicy].
  cbn [mbind Result_bind].
  destruct (execute _ _) as [result|]; [|apply Hpolicy]. cbn [mbind Result_bind].
  destruct (errors result); [apply Hpolicy|].
  destruct (data result ≫= obj_get (hc_fieldName config)); [|apply Hpolicy].
  intros text. done.
Qed.

Lemma matchRoute_elem request (route : CompiledRoute Env ContextValue) params :
  head (omap (matchRoute X request) router) = Some (route, params) → route ∈ router.
Proof.
  intros Hhead. apply head_Some_elem_of in Hhead.
  apply list_elem_of_omap in Hhead as (route' & Hin & Hmatch).
  unfold matchRoute in Hmatch. case_decide; [|done].
  destruct (matchPath X _ _); [|done]. simpl in Hmatch. by injection Hmatch as <- _.
Qed.

(** The batch, positively.  For a batch within the limit all of whose item
    paths the URL constructor accepts and all of whose requests match a
    route, over routes whose error-handling policy answers in JSON (as the
    default policy does), whatever the order in which the items' promises
    settle (any schedule that lets each of them run), the handler returns
    status 200 with one [{ status, body }] per item, at the item's own
    position, each being what dispatching that item alone gives.  An item
    whose route handler throws has, in its slot, the status and body of the
    error-handling policy for that error.  The shared server context keeps
    its environment, and every item is dispatched exactly once. *)
Theorem batch_results_in_input_order (sofa : Sofa Env ContextValue)
    (schedule : list nat) :
  (∀ i, (i < length body)%nat → i ∈ schedule) →
  Z.of_nat (length body) ≤ batching_limit sofa →
  Forall (λ item, is_Some (URL_of X (item_path item))) body →
  (∀ item request, item ∈ body → batchRequest X item = Ok request →
                   is_Some (head (omap (matchRoute X request) router))) →
  Forall (λ route, ∀ errors,
            jsonResponse (errorHandlerOf (hc_sofa (cr_handler route)) errors)) router →
  let outcome := batchHandler X sofa router schedule body serverContext0 in
  ∃ slots,
    outcome.1.1
    = Some (Ok {| res_body := BodyBatch slots; res_status := 200;
                  res_statusText := None; res_headers := ∅ |})
    ∧ Forall2 (λ item result, slot item = Ok result) body slots
    ∧ (∀ item request route params error,
         item ∈ body →
         batchRequest X item = Ok request →
         head (omap (matchRoute X request) router) = Some (route, params) →
         (handlerTry X (cr_handler route) (withParams request params)
            serverContext0).1 = Throw error →
         slot item
         = Ok (res_status (errorHandlerOf (hc_sofa (cr_handler route)) [error]),
               res_body (errorHandlerOf (hc_sofa (cr_handler route)) [error])))
    ∧ sc_env outcome.1.2 = sc_env serverContext0
    ∧ ∃ order, (order ≡ₚ seq 0 (length body)) ∧ outcome.2 = order ≫= requestsAt.
Proof.
  intros Hcover Hlimit Hurls Hmatch Hjson outcome. subst outcome. unfold batchHandler.
  assert ((Z.of_nat (length body) >? batching_limit sofa) = false) as ->.
  { rewrite Z.gtb_ltb. apply Z.ltb_ge. lia. }
  pose proof (settle_foldl schedule [] _ settled_by_start) as Hinv. simpl in Hinv.
  destruct (foldl (settle X router body) (serverContext0, ∅, []) schedule)
    as [[ctx settled] dispatched].
  destruct Hinv as (Henv & Hsettled & ran & Hnd & Hran & Hlog). simpl in *.
  rewrite Forall_forall in Hjson.
  assert (∀ item, item ∈ body → ∃ result, slot item = Ok result) as Hok.
  { intros item Hitem. rewrite Forall_forall in Hurls.
    destruct (Hurls _ Hitem) as [url Hurl].
    assert (∃ request, batchRequest X item = Ok request) as [request Hrequest].
    { unfold batchRequest. rewrite Hurl. by eexists. }
    destruct (Hmatch _ _ Hitem Hrequest) as [[route params] Hroute].
    unfold Vocabulary.slot, dispatchItem. rewrite Hrequest.
    unfold router_handle. rewrite Hroute. cbn [fst].
    rewrite responseBody_json; [by eexists|].
    apply useHandler_json, Hjson. by eapply matchRoute_elem. }
  set (valueOf := λ item, match slot item with
                          | Ok result => result
                          | Throw _ => (0, BodyJson JNull)
                          end).
  assert (∀ item, item ∈ body → slot item = Ok (valueOf item)) as Hvalue.
  { intros item Hitem. destruct (Hok _ Hitem) as [result Hr].
    unfold valueOf. by rewrite Hr. }
  exists (valueOf <$> body). split_and!.
  - unfold Promise_all. rewrite head_omap_None.
    + assert (mapM (fulfilment settled) (seq 0 (length body)) = Some (valueOf <$> body))
        as ->; [|done].
      apply mapM_Some_2, Forall2_same_length_lookup_2.
      { by rewrite length_seq, length_fmap. }
      intros i j y Hj Hy. apply lookup_seq in Hj as [-> Hlt]. simpl.
      rewrite list_lookup_fmap in Hy.
      destruct (body !! i) as [item|] eqn:Hitem; [|done]. injection Hy as <-.
      unfold fulfilment. rewrite Hsettled, bool_decide_eq_true_2 by auto.
      rewrite Hitem. simpl. rewrite Hvalue; [done|].
      by eapply list_elem_of_lookup_2.
    + intros i _. unfold rejection. rewrite Hsettled.
      case_bool_decide; [|done].
      destruct (body !! i) as [item|] eqn:Hitem; [|done]. simpl.
      rewrite Hvalue; [done|]. by eapply list_elem_of_lookup_2.
  - apply Forall2_fmap_r, Forall_Forall2_diag, Forall_forall. apply Hvalue.
  - intros item request route params error Hitem Hreq Hroute Hthrow.
    unfold Vocabulary.slot, dispatchItem. rewrite Hreq.
    pose proof (useHandler_catches X (cr_handler route) (withParams request params)
                  serverContext0 error Hthrow) as Hcatch.
    unfold router_handle. rewrite Hroute. cbn [fst]. rewrite Hcatch.
    apply responseBody_json, Hjson. by eapply matchRoute_elem.
  - done.
  - exists ran. split; [|done]. apply NoDup_Permutation; [done|apply NoDup_seq|].
    intros i. rewrite Hran, elem_of_seq. split; [lia|].
    intros [_ Hi]. split; [apply Hcover|]; lia.
Qed.

(** C2, at a batch within the limit holding an item whose path the URL
    constructor rejects ([new URL(path, 'http://localhost')] throws).  Once
    that item's promise has run, the handler throws: it returns no response
    at all, whatever the other items are and do.  The failure of the one
    item is not captured in its slot; it aborts the batch. *)
Theorem batch_rejects_on_invalid_item_path (sofa : Sofa Env ContextValue)
    (schedule : list nat) (i : nat) (item : BatchItem) :
  Z.of_nat (length body) ≤ batching_limit sofa →
  body !! i = Some item →
  URL_of X (item_path item) = None →
  i ∈ schedule →
  let outcome := batchHandler X sofa router schedule body serverContext0 in
  slot item = Throw invalidURL
  ∧ (∃ error, outcome.1.1 = Some (Throw error))
  ∧ (∀ response, outcome.1.1 ≠ Some (Ok response)).
Proof.
  intros Hlimit Hitem Hurl Hi outcome. subst outcome. unfold batchHandler.
  assert ((Z.of_nat (length body) >? batching_limit sofa) = false) as ->.
  { rewrite Z.gtb_ltb. apply Z.ltb_ge. lia. }
  pose proof (settle_foldl schedule [] _ settled_by_start) as Hinv. simpl in Hinv.
  destruct (foldl (settle X router body) (serverContext0, ∅, []) schedule)
    as [[ctx settled] dispatched].
  destruct Hinv as (_ & Hsettled & _). simpl in *.
  assert (slot item = Throw invalidURL) as Hslot.
  { unfold Vocabulary.slot, dispatchItem, batchRequest. by rewrite Hurl. }
  assert (is_Some (head (omap (rejection settled) schedule))) as [error Herror].
  { apply (head_omap_is_Some _ _ i Hi). unfold rejection.
    rewrite Hsettled, bool_decide_eq_true_2 by done.
    rewrite Hitem. simpl. rewrite Hslot. by eexists. }
  unfold Promise_all. rewrite Herror. split_and!; [done|by exists error|done].
Qed.

(** C9.  For a batch longer than the limit, the handler returns the 413
    response at once: no request is dispatched and the server context is
    untouched. *)
Theorem batch_over_limit_dispatches_nothing (sofa : Sofa Env ContextValue)
    (schedule : list nat) :
  batching_limit sofa < Z.of_nat (length body) →
  ∃ response,
    batchHandler X sofa router schedule body serverContext0
    = (Some (Ok response), serverContext0, [])
    ∧ res_status response = 413
    ∧ res_statusText response = Some "Content Too Large"
    ∧ res_body response
      = BodyMessage ("Batching is limited to "
                     +:+ String_of X (JNum (batching_limit sofa))
                     +:+ " operations per request.").
Proof.
  intros Hover. unfold batchHandler.
  assert ((Z.of_nat (length body) >? batching_limit sofa) = true) as ->.
  { apply Z.gtb_lt. lia. }
  eexists. split; [reflexivity|]. done.
Qed.

End Batch.

(** A batch of three in the demo deployment, settling in the order third,
    first, second; the second item's resolver throws. *)
Lemma batch_results_in_input_order_demo :
  (batchHandler Fixtures.demoX Fixtures.demoSofa Fixtures.demoRouter [2; 0; 1]%nat
     [Fixtures.getItem "/user/1"; Fixtures.getItem "/user/boom"; Fixtures.getItem "/me"]
     Fixtures.demoContext).1.1
  = Some (Ok {| res_body :=
                  BodyBatch [(200, BodyJson (JObj [("id", JStr "1")]));
                             (500, BodyErrors [ErrorObject "resolver exploded" None]);
                             (200, BodyJson (JObj [("id", JStr "1")]))];
                res_status := 200; res_statusText := None; res_headers := ∅ |}).
Proof.
  destruct (batch_results_in_input_order Fixtures.demoX Fixtures.demoRouter
              [Fixtures.getItem "/user/1"; Fixtures.getItem "/user/boom";
               Fixtures.getItem "/me"]
              Fixtures.demoContext Fixtures.demoSofa [2; 0; 1]%nat)
    as (slots & Hres & Hslots & _).
  - intros i Hi. simpl in Hi.
    destruct i as [|[|[|i]]]; [set_solver..|lia].
  - simpl. lia.
  - repeat constructor; by eexists.
  - intros item request Hitem Hrequest.
    repeat (apply elem_of_cons in Hitem as [->|Hitem];
            [vm_compute in Hrequest; injection Hrequest as <-; vm_compute; by eexists|]).
    by apply elem_of_nil in Hitem.
  - apply Forall_forall. intros route Hroute errors.
    assert (hc_sofa (cr_handler route) = Fixtures.demoSofa) as ->.
    { vm_compute in Hroute.
      repeat (apply elem_of_cons in Hroute as [->|Hroute]; [reflexivity|]).
      by apply elem_of_nil in Hroute. }
    apply defaultErrorHandler_json.
  - rewrite Hres. repeat f_equal.
    apply Forall2_cons_inv_l in Hslots as (s1 & slots1 & H1 & Hslots & ->).
    apply Forall2_cons_inv_l in Hslots as (s2 & slots2 & H2 & Hslots & ->).
    apply Forall2_cons_inv_l in Hslots as (s3 & slots3 & H3 & Hslots & ->).
    apply Forall2_nil_inv_l in Hslots as ->.
    vm_compute in H1, H2, H3.
    injection H1 as <-. injection H2 as <-. injection H3 as <-. reflexivity.
Defined.

(** A batch of two in the demo deployment whose first path is no URL. *)
Lemma batch_rejects_on_invalid_item_path_demo :
  (batchHandler Fixtures.demoX Fixtures.demoSofa Fixtures.demoRouter [0; 1]%nat
     [Fixtures.getItem "http://"; Fixtures.getItem "/me"]
     Fixtures.demoContext).1.1
  = Some (Throw invalidURL).
Proof.
  destruct (batch_rejects_on_invalid_item_path Fixtures.demoX Fixtures.demoRouter
              [Fixtures.getItem "http://"; Fixtures.getItem "/me"]
              Fixtures.demoContext Fixtures.demoSofa [0; 1]%nat 0%nat
              (Fixtures.getItem "http://"))
    as (_ & [error Herror] & _).
  - simpl. lia.
  - reflexivity.
  - reflexivity.
  - apply list_elem_of_here.
  - rewrite Herror. f_equal. vm_compute in Herror. by injection Herror as <-.
Defined.

(** Four items against the demo limit of three. *)
Lemma batch_over_limit_dispatches_nothing_demo :
  ∃ response,
    batchHandler Fixtures.demoX Fixtures.demoSofa Fixtures.demoRouter [0; 1; 2; 3]%nat
      [Fixtures.getItem "/me"; Fixtures.getItem "/me"; Fixtures.getItem "/me";
       Fixtures.getItem "/me"] Fixtures.demoContext
    = (Some (Ok response), Fixtures.demoContext, [])
    ∧ res_status response = 413.
Proof.
  destruct (batch_over_limit_dispatches_nothing Fixtures.demoX Fixtures.demoRouter
              [Fixtures.getItem "/me"; Fixtures.getItem "/me"; Fixtures.getItem "/me";
               Fixtures.getItem "/me"]
              Fixtures.demoContext Fixtures.demoSofa [0; 1; 2; 3]%nat)
    as (response & Heq & Hstatus & _).
  - simpl. lia.
  - exists response. by split.
Defined.

(** The component of the demo type [User]. *)
Lemma component_lists_declared_fields_demo :
  obj_keys (properties_of (buildSchemaObjectFromType Fixtures.userType Fixtures.demoOpts))
  = ["id"; "name"; "friend"; "lastPost"; "posts"]
  ∧ required_of (buildSchemaObjectFromType Fixtures.userType Fixtures.demoOpts)
    = ["id"; "posts"].
Proof.
  destruct (component_lists_declared_fields Fixtures.demoOpts Fixtures.userType)
    as (Hkeys & _ & Hrequired & _).
  - vm_compute. repeat (constructor; [set_solver|]). constructor.
  - split; [exact Hkeys|exact Hrequired].
Defined.

(** ** Setup-time parameter locations *)

(** C6, at the mutation [createUser(name: String!): User] of the demo
    schema, routed without override at POST [/createUser].  The schemas that
    [getRouteSchemas] attaches to the route list the variable [name] twice:
    as a (required) query parameter and as a (required) property of the JSON
    body.  For the same route, [buildPathFromOperation] documents [name] in
    the body only. *)
Theorem route_schemas_list_body_variable_twice :
  ∃ compiled info body,
    createMutationRoute Fixtures.demoX Fixtures.demoSofa "createUser"
    = Some (compiled, info)
    ∧ cr_method compiled = POST
    ∧ cr_path compiled = "/createUser"
    ∧ route_locations (cr_schemas compiled) "name" = [InQuery; InBody]
    ∧ obj_keys (ps_properties (request_query (cr_schemas compiled))) = ["name"]
    ∧ ps_required (request_query (cr_schemas compiled)) = ["name"]
    ∧ request_json (cr_schemas compiled) = Some (Some body)
    ∧ obj_keys (properties_of body) = ["name"]
    ∧ required_of body = ["name"]
    ∧ documented_locations
        (buildPathFromOperation "/createUser" (hc_info (cr_handler compiled))
           (useRequestBody POST) [] "" Fixtures.demoOpts) "name"
      = [InBody].
Proof. eexists _, _, _. split; [reflexivity|]. by vm_compute. Qed.

Section ParameterLocations.
Context {Env ContextValue : Type} (X : Externals).
Implicit Types (sofa : Sofa Env ContextValue) (variables : list VariableDefinitionNode).

Local Arguments resolveRequestBody : simpl never.
Local Arguments resolveParameters : simpl never.

Lemma resolveRequestBody_foldl operation opts variables : ∀ required properties,
  NoDup (obj_keys properties ++ variableNames variables) →
  let r := foldl (resolveRequestBody_step operation opts) (required, properties) variables in
  r.1 = (required ++ variableNames (nonNullVariables variables))%list
  ∧ obj_keys r.2 = (obj_keys properties ++ variableNames variables)%list.
Proof.
  induction variables as [|v variables IH]; intros required properties Hnd; simpl.
  - by rewrite !app_nil_r.
  - assert (variable_name v ∉ obj_keys properties) as Hfresh.
    { apply NoDup_app in Hnd as (_ & Hdisj & _). intros Hin.
      apply (Hdisj _ Hin). apply list_elem_of_here. }
    rewrite (obj_set_fresh _ _ _ Hfresh).
    match goal with |- context [foldl _ (?r, ?p) variables] =>
      destruct (IH r p) as [Hreq Hkeys] end.
    { rewrite obj_keys_app. simpl. rewrite <- app_assoc. exact Hnd. }
    rewrite Hreq, Hkeys. split.
    + unfold nonNullVariables, variableNames.
      destruct (isNonNullTypeNode (variable_type v)) eqn:Hnn.
      * rewrite filter_cons_True by done. simpl. by rewrite <- app_assoc.
      * rewrite filter_cons_False by (rewrite Hnn; done). done.
    + rewrite obj_keys_app. simpl. by rewrite <- app_assoc.
Qed.

Lemma resolveRequestBody_keys operation opts variables :
  NoDup (variableNames variables) →
  ∃ body, resolveRequestBody (Some variables) operation opts = Some body
          ∧ obj_keys (properties_of body) = variableNames variables
          ∧ required_of body = variableNames (nonNullVariables variables).
Proof.
  intros Hnd. unfold resolveRequestBody.
  destruct (resolveRequestBody_foldl operation opts variables [] []) as [Hreq Hkeys];
    [done|].
  destruct (foldl _ _ _) as [required properties]. simpl in *. subst required.
  eexists. split; [reflexivity|]. unfold required_of. simpl. split; [done|].
  by case_bool_decide as Hnil; [rewrite Hnil|].
Qed.

Lemma obj_keys_ps_add n s required (varObj : ParamsSchema) :
  n ∉ obj_keys (ps_properties varObj) →
  obj_keys (ps_properties (ps_add n s required varObj))
  = (obj_keys (ps_properties varObj) ++ [n])%list.
Proof.
  intros Hn. unfold ps_add. simpl. rewrite obj_set_fresh by done.
  by rewrite obj_keys_app.
Qed.

Lemma getRouteSchemas_foldl field path info sofa variables : ∀ params query,
  NoDup (variableNames variables) →
  (∀ n, n ∈ variableNames variables →
        (n ∉ obj_keys (ps_properties params)) ∧ (n ∉ obj_keys (ps_properties query))) →
  let r := foldl (getRouteSchemas_step field path info sofa) (params, query) variables in
  obj_keys (ps_properties r.1)
  = (obj_keys (ps_properties params) ++ variableNames (pathVariables path variables))%list
  ∧ obj_keys (ps_properties r.2)
    = (obj_keys (ps_properties query) ++ variableNames (otherVariables path variables))%list
  ∧ ps_required r.1
    = (ps_required params
       ++ variableNames (nonNullVariables (pathVariables path variables)))%list
  ∧ ps_required r.2
    = (ps_required query
       ++ variableNames (nonNullVariables (otherVariables path variables)))%list.
Proof.
  induction variables as [|v variables IH]; intros params query Hnd Hfresh.
  - simpl. by rewrite !app_nil_r.
  - cbn [foldl]. apply NoDup_cons in Hnd as [Hv Hnd].
    destruct (Hfresh (variable_name v)) as [Hp Hq]; [apply list_elem_of_here|].
    set (s := variableSchema field info sofa v).
    set (required := isNonNullTypeNode (variable_type v)).
    assert (∀ n, n ∈ variableNames variables → n ≠ variable_name v) as Hother.
    { intros n Hn ->. by apply Hv. }
    destruct (isInPath path (variable_name v)) eqn:Hin.
    + assert (getRouteSchemas_step field path info sofa (params, query) v
              = (ps_add (variable_name v) s required params, query)) as ->.
      { unfold getRouteSchemas_step. by rewrite Hin. }
      destruct (IH (ps_add (variable_name v) s required params) query Hnd)
        as (H1 & H2 & H3 & H4).
      { intros n Hn. destruct (Hfresh n) as [Hnp Hnq]; [by apply list_elem_of_further|].
        split; [|done]. rewrite obj_keys_ps_add by done.
        rewrite elem_of_app, list_elem_of_singleton. intros [?|?]; [done|].
        by apply (Hother n). }
      rewrite H1, H2, H3, H4, obj_keys_ps_add by done.
      unfold pathVariables, otherVariables, nonNullVariables, variableNames, ps_add.
      simpl.
      rewrite (filter_cons_True (λ v, isInPath path (variable_name v) = true) v) by done.
      rewrite (filter_cons_False (λ v, isInPath path (variable_name v) ≠ true) v)
        by (rewrite Hin; auto).
      subst required. destruct (isNonNullTypeNode (variable_type v)) eqn:Hnn.
      * rewrite (filter_cons_True _ v) by done. simpl. by rewrite <- !app_assoc.
      * rewrite (filter_cons_False _ v) by (rewrite Hnn; done).
        simpl. by rewrite <- !app_assoc.
    + assert (getRouteSchemas_step field path info sofa (params, query) v
              = (params, ps_add (variable_name v) s required query)) as ->.
      { unfold getRouteSchemas_step. by rewrite Hin. }
      destruct (IH params (ps_add (variable_name v) s required query) Hnd)
        as (H1 & H2 & H3 & H4).
      { intros n Hn. destruct (Hfresh n) as [Hnp Hnq]; [by apply list_elem_of_further|].
        split; [done|]. rewrite obj_keys_ps_add by done.
        rewrite elem_of_app, list_elem_of_singleton. intros [?|?]; [done|].
        by apply (Hother n). }
      rewrite H1, H2, H3, H4, obj_keys_ps_add by done.
      unfold pathVariables, otherVariables, nonNullVariables, variableNames, ps_add.
      simpl.
      rewrite (filter_cons_False (λ v, isInPath path (variable_name v) = true) v)
        by (rewrite Hin; done).
      rewrite (filter_cons_True (λ v, isInPath path (variable_name v) ≠ true) v)
        by (rewrite Hin; done).
      subst required. destruct (isNonNullTypeNode (variable_type v)) eqn:Hnn.
      * rewrite (filter_cons_True _ v) by done. simpl. by rewrite <- !app_assoc.
      * rewrite (filter_cons_False _ v) by (rewrite Hnn; done).
        simpl. by rewrite <- !app_assoc.
Qed.

Lemma elem_of_variableNames_filter (P : VariableDefinitionNode → Prop)
    `{∀ v, Decision (P v)} variables (variable : VariableDefinitionNode) :
  NoDup (variableNames variables) → variable ∈ variables →
  variable_name variable ∈ variableNames (filter P variables) ↔ P variable.
Proof.
  intros Hnd Hin. unfold variableNames. split.
  - intros Hn. apply list_elem_of_fmap in Hn as (w & Heq & Hw).
    apply list_elem_of_filter in Hw as [HP Hw].
    assert (w = variable) as <-; [|done].
    apply list_elem_of_lookup in Hw as [i Hi].
    apply list_elem_of_lookup in Hin as [j Hj].
    assert (i = j) as ->; [|congruence].
    eapply NoDup_lookup; [exact Hnd| |].
    + unfold variableNames. rewrite list_lookup_fmap, Hi. done.
    + unfold variableNames. rewrite list_lookup_fmap, Hj. simpl. by rewrite Heq.
  - intros HP. apply list_elem_of_fmap. exists variable. split; [done|].
    by apply list_elem_of_filter.
Qed.

(** What [getRouteSchemas] does with a variable of an operation whose
    variables have distinct names: it lists it under the path parameters if
    its name occurs in the path template and under the query parameters
    otherwise, whatever the method, and on a body-bearing method it lists it
    in the JSON body as well; in each place the variable is required exactly
    when its type is non-null. *)
Theorem route_schemas_locations sofa (field : option GraphQLField)
    (method : HTTPMethod) (path : string) (info : OperationInfo)
    (responseStatus : Z) (variable : VariableDefinitionNode) :
  NoDup (variableNames (info_variables info)) →
  variable ∈ info_variables info →
  let name := variable_name variable in
  let schemas := getRouteSchemas field method path info sofa responseStatus in
  route_locations schemas name
  = ((if isInPath path name then [InPath] else [InQuery])
     ++ (if useRequestBody method then [InBody] else []))%list
  ∧ (name ∈ (ps_required (request_params schemas)
             ++ ps_required (request_query schemas))%list
     ↔ isNonNullTypeNode (variable_type variable) = true).
Proof.
  intros Hnd Hin name schemas. subst schemas name. unfold getRouteSchemas.
  destruct (getRouteSchemas_foldl field path info sofa (info_variables info)
              {| ps_properties := []; ps_required := [] |}
              {| ps_properties := []; ps_required := [] |} Hnd)
    as (Hp & Hq & Hrp & Hrq).
  { intros n _. simpl. split; apply not_elem_of_nil. }
  destruct (foldl _ _ _) as [params query]. simpl in *.
  pose proof (elem_of_variableNames_filter
                (λ v, isInPath path (variable_name v) = true) _ _ Hnd Hin) as HinPath.
  pose proof (elem_of_variableNames_filter
                (λ v, isInPath path (variable_name v) ≠ true) _ _ Hnd Hin) as HnotPath.
  fold (pathVariables path (info_variables info)) in HinPath.
  fold (otherVariables path (info_variables info)) in HnotPath.
  split.
  - unfold route_locations. simpl. rewrite Hp, Hq.
    assert (∀ tail, ((if bool_decide (variable_name variable
                                       ∈ variableNames (pathVariables path (info_variables info)))
                      then [InPath] else [])
                     ++ (if bool_decide (variable_name variable
                                          ∈ variableNames
                                              (otherVariables path (info_variables info)))
                         then [InQuery] else [])
                     ++ tail)%list
                    = ((if isInPath path (variable_name variable)
                        then [InPath] else [InQuery]) ++ tail)%list) as ->.
    { intros tail. destruct (isInPath path (variable_name variable)) eqn:Hpath.
      - rewrite bool_decide_eq_true_2 by (by apply HinPath).
        rewrite bool_decide_eq_false_2; [done|]. rewrite HnotPath. auto.
      - rewrite bool_decide_eq_false_2 by (rewrite HinPath; congruence).
        rewrite bool_decide_eq_true_2; [done|]. apply HnotPath. congruence. }
    f_equal. destruct (useRequestBody method); [|done].
    destruct (resolveRequestBody_keys (info_operation info) (sofa_opts sofa)
                (info_variables info) Hnd) as (body & -> & Hkeys & _).
    rewrite Hkeys. rewrite bool_decide_eq_true_2; [done|].
    by apply list_elem_of_fmap_2.
  - rewrite Hrp, Hrq. simpl. rewrite elem_of_app.
    assert (∀ vs, vs ⊆ info_variables info → NoDup (variableNames vs) →
                  variable_name variable ∈ variableNames (nonNullVariables vs)
                  ↔ variable ∈ vs ∧ isNonNullTypeNode (variable_type variable) = true)
      as Hreq.
    { intros vs Hsub Hndvs. unfold nonNullVariables, variableNames. split.
      - intros Hn. apply list_elem_of_fmap in Hn as (w & Heq & Hw).
        apply list_elem_of_filter in Hw as [Hnn Hw].
        assert (w = variable) as <-; [|done].
        pose proof (Hsub _ Hw) as Hw'.
        apply list_elem_of_lookup in Hw' as [i Hi].
        apply list_elem_of_lookup in Hin as [j Hj].
        assert (i = j) as ->; [|congruence].
        eapply NoDup_lookup; [exact Hnd| |].
        + unfold variableNames. rewrite list_lookup_fmap, Hi. done.
        + unfold variableNames. rewrite list_lookup_fmap, Hj. simpl. by rewrite Heq.
      - intros [Hv Hnn]. apply list_elem_of_fmap. exists variable. split; [done|].
        by apply list_elem_of_filter. }
    assert (∀ (P : VariableDefinitionNode → Prop) `{∀ v, Decision (P v)},
              NoDup (variableNames (filter P (info_variables info)))) as Hndf.
    { intros P HP. unfold variableNames. apply NoDup_fmap_2_strong.
      - intros v w Hv Hw Heq.
        apply list_elem_of_filter in Hv as [_ Hv]. apply list_elem_of_filter in Hw as [_ Hw].
        apply list_elem_of_lookup in Hv as [i Hi]. apply list_elem_of_lookup in Hw as [j Hj].
        assert (i = j) as ->; [|congruence].
        eapply NoDup_lookup; [exact Hnd| |].
        + unfold variableNames. rewrite list_lookup_fmap, Hi. done.
        + unfold variableNames. rewrite list_lookup_fmap, Hj. simpl. by rewrite Heq.
      - apply NoDup_filter. by eapply NoDup_fmap_1. }
    rewrite !Hreq.
    + unfold pathVariables, otherVariables. rewrite !list_elem_of_filter.
      destruct (isInPath path (variable_name variable)); naive_solver.
    + intros v Hv. by apply list_elem_of_filter in Hv as [_ Hv].
    + apply Hndf.
    + intros v Hv. by apply list_elem_of_filter in Hv as [_ Hv].
    + apply Hndf.
Qed.

Lemma filter_none {A} (P : A → Prop) `{∀ x, Decision (P x)} (l : list A) :
  Forall (λ x, ¬ P x) l → filter P l = [].
Proof.
  induction 1 as [|x l Hx _ IH]; [done|]. by rewrite filter_cons_False.
Qed.

Lemma filter_by_name_here variables (variable : VariableDefinitionNode) :
  NoDup (variableNames variables) → variable ∈ variables →
  filter (λ v, variable_name v = variable_name variable) variables = [variable].
Proof.
  induction variables as [|v variables IH]; intros Hnd Hin.
  - by apply elem_of_nil in Hin.
  - unfold variableNames in *. simpl in Hnd. apply NoDup_cons in Hnd as [Hv Hnd].
    apply elem_of_cons in Hin as [->|Hin].
    + rewrite filter_cons_True by done. f_equal.
      apply filter_none, Forall_forall. intros w Hw Heq. apply Hv.
      rewrite <- Heq. by apply list_elem_of_fmap_2.
    + rewrite filter_cons_False; [by apply IH|].
      intros Heq. apply Hv. rewrite Heq. by apply list_elem_of_fmap_2.
Qed.

Lemma filter_by_name_absent variables (n : string) :
  n ∉ variableNames variables →
  filter (λ v, variable_name v = n) variables = [].
Proof.
  intros Hn. apply filter_none, Forall_forall. intros w Hw Heq. apply Hn.
  rewrite <- Heq. by apply list_elem_of_fmap_2.
Qed.

Lemma resolveParameters_named url operation opts variables (n : string) :
  filter (λ p, param_name p = n)
         (resolveParameters url (Some variables) operation opts)
  = resolveParameters url (Some (filter (λ v, variable_name v = n) variables))
      operation opts.
Proof.
  unfold resolveParameters. induction variables as [|v variables IH]; [done|].
  rewrite fmap_cons. destruct (decide (variable_name v = n)) as [Heq|Hne].
  - rewrite !filter_cons_True by done. rewrite fmap_cons. by rewrite IH.
  - rewrite !filter_cons_False by done. apply IH.
Qed.

Lemma filter_variables_NoDup (P : VariableDefinitionNode → Prop)
    `{∀ v, Decision (P v)} variables :
  NoDup (variableNames variables) → NoDup (variableNames (filter P variables)).
Proof.
  unfold variableNames. induction variables as [|v variables IH]; simpl; intros Hnd.
  - constructor.
  - apply NoDup_cons in Hnd as [Hv Hnd]. destruct (decide (P v)).
    + rewrite filter_cons_True by done. simpl. apply NoDup_cons. split; [|by apply IH].
      intros Hin. apply Hv. apply list_elem_of_fmap in Hin as (w & -> & Hw).
      apply list_elem_of_filter in Hw as [_ Hw]. by apply list_elem_of_fmap_2.
    + rewrite filter_cons_False by done. by apply IH.
Qed.

(** What [buildPathFromOperation] does with a variable of an operation
    whose variables have distinct names: it documents it in exactly one
    place, the path if its name occurs in the path template, otherwise the
    request body when the route takes one and the query string when it does
    not; a parameter's required flag is whether its type is non-null, and a
    body property is required exactly when its type is non-null. *)
Theorem documented_location_is_unique (url : string) (info : OperationInfo)
    (withBody : bool) (tags : list string) (description : string) (opts : Opts)
    variables (variable : VariableDefinitionNode) :
  variableDefinitions (info_operation info) = Some variables →
  NoDup (variableNames variables) →
  variable ∈ variables →
  let name := variable_name variable in
  let documented := buildPathFromOperation url info withBody tags description opts in
  documented_locations documented name
  = [if isInPath url name then InPath else if withBody then InBody else InQuery]
  ∧ (∀ p, p ∈ op_parameters documented → param_name p = name →
          param_required p = isNonNullTypeNode (variable_type variable))
  ∧ (∀ body, op_requestBody documented = Some (Some body) →
             isInPath url name = false →
             name ∈ required_of body
             ↔ isNonNullTypeNode (variable_type variable) = true).
Proof.
  intros Hvars Hnd Hin name documented. subst documented name.
  unfold buildPathFromOperation, documented_locations. simpl. rewrite Hvars. simpl.
  set (opts' := {| schema := schema opts; customScalars := customScalars opts;
                   enumTypes := resolveEnumTypes (schema opts);
                   exampleDirective := exampleDirective opts;
                   exampleDirectiveParser := exampleDirectiveParser opts |}).
  pose proof (elem_of_variableNames_filter
                (λ v, isInPath url (variable_name v) = true) _ _ Hnd Hin) as HinPath.
  pose proof (elem_of_variableNames_filter
                (λ v, isInPath url (variable_name v) ≠ true) _ _ Hnd Hin) as HnotPath.
  pose proof (filter_variables_NoDup
                (λ v, isInPath url (variable_name v) = true) _ Hnd) as HndPath.
  pose proof (filter_variables_NoDup
                (λ v, isInPath url (variable_name v) ≠ true) _ Hnd) as HndOther.
  destruct withBody; split_and!.
  - rewrite resolveParameters_named.
    destruct (resolveRequestBody_keys (info_operation info) opts' _ HndOther)
      as (body & -> & Hkeys & _).
    rewrite Hkeys.
    destruct (isInPath url (variable_name variable)) eqn:Hpath.
    + rewrite filter_by_name_here; [|done|by apply list_elem_of_filter].
      rewrite bool_decide_eq_false_2 by (rewrite HnotPath; auto).
      simpl. by rewrite Hpath.
    + rewrite filter_by_name_absent by (rewrite HinPath; congruence).
      rewrite bool_decide_eq_true_2; [done|]. apply HnotPath. congruence.
  - intros p Hp Hname. unfold resolveParameters in Hp.
    apply list_elem_of_fmap in Hp as (v & -> & Hv). simpl in *.
    apply list_elem_of_filter in Hv as [_ Hv].
    assert (v = variable) as ->; [|done].
    apply list_elem_of_lookup in Hv as [i Hi].
    apply list_elem_of_lookup in Hin as [j Hj].
    assert (i = j) as ->; [|congruence].
    eapply NoDup_lookup; [exact Hnd| |].
    + unfold variableNames. rewrite list_lookup_fmap, Hi. done.
    + unfold variableNames. rewrite list_lookup_fmap, Hj. simpl. by rewrite Hname.
  - intros body Hbody Hpath.
    destruct (resolveRequestBody_keys (info_operation info) opts' _ HndOther)
      as (body' & Heq & _ & Hreq).
    rewrite Heq in Hbody. injection Hbody as <-. rewrite Hreq.
    unfold nonNullVariables.
    rewrite (elem_of_variableNames_filter _ _ variable HndOther).
    + done.
    + apply list_elem_of_filter. split; [congruence|done].
  - rewrite resolveParameters_named.
    rewrite filter_by_name_here by done. simpl. done.
  - intros p Hp Hname. unfold resolveParameters in Hp.
    apply list_elem_of_fmap in Hp as (v & -> & Hv). simpl in *.
    assert (v = variable) as ->; [|done].
    apply list_elem_of_lookup in Hv as [i Hi].
    apply list_elem_of_lookup in Hin as [j Hj].
    assert (i = j) as ->; [|congruence].
    eapply NoDup_lookup; [exact Hnd| |].
    + unfold variableNames. rewrite list_lookup_fmap, Hi. done.
    + unfold variableNames. rewrite list_lookup_fmap, Hj. simpl. by rewrite Hname.
  - intros body Hbody. done.
Qed.

End ParameterLocations.

(** In the demo deployment: the query [user] at GET [/user/:id] has its
    variable [id] under the path parameters only. *)
Lemma route_schemas_locations_demo :
  route_locations
    (getRouteSchemas None GET "/user/:id"
       (Fixtures.demoOperation OpQuery "user") Fixtures.demoSofa 200) "id"
  = [InPath].
Proof.
  destruct (route_schemas_locations (Env := unit) (ContextValue := unit)
              Fixtures.demoSofa None GET "/user/:id"
              (Fixtures.demoOperation OpQuery "user") 200
              (Fixtures.var "id" (NonNullTypeNode (NamedTypeNode "ID"))))
    as [Hloc _].
  - vm_compute. repeat (constructor; [set_solver|]). constructor.
  - vm_compute. apply list_elem_of_here.
  - exact Hloc.
Defined.

(** In the demo deployment: the mutation [createUser] at POST [/createUser]
    is documented with its variable [name] in the request body only. *)
Lemma documented_location_is_unique_demo :
  documented_locations
    (buildPathFromOperation "/createUser" (Fixtures.demoOperation OpMutation "createUser")
       true [] "" Fixtures.demoOpts) "name"
  = [InBody].
Proof.
  destruct (documented_location_is_unique "/createUser"
              (Fixtures.demoOperation OpMutation "createUser") true [] ""
              Fixtures.demoOpts
              [Fixtures.var "name" (NonNullTypeNode (NamedTypeNode "String"))]
              (Fixtures.var "name" (NonNullTypeNode (NamedTypeNode "String"))))
    as [Hloc _].
  - reflexivity.
  - vm_compute. repeat (constructor; [set_solver|]). constructor.
  - apply list_elem_of_here.
  - exact Hloc.
Defined.

Section BuiltOnce.
Context {Env ContextValue : Type}.

(** In one pass over a type map with distinct type names, no component name
    is assigned twice, and the component left under the name of an object or
    input-object type that is not an introspection type is the one built
    from that type's definition. *)
Theorem components_built_once (sofa : Sofa Env ContextValue) :
  let types := getTypeMap (schema (sofa_opts sofa)) in
  NoDup (type_name ∘ def_type <$> types) →
  NoDup (component_builds sofa).*1
  ∧ ∀ type, type ∈ types → isComponentType type = true →
            obj_get (type_name (def_type type)) (createRouter_schemas sofa)
            = Some (buildSchemaObjectFromType type (sofa_opts sofa)).
Proof.
  intros types Hnd. split.
  - by apply component_builds_NoDup.
  - intros type Hin Hc. by apply createRouter_schemas_object.
Qed.

End BuiltOnce.

Lemma components_built_once_demo :
  NoDup (component_builds Fixtures.demoSofa).*1
  ∧ obj_get "Post" (createRouter_schemas Fixtures.demoSofa)
    = Some (buildSchemaObjectFromType Fixtures.postType Fixtures.demoOpts).
Proof.
  destruct (components_built_once Fixtures.demoSofa) as [Hnd Hget].
  - vm_compute. repeat (constructor; [set_solver|]). constructor.
  - split; [exact Hnd|]. apply (Hget Fixtures.postType).
    + vm_compute. set_solver.
    + reflexivity.
Defined.

(** ** Strings and path templates *)

Section Strings.

Lemma append_cons c (s t : string) : String c s +:+ t = String c (s +:+ t).
Proof. reflexivity. Qed.

Lemma append_assoc (a b c : string) : (a +:+ b) +:+ c = a +:+ (b +:+ c).
Proof. induction a as [|x a IH]; [done|]. rewrite !append_cons. by rewrite IH. Qed.

Lemma prefix_append (a s : string) :
  String.prefix a s = true ↔ ∃ post, s = a +:+ post.
Proof.
  revert s. induction a as [|c a IH]; intros s.
  - split; [intros _; by exists s|]. intros _. by destruct s.
  - destruct s as [|c' s]; simpl.
    + split; [done|]. intros [post Hpost]. discriminate.
    + destruct (Ascii.ascii_dec c c') as [->|Hne].
      * rewrite IH. split; intros [post Hpost]; exists post.
        -- rewrite append_cons. by rewrite Hpost.
        -- rewrite append_cons in Hpost. by injection Hpost.
      * split; [done|]. intros [post Hpost].
        rewrite append_cons in Hpost. injection Hpost as -> _. done.
Qed.

Lemma includes_unfold (s sub : string) :
  includes s sub
  = String.prefix sub s
    || match s with EmptyString => false | String _ s' => includes s' sub end.
Proof. by destruct s. Qed.

(** [s.includes(sub)] holds exactly when [sub] occurs somewhere in [s]. *)
Lemma includes_spec (s sub : string) :
  includes s sub = true ↔ ∃ pre post, s = pre +:+ sub +:+ post.
Proof.
  split.
  - induction s as [|c s IH]; rewrite includes_unfold; intros Hs.
    + rewrite orb_false_r in Hs. apply prefix_append in Hs as [post ->].
      by exists "", post.
    + apply orb_true_iff in Hs as [Hs|Hs].
      * apply prefix_append in Hs as [post ->]. by exists "", post.
      * destruct (IH Hs) as (pre & post & ->). by exists (String c pre), post.
  - intros (pre & post & ->). induction pre as [|c pre IH].
    + rewrite includes_unfold. apply orb_true_iff. left.
      apply prefix_append. by exists post.
    + rewrite append_cons, includes_unfold. apply orb_true_iff. by right.
Qed.

Lemma includes_append_l (pre s sub : string) :
  includes s sub = true → includes (pre +:+ s) sub = true.
Proof.
  rewrite !includes_spec. intros (a & b & ->).
  exists (pre +:+ a), b. by rewrite append_assoc.
Qed.

Lemma String_split_nonempty sep s : String_split sep s ≠ [].
Proof.
  destruct s as [|c s]; simpl; [done|].
  destruct (Ascii.eqb c sep); [done|]. by destruct (String_split sep s).
Qed.

Lemma Array_join_cons sep part p ps :
  Array_join sep (part :: p :: ps) = part +:+ sep +:+ Array_join sep (p :: ps).
Proof. reflexivity. Qed.


Lemma String_split_slashFree s :
  Forall (λ part, slashFree part = true) (String_split slash s).
Proof.
  induction s as [|c s IH]; simpl; [by repeat constructor|].
  destruct (Ascii.eqb c slash) eqn:Hc; [by constructor|].
  destruct (String_split slash s) as [|p ps]; simpl.
  - repeat constructor. simpl. by rewrite Hc.
  - apply Forall_cons in IH as [Hp Hps]. constructor; [|done].
    simpl. by rewrite Hc.
Qed.

Lemma String_split_part (p : string) :
  slashFree p = true → String_split slash p = [p].
Proof.
  induction p as [|c p IH]; simpl; [done|].
  intros [Hc Hp]%andb_true_iff. apply negb_true_iff in Hc.
  rewrite Hc, IH by done. done.
Qed.

Lemma String_split_append (p rest : string) :
  slashFree p = true →
  String_split slash (p +:+ "/" +:+ rest) = p :: String_split slash rest.
Proof.
  induction p as [|c p IH]; intros Hp.
  - done.
  - simpl in Hp. apply andb_true_iff in Hp as [Hc Hp]. apply negb_true_iff in Hc.
    rewrite append_cons. simpl. rewrite Hc, IH by done. done.
Qed.

Lemma String_split_join parts :
  parts ≠ [] → Forall (λ part, slashFree part = true) parts →
  String_split slash (Array_join "/" parts) = parts.
Proof.
  induction parts as [|p parts IH]; [done|]. intros _ Hall.
  apply Forall_cons in Hall as [Hp Hall].
  destruct parts as [|q parts].
  - simpl. by apply String_split_part.
  - rewrite Array_join_cons, String_split_append by done.
    by rewrite IH.
Qed.

Lemma slashFree_append (a b : string) :
  slashFree (a +:+ b) = slashFree a && slashFree b.
Proof.
  induction a as [|c a IH]; [done|].
  rewrite append_cons. simpl. by rewrite IH, andb_assoc.
Qed.

Lemma slashFree_normalizePart part :
  slashFree part = true → slashFree (normalizePart part) = true.
Proof.
  intros Hp. unfold normalizePart. case_match; [|done].
  rewrite !slashFree_append. destruct part as [|c part]; [done|].
  simpl in *. apply andb_true_iff in Hp as [_ ->]. done.
Qed.

Lemma normalizePart_colon (name : string) :
  normalizePart (":" +:+ name) = "{" +:+ name +:+ "}".
Proof. unfold normalizePart. by destruct name. Qed.



Lemma Array_join_elem sep (p : string) parts :
  p ∈ parts → ∃ pre post, Array_join sep parts = pre +:+ p +:+ post.
Proof.
  induction parts as [|q parts IH]; intros Hin; [by apply elem_of_nil in Hin|].
  destruct parts as [|r parts].
  - apply list_elem_of_singleton in Hin as ->. exists "", "". simpl.
    by rewrite append_empty_r.
  - rewrite Array_join_cons. apply elem_of_cons in Hin as [->|Hin].
    + by exists "", (sep +:+ Array_join sep (r :: parts)).
    + destruct (IH Hin) as (pre & post & ->).
      exists (q +:+ sep +:+ pre), post. by rewrite !append_assoc.
Qed.

Lemma split_normalized path :
  String_split slash (normalizePathParamForOpenAPI path)
  = normalizePart <$> String_split slash path.
Proof.
  unfold normalizePathParamForOpenAPI. cbv zeta. apply String_split_join.
  - pose proof (String_split_nonempty slash path).
    by destruct (String_split slash path).
  - apply Forall_fmap. eapply Forall_impl; [apply String_split_slashFree|].
    intros part. apply slashFree_normalizePart.
Qed.


(** [isInPath] is a substring test: it holds exactly when [:param] or
    [{param}] occurs somewhere in the template, whatever surrounds it; a
    placeholder whose name only starts with [param] therefore counts. *)
Theorem isInPath_is_substring_test (url param : string) :
  (isInPath url param = true
   ↔ ∃ pre post, url = pre +:+ ":" +:+ param +:+ post
                 ∨ url = pre +:+ "{" +:+ param +:+ "}" +:+ post)
  ∧ ∀ pre more post, isInPath (pre +:+ ":" +:+ param +:+ more +:+ post) param = true.
Proof.
  assert (isInPath url param = true
          ↔ ∃ pre post, url = pre +:+ ":" +:+ param +:+ post
                        ∨ url = pre +:+ "{" +:+ param +:+ "}" +:+ post) as Hiff.
  { unfold isInPath. rewrite orb_true_iff, !includes_spec. split.
    - intros [(pre & post & ->)|(pre & post & ->)]; exists pre, post.
      + left. by rewrite append_assoc.
      + right. by rewrite !append_assoc.
    - intros (pre & post & [->| ->]); [left|right]; exists pre, post.
      + by rewrite append_assoc.
      + by rewrite !append_assoc. }
  split; [exact Hiff|].
  intros pre more post. unfold isInPath. apply orb_true_iff. left.
  apply includes_spec. exists pre, (more +:+ post). by rewrite append_assoc.
Qed.
End Strings.

(** ** Lookups in lists with distinct keys *)

Section Lookups.
Context {A B : Type} `{EqDecision B} (f : A → B).

Lemma NoDup_fmap_elem_eq (l : list A) (x y : A) :
  NoDup (f <$> l) → x ∈ l → y ∈ l → f x = f y → x = y.
Proof.
  intros Hnd Hx Hy Heq.
  apply list_elem_of_lookup in Hx as [i Hi]. apply list_elem_of_lookup in Hy as [j Hj].
  assert (i = j) as ->; [|congruence].
  eapply NoDup_lookup; [exact Hnd| |].
  - rewrite list_lookup_fmap, Hi. done.
  - rewrite list_lookup_fmap, Hj. simpl. by rewrite Heq.
Qed.

Lemma head_filter_elem (l : list A) (k : B) (x : A) :
  head (filter (λ y, f y = k) l) = Some x → x ∈ l ∧ f x = k.
Proof.
  intros Hx. apply head_Some_elem_of in Hx.
  apply list_elem_of_filter in Hx as [? ?]. done.
Qed.

Lemma head_filter_absent (l : list A) (k : B) :
  head (filter (λ y, f y = k) l) = None → k ∉ f <$> l.
Proof.
  intros Hnone Hin. apply head_None in Hnone.
  apply list_elem_of_fmap in Hin as (x & -> & Hx).
  by eapply (filter_nil_not_elem_of (λ y, f y = f x)).
Qed.

Lemma head_filter_NoDup (l : list A) (x : A) :
  NoDup (f <$> l) → x ∈ l → head (filter (λ y, f y = f x) l) = Some x.
Proof.
  intros Hnd Hx.
  destruct (head (filter (λ y, f y = f x) l)) as [y|] eqn:Hy.
  - apply head_filter_elem in Hy as [Hy Heq]. f_equal.
    by apply (NoDup_fmap_elem_eq l).
  - apply head_filter_absent in Hy. exfalso. apply Hy.
    by apply list_elem_of_fmap_2.
Qed.

End Lookups.



(** ** The components of the two document builders *)

Section ComponentTables.
Context {Env ContextValue : Type}.
Implicit Types (sofa : Sofa Env ContextValue) (opts : Opts).

Lemma getType_elem schema (k : string) (type : TypeDefinition) :
  getType schema k = Some type →
  type ∈ getTypeMap schema ∧ type_name (def_type type) = k.
Proof. apply (head_filter_elem (λ d, type_name (def_type d))). Qed.

Lemma getType_absent schema (k : string) :
  getType schema k = None → k ∉ type_name ∘ def_type <$> getTypeMap schema.
Proof. apply (head_filter_absent (λ d, type_name (def_type d))). Qed.

Lemma getType_NoDup schema (type : TypeDefinition) :
  NoDup (type_name ∘ def_type <$> getTypeMap schema) →
  type ∈ getTypeMap schema →
  getType schema (type_name (def_type type)) = Some type.
Proof. apply (head_filter_NoDup (λ d, type_name (def_type d))). Qed.

(** What a pass of assignments over a type map with distinct names leaves
    under a name: the assignment made for the type of that name, if any, and
    otherwise what was there before. *)
Lemma assignments_lookup (assign : TypeDefinition → option (string * Schema))
    schema (init : list (string * Schema)) (k : string) :
  (∀ type y, assign type = Some y → y.1 = type_name (def_type type)) →
  NoDup (type_name ∘ def_type <$> getTypeMap schema) →
  obj_get k (foldl (λ schemas '(typeName, component), obj_set typeName component schemas)
                   init (omap assign (getTypeMap schema)))
  = match getType schema k ≫= assign with
    | Some y => Some y.2
    | None => obj_get k init
    end.
Proof.
  intros Hkey Hnd.
  assert (NoDup (omap assign (getTypeMap schema)).*1) as Hndb.
  { eapply omap_keys_NoDup; [|exact Hnd]. intros x y Hy. by apply Hkey. }
  destruct (getType schema k) as [type|] eqn:Htype; simpl.
  - apply getType_elem in Htype as [Hin <-].
    destruct (assign type) as [[k' c]|] eqn:Hassign.
    + pose proof (Hkey _ _ Hassign) as Hk. simpl in Hk. subst k'.
      apply foldl_obj_set_get; [done|].
      apply list_elem_of_omap. by exists type.
    + apply foldl_obj_set_other. intros Hk.
      apply list_elem_of_fmap in Hk as ([k' c] & Hk' & Hb). simpl in Hk'. subst k'.
      apply list_elem_of_omap in Hb as (type' & Hin' & Hassign').
      pose proof (Hkey _ _ Hassign') as Hk. simpl in Hk.
      assert (type' = type) as ->; [|congruence].
      by apply (NoDup_fmap_elem_eq (λ d, type_name (def_type d)) (getTypeMap schema)).
  - apply getType_absent in Htype.
    apply foldl_obj_set_other. intros Hk. apply Htype.
    apply list_elem_of_fmap in Hk as ([k' c] & Hk' & Hb). simpl in Hk'. subst k'.
    apply list_elem_of_omap in Hb as (type' & Hin' & Hassign').
    pose proof (Hkey _ _ Hassign') as Hk. simpl in Hk. rewrite Hk.
    by apply (list_elem_of_fmap_2 (type_name ∘ def_type)).
Qed.


Lemma schemaFor_key opts (type : TypeDefinition) (y : string * Schema) :
  schemaFor opts type = Some y → y.1 = type_name (def_type type).
Proof. unfold schemaFor. case_match; [|done]. by intros [= <-]. Qed.

(** The standalone builder [OpenAPI] holds a component exactly for the
    object and input-object types of the type map that are not introspection
    types: for such a type it holds the same component as [createRouter]
    does, and under every other name it holds nothing, the name of a declared
    custom scalar included, to which [resolveFieldType] nevertheless
    refers. *)
Theorem OpenAPI_components sofa (k : string) :
  let opts := sofa_opts sofa in
  NoDup (type_name ∘ def_type <$> getTypeMap (schema opts)) →
  obj_get k (schemas (OpenAPI opts))
  = match getType (schema opts) k with
    | Some type =>
        if isComponentType type then Some (buildSchemaObjectFromType type opts) else None
    | None => None
    end
  ∧ (∀ type, getType (schema opts) k = Some type → isComponentType type = true →
             obj_get k (schemas (OpenAPI opts)) = obj_get k (createRouter_schemas sofa))
  ∧ (∀ type, getType (schema opts) k = Some type → isComponentType type = false →
             is_Some (customScalars opts !! k) →
             obj_get k (schemas (OpenAPI opts)) = None
             ∧ is_ref_to k (resolveFieldType (Named (def_type type)) opts)).
Proof.
  intros opts Hnd. subst opts.
  assert (obj_get k (schemas (OpenAPI (sofa_opts sofa)))
          = match getType (schema (sofa_opts sofa)) k with
            | Some type =>
                if isComponentType type
                then Some (buildSchemaObjectFromType type (sofa_opts sofa)) else None
            | None => None
            end) as Hlookup.
  { unfold OpenAPI. simpl.
    rewrite (assignments_lookup (schemaFor (sofa_opts sofa))); [|apply schemaFor_key|done].
    destruct (getType _ k) as [type|]; simpl; [|done].
    unfold schemaFor, isComponentType. by destruct (_ && _). }
  split_and!.
  - exact Hlookup.
  - intros type Htype Hc. rewrite Hlookup, Htype, Hc.
    apply getType_elem in Htype as [Hin <-].
    symmetry. by apply createRouter_schemas_object.
  - intros type Htype Hc Hcustom. rewrite Hlookup, Htype, Hc. split; [done|].
    apply getType_elem in Htype as [_ <-].
    unfold is_ref_to. simpl. by rewrite bool_decide_eq_true_2.
Qed.

End ComponentTables.

(** ** Adding routes to the document *)

Section RouteDocumentation.
Context (getOperationInfo : OperationDefinitionNode → OperationInfo).

Local Arguments resolveRequestBody : simpl never.
Local Arguments resolveParameters : simpl never.



Lemma documentedPath_placeholder (info : RouteInfo) (basePath : option string)
    (name : string) :
  (":" +:+ name) ∈ String_split slash (ri_path info) →
  isInPath (documentedPath info basePath) name = true.
Proof.
  intros Hin. unfold isInPath, documentedPath. apply orb_true_iff. right.
  apply includes_append_l. apply includes_spec.
  unfold normalizePathParamForOpenAPI. cbv zeta.
  apply Array_join_elem. rewrite <- normalizePart_colon.
  by apply list_elem_of_fmap_2.
Qed.

Lemma documented_in_path (url : string) (info : OperationInfo)
    (withBody : bool) (tags : list string) (description : string) (opts : Opts)
    (variables : list VariableDefinitionNode) (variable : VariableDefinitionNode) :
  variableDefinitions (info_operation info) = Some variables →
  NoDup (variableNames variables) →
  variable ∈ variables →
  isInPath url (variable_name variable) = true →
  documented_locations
    (buildPathFromOperation url info withBody tags description opts)
    (variable_name variable)
  = [InPath].
Proof.
  intros Hvars Hnd Hin Hpath.
  unfold buildPathFromOperation, documented_locations. simpl. rewrite Hvars. simpl.
  set (opts' := {| schema := schema opts; customScalars := customScalars opts;
                   enumTypes := resolveEnumTypes (schema opts);
                   exampleDirective := exampleDirective opts;
                   exampleDirectiveParser := exampleDirectiveParser opts |}).
  pose proof (elem_of_variableNames_filter
                (λ v, isInPath url (variable_name v) ≠ true) _ _ Hnd Hin) as HnotPath.
  pose proof (filter_variables_NoDup
                (λ v, isInPath url (variable_name v) = true) _ Hnd) as HndPath.
  pose proof (filter_variables_NoDup
                (λ v, isInPath url (variable_name v) ≠ true) _ Hnd) as HndOther.
  destruct withBody.
  - rewrite resolveParameters_named.
    destruct (resolveRequestBody_keys (info_operation info) opts' _ HndOther)
      as (body & -> & Hkeys & _).
    rewrite Hkeys.
    rewrite filter_by_name_here; [|done|by apply list_elem_of_filter].
    rewrite bool_decide_eq_false_2 by (rewrite HnotPath; auto).
    simpl. by rewrite Hpath.
  - rewrite resolveParameters_named.
    rewrite filter_by_name_here by done. simpl. by rewrite Hpath.
Qed.

(** A route placeholder stays a path parameter in the document: when
    [:name] is a segment of the route's path and [name] is a variable of the
    route's operation (whose variables have distinct names), the documented
    path has the segment [{name}] in its place, and the operation [addRoute]
    stores documents the variable in the path and nowhere else, whatever the
    method and the base path. *)
Theorem route_placeholder_is_documented_in_path opts (info : RouteInfo)
    (basePath : option string) (variables : list VariableDefinitionNode)
    (variable : VariableDefinitionNode) :
  let name := variable_name variable in
  variableDefinitions (info_operation (getOperationInfo (ri_document info)))
  = Some variables →
  NoDup (variableNames variables) →
  variable ∈ variables →
  (":" +:+ name) ∈ String_split slash (ri_path info) →
  ("{" +:+ name +:+ "}")
    ∈ String_split slash (normalizePathParamForOpenAPI (ri_path info))
  ∧ documented_locations
      (documentedOperation getOperationInfo opts info basePath) name
    = [InPath].
Proof.
  intros name Hvars Hnd Hin Hsegment. subst name. split.
  - rewrite split_normalized, <- normalizePart_colon.
    by apply list_elem_of_fmap_2.
  - unfold documentedOperation.
    eapply documented_in_path; [exact Hvars|done..|].
    by apply documentedPath_placeholder.
Qed.

End RouteDocumentation.

(** ** The two mappers side by side *)

Section Mappers.
Context (opts : Opts).

Lemma arrayDepth_shape (s s' : Schema) : shape s = shape s' → arrayDepth s = arrayDepth s'.
Proof. destruct s, s'; simpl. by intros ->. Qed.

Lemma description_addExampleFromDirective component node :
  description (addExampleFromDirective component node opts) = description component.
Proof.
  unfold addExampleFromDirective.
  repeat (case_match; simpl; try done).
Qed.


Lemma arrayDepth_mapToPrimitive (n : string) (s : Schema) :
  mapToPrimitive n = Some s → arrayDepth s = 0%nat.
Proof. unfold mapToPrimitive. repeat case_decide; by intros [= <-]. Qed.

Lemma resolveFieldType_depth (t : GraphQLType) :
  arrayDepth (resolveFieldType t opts)
  = (listDepth t + arrayDepth (resolveFieldType (Named (namedType t)) opts))%nat.
Proof.
  induction t as [t IH|t IH|n]; [exact IH| |done].
  cbn [resolveFieldType listDepth namedType]. cbv zeta. cbn [arrayDepth plain].
  rewrite (arrayDepth_shape _ _ (shape_addExampleFromDirective _ _ _)).
  by rewrite IH.
Qed.

Lemma resolveParamSchema_depth (t : TypeNode) :
  arrayDepth (resolveParamSchema t opts)
  = (listDepthNode t
     + arrayDepth (resolveParamSchema (NamedTypeNode (namedTypeNode t)) opts))%nat.
Proof.
  induction t as [t IH|t IH|n]; [exact IH| |done].
  cbn [resolveParamSchema listDepthNode namedTypeNode]. cbv zeta. cbn [arrayDepth plain].
  rewrite (arrayDepth_shape _ _ (shape_addExampleFromDirective _ _ _)).
  by rewrite IH.
Qed.

(** Both mappers are transparent to non-null and turn each list
    wrapper into one [array] level whose items are the fragment of the
    wrapped type, up to the example: the array nesting of a resolved fragment
    is the list nesting of the type on top of what the named type itself
    resolves to, which is no array at all unless that is a scalar carrying
    its own JSON schema (for a field type) or an entry of the enum table (for
    a parameter type). *)
Theorem list_wrappers_become_array_levels (t : GraphQLType) (node : TypeNode) :
  (∃ items, resolveFieldType (GraphQLList t) opts = plain (ShArray items)
            ∧ shape items = shape (resolveFieldType t opts)
            ∧ description items = description (resolveFieldType t opts))
  ∧ arrayDepth (resolveFieldType t opts)
    = (listDepth t + arrayDepth (resolveFieldType (Named (namedType t)) opts))%nat
  ∧ ((∀ n jsonSchema, namedType t ≠ GraphQLScalarType n (Some jsonSchema)) →
     arrayDepth (resolveFieldType t opts) = listDepth t)
  ∧ (∃ items, resolveParamSchema (ListTypeNode node) opts = plain (ShArray items)
              ∧ shape items = shape (resolveParamSchema node opts)
              ∧ description items = description (resolveParamSchema node opts))
  ∧ arrayDepth (resolveParamSchema node opts)
    = (listDepthNode node
       + arrayDepth (resolveParamSchema (NamedTypeNode (namedTypeNode node)) opts))%nat
  ∧ (enumTypes opts !! namedTypeNode node = None →
     arrayDepth (resolveParamSchema node opts) = listDepthNode node).
Proof.
  split_and!.
  - eexists. split; [reflexivity|].
    by rewrite shape_addExampleFromDirective, description_addExampleFromDirective.
  - apply resolveFieldType_depth.
  - intros Hleaf. rewrite resolveFieldType_depth.
    destruct (namedType t) as [n|n|n [jsonSchema|]|n values|n|n] eqn:Hn;
      cbn [resolveFieldType type_name]; try (case_bool_decide; simpl; lia).
    + by destruct (Hleaf n jsonSchema).
    + case_bool_decide; simpl; [lia|].
      destruct (mapToPrimitive n) as [s|] eqn:Hs; simpl; [|lia].
      rewrite (arrayDepth_mapToPrimitive _ _ Hs). lia.
  - eexists. split; [reflexivity|].
    by rewrite shape_addExampleFromDirective, description_addExampleFromDirective.
  - apply resolveParamSchema_depth.
  - intros Henum. rewrite resolveParamSchema_depth. cbn [resolveParamSchema].
    case_bool_decide; simpl; [lia|].
    destruct (mapToPrimitive _) as [s|] eqn:Hs.
    + rewrite (arrayDepth_mapToPrimitive _ _ Hs). lia.
    + rewrite Henum. simpl. lia.
Qed.

End Mappers.

(** ** The enum table of the parameter mapper *)

Section EnumTable.

Lemma resolveEnumTypes_foldl (types : list TypeDefinition) : ∀ (acc : gmap string Schema) n,
  NoDup (type_name ∘ def_type <$> types) →
  foldl (λ acc d,
           match def_type d with
           | GraphQLEnumType n values => <[n := plain (ShEnum values)]> acc
           | _ => acc
           end) acc types !! n
  = match def_type <$> head (filter (λ d, type_name (def_type d) = n) types) with
    | Some (GraphQLEnumType _ values) => Some (plain (ShEnum values))
    | Some _ => acc !! n
    | None => acc !! n
    end.
Proof.
  induction types as [|d types IH]; intros acc n Hnd; [done|].
  rewrite fmap_cons in Hnd. apply NoDup_cons in Hnd as [Hd Hnd].
  cbn [foldl]. rewrite IH by done.
  destruct (decide (type_name (def_type d) = n)) as [Heq|Hne].
  - rewrite filter_cons_True by done. cbn [head fmap option_fmap option_map].
    assert (filter (λ d, type_name (def_type d) = n) types = []) as ->.
    { apply filter_none, Forall_forall. intros d' Hd' Heq'. apply Hd.
      simpl. rewrite Heq, <- Heq'. by apply (list_elem_of_fmap_2 (type_name ∘ def_type)). }
    cbn [head fmap option_fmap option_map].
    destruct (def_type d) as [m|m|m ext|m values|m|m]; try done.
    simpl in Heq. subst m. by rewrite lookup_insert_eq.
  - rewrite filter_cons_False by done.
    destruct (def_type <$> head _) as [[]|]; try done;
      destruct (def_type d) as [m|m|m ext|m values|m|m]; try done;
      by rewrite lookup_insert_ne.
Qed.

Lemma resolveEnumTypes_get schema (n : string) :
  NoDup (type_name ∘ def_type <$> getTypeMap schema) →
  resolveEnumTypes schema !! n = enumFragment schema n.
Proof.
  intros Hnd. unfold resolveEnumTypes, enumFragment, getType.
  rewrite resolveEnumTypes_foldl by done.
  by destruct (def_type <$> head _) as [[]|].
Qed.

(** The enum table [resolveEnumTypes] builds from a type map with
    distinct names has an entry exactly for the names of the schema's enum
    types, and the entry is the string fragment listing that type's values
    in their order. *)
Theorem resolveEnumTypes_lookup schema (n : string) :
  NoDup (type_name ∘ def_type <$> getTypeMap schema) →
  resolveEnumTypes schema !! n = enumFragment schema n
  ∧ (is_Some (resolveEnumTypes schema !! n)
     ↔ ∃ type values, type ∈ getTypeMap schema
                      ∧ def_type type = GraphQLEnumType n values).
Proof.
  intros Hnd. rewrite resolveEnumTypes_get by done. split; [done|].
  unfold enumFragment. split.
  - destruct (getType schema n) as [type|] eqn:Htype; simpl; [|by intros [? ?]].
    apply getType_elem in Htype as [Hin Hname].
    destruct (def_type type) as [m|m|m ext|m values|m|m] eqn:Hdef;
      try (by intros [? ?]).
    intros _. simpl in Hname. subst m. by exists type, values.
  - intros (type & values & Hin & Hdef).
    assert (getType schema n = Some type) as ->.
    { replace n with (type_name (def_type type)) by (by rewrite Hdef).
      by apply getType_NoDup. }
    simpl. by rewrite Hdef.
Qed.


End EnumTable.

(** ** The documented request body *)

Section RequestBody.
Context (operation : OperationDefinitionNode) (opts : Opts).

(** The fragment stored for a variable. *)
Local Abbreviation described variable :=
  (set_description (resolveVariableDescription (schema opts) operation variable)
     (resolveParamSchema (variable_type variable) opts)).

Lemma resolveRequestBody_foldl_properties (variables : list VariableDefinitionNode) :
  ∀ required properties,
  NoDup (obj_keys properties ++ variableNames variables) →
  foldl (resolveRequestBody_step operation opts) (required, properties) variables
  = ((required ++ variableNames (nonNullVariables variables))%list,
     (properties ++ ((λ v, (variable_name v, described v)) <$> variables))%list).
Proof.
  induction variables as [|v variables IH]; intros required properties Hnd.
  - simpl. by rewrite !app_nil_r.
  - cbn [foldl]. unfold resolveRequestBody_step at 2.
    assert (variable_name v ∉ obj_keys properties) as Hfresh.
    { apply NoDup_app in Hnd as (_ & Hdisj & _). intros Hin.
      apply (Hdisj _ Hin). apply list_elem_of_here. }
    rewrite (obj_set_fresh _ _ _ Hfresh), IH.
    + rewrite fmap_cons, <- !app_assoc. f_equal.
      unfold nonNullVariables, variableNames.
      destruct (isNonNullTypeNode (variable_type v)) eqn:Hnn.
      * rewrite filter_cons_True by done. by rewrite <- app_assoc.
      * rewrite filter_cons_False by (rewrite Hnn; done). done.
    + rewrite obj_keys_app. simpl. rewrite <- app_assoc. exact Hnd.
Qed.

Lemma obj_get_fmap_NoDup {A B} (key : A → string) (value : A → B) (l : list A) (x : A) :
  NoDup (key <$> l) → x ∈ l →
  obj_get (key x) ((λ y, (key y, value y)) <$> l) = Some (value x).
Proof.
  induction l as [|y l IH]; intros Hnd Hx; [by apply elem_of_nil in Hx|].
  rewrite fmap_cons in Hnd. apply NoDup_cons in Hnd as [Hy Hnd].
  rewrite fmap_cons. cbn [obj_get].
  apply elem_of_cons in Hx as [->|Hx]; [by rewrite decide_True|].
  rewrite decide_False; [by apply IH|].
  intros Heq. apply Hy. rewrite <- Heq. by apply list_elem_of_fmap_2.
Qed.

Lemma head_filter_fmap {A B} (f : A → B) (P : B → Prop) `{!∀ y, Decision (P y)}
    (l : list A) (x : A) :
  head (filter (λ x, P (f x)) l) = Some x → head (filter P (f <$> l)) = Some (f x).
Proof.
  induction l as [|y l IH]; [done|]. rewrite fmap_cons.
  destruct (decide (P (f y))) as [Hy|Hy].
  - rewrite !filter_cons_True by done. cbn. by intros [= ->].
  - rewrite !filter_cons_False by done. exact IH.
Qed.

Lemma head_filter_none {A} (P : A → Prop) `{!∀ x, Decision (P x)} (l : list A) :
  Forall (λ x, ¬ P x) l → head (filter P l) = None.
Proof.
  induction 1 as [|x l Hx _ IH]; [done|]. by rewrite filter_cons_False.
Qed.

(** The request body [resolveRequestBody] documents for variables
    with distinct names is an object fragment with exactly those variables as
    properties, in order, each the resolved parameter fragment of the
    variable's type carrying the description of the argument; its required
    list names the variables of non-null type, in order, and the key is left
    out when there is none.  Without a variable list the fragment is
    empty.  The description of the argument is the one the definition node
    of the type named after the kind of operation gives it: when the type
    has no definition node of its own, the argument's description in the
    type's field map; when it has one that does not list the root field (a
    field added by a type extension), none. *)
Theorem request_body_lists_variables (variables : list VariableDefinitionNode) :
  NoDup (variableNames variables) →
  resolveRequestBody None operation opts = None
  ∧ ∃ body,
      resolveRequestBody (Some variables) operation opts = Some body
      ∧ type_of body = Some "object"
      ∧ properties_of body = (λ v, (variable_name v, described v)) <$> variables
      ∧ (∀ v, v ∈ variables →
              obj_get (variable_name v) (properties_of body) = Some (described v))
      ∧ required_of body = variableNames (nonNullVariables variables)
      ∧ (nonNullVariables variables = [] →
         shape body = ShObject None (properties_of body))
      ∧ (∀ root name field arg v,
           getType (schema opts) (titleCase operation.(Operations.operation)) = Some root →
           def_type root = GraphQLObjectType name →
           def_astNode root = None →
           head (filter (λ field, field_name field = rootField operation)
                        (def_fields root)) = Some field →
           head (filter (λ arg, arg_name arg = variable_name v) (field_args field))
           = Some arg →
           Fragment.description (described v) = arg_description arg)
      ∧ (∀ root nodes v,
           getType (schema opts) (titleCase operation.(Operations.operation)) = Some root →
           def_astNode root = Some nodes →
           Forall (λ node, fdn_name node ≠ rootField operation) nodes →
           Fragment.description (described v) = None).
Proof.
  intros Hnd. split; [done|].
  unfold resolveRequestBody.
  rewrite resolveRequestBody_foldl_properties by done.
  eexists. split; [reflexivity|]. cbn [app]. split_and!.
  - done.
  - done.
  - intros v Hv. unfold properties_of. simpl.
    by apply (obj_get_fmap_NoDup variable_name (λ v, described v)).
  - unfold required_of. simpl. by case_bool_decide as Hnil; [rewrite Hnil|].
  - intros ->. done.
  - intros root name field arg v Hroot Hobject Hast Hfield Harg.
    cbn [Fragment.description set_description].
    unfold resolveVariableDescription, getOperationFieldNode.
    rewrite Hroot. cbn [mbind option_bind]. rewrite Hobject.
    unfold definitionNode, printedFields. rewrite Hast. cbn [default].
    rewrite (head_filter_fmap _ (λ node, fdn_name node = rootField operation) _ field)
      by exact Hfield.
    cbn [mbind option_bind fdn_arguments].
    rewrite (head_filter_fmap _ (λ node, ivd_name node = variable_name v) _ arg)
      by exact Harg.
    done.
  - intros root nodes v Hroot Hast Hnodes.
    cbn [Fragment.description set_description].
    unfold resolveVariableDescription, getOperationFieldNode.
    rewrite Hroot. cbn [mbind option_bind].
    destruct (def_type root); try done.
    unfold definitionNode. rewrite Hast. cbn [default].
    by rewrite head_filter_none.
Qed.

End RequestBody.

(** ** Descriptions *)

Section Descriptions.

(** The field mapper reads the schema, the custom scalars and the example
    directive, and not the enum table. *)
Lemma resolveFieldType_ext (t : GraphQLType) (opts opts' : Opts) :
  schema opts = schema opts' → customScalars opts = customScalars opts' →
  exampleDirective opts = exampleDirective opts' →
  exampleDirectiveParser opts = exampleDirectiveParser opts' →
  resolveFieldType t opts = resolveFieldType t opts'.
Proof.
  intros Hs Hc He Hp. induction t as [t IH|t IH|n]; cbn [resolveFieldType].
  - exact IH.
  - cbv zeta. rewrite IH. unfold addExampleFromDirective. by rewrite Hs, He, Hp.
  - by rewrite Hc.
Qed.

(** The summary and the parameter descriptions are read from the type
    named after the kind of operation ([Query], [Mutation]), the response
    from the schema's root type: for a query on a schema whose query root
    bears another name and which has no type named [Query], the documented
    operation has the root field's response fragment, but an empty summary
    and no parameter description, whatever the root field and its arguments
    declare. *)
Theorem descriptions_need_conventional_root_name (url : string) (info : OperationInfo)
    (withBody : bool) (tags : list string) (description : string) (opts : Opts)
    (root : TypeDefinition) (field : GraphQLField) :
  operation (info_operation info) = OpQuery →
  getType (schema opts) "Query" = None →
  getQueryType (schema opts) = Some root →
  getFields root (rootField (info_operation info)) = Some field →
  let documented := buildPathFromOperation url info withBody tags description opts in
  op_summary documented = ""
  ∧ Forall (λ p, param_description p = None) (op_parameters documented)
  ∧ (∀ body p, op_requestBody documented = Some (Some body) →
               p ∈ (properties_of body).*2 → Fragment.description p = None)
  ∧ op_response documented = Some (resolveFieldType (field_type field) opts).
Proof.
  intros Hop Hnone Hroot Hfield documented. subst documented.
  assert (getOperationFieldNode (schema opts) (info_operation info) = None) as Hnode.
  { unfold getOperationFieldNode. rewrite Hop. cbn [titleCase]. by rewrite Hnone. }
  assert (∀ v, resolveVariableDescription (schema opts) (info_operation info) v = None)
    as Hvd.
  { intros v. unfold resolveVariableDescription. by rewrite Hnode. }
  unfold buildPathFromOperation. cbv zeta.
  cbn [op_summary op_parameters op_requestBody op_response].
  set (opts' := {| schema := schema opts; customScalars := customScalars opts;
                   enumTypes := resolveEnumTypes (schema opts);
                   exampleDirective := exampleDirective opts;
                   exampleDirectiveParser := exampleDirectiveParser opts |}).
  assert (∀ variables,
            Forall (λ p, param_description p = None)
                   (resolveParameters url variables (info_operation info) opts'))
    as Hparams.
  { intros [variables|]; [|constructor]. unfold resolveParameters.
    apply Forall_fmap, Forall_true. intros v. cbn [param_description].
    change (schema opts') with (schema opts). apply Hvd. }
  split_and!.
  - change (schema opts') with (schema opts).
    unfold resolveDescription. by rewrite Hnode.
  - destruct withBody; apply Hparams.
  - intros body p Hbody Hp. destruct withBody; [|done].
    injection Hbody as Hbody. unfold resolveRequestBody in Hbody.
    destruct (filter _ <$> _) as [variables|]; [|done].
    assert (∀ required properties,
              Forall (λ p, Fragment.description p = None) properties.*2 →
              Forall (λ p, Fragment.description p = None)
                     (foldl (resolveRequestBody_step (info_operation info) opts')
                            (required, properties) variables).2.*2) as Hloop.
    { clear Hbody Hp.
      induction variables as [|v variables IH]; intros required properties Hacc; [done|].
      cbn [foldl]. unfold resolveRequestBody_step at 2. apply IH.
      change (schema opts') with (schema opts). rewrite Hvd.
      clear IH. induction properties as [|[k s] properties IHp].
      - by repeat constructor.
      - rewrite fmap_cons in Hacc. apply Forall_cons in Hacc as [Hs Hacc].
        cbn [obj_set]. case_decide.
        + rewrite fmap_cons. by constructor.
        + rewrite fmap_cons. constructor; [done|]. by apply IHp. }
    specialize (Hloop [] []). destruct (foldl _ _ _) as [required properties].
    injection Hbody as <-. unfold properties_of in Hp. cbn in Hp.
    eapply Forall_forall in Hloop; [exact Hloop| |exact Hp]. constructor.
  - unfold resolveResponse. rewrite Hop.
    change (schema opts') with (schema opts). rewrite Hroot.
    cbn [mbind option_bind]. rewrite Hfield. cbn [mbind option_bind]. f_equal.
    by apply resolveFieldType_ext.
Qed.

End Descriptions.

(** ** Named types are referred to, not expanded *)

Section Leaves.
Context (opts : Opts).




End Leaves.

(** ** The routes of the root fields *)

Section RootFieldRoutes.
Context {Env ContextValue : Type} (X : Externals).
Implicit Types (sofa : Sofa Env ContextValue).

Lemma fmap_omap_total {A B C} (f : A → option B) (g : B → C) (h : A → C) (l : list A) :
  (∀ x, x ∈ l → ∃ y, f x = Some y ∧ g y = h x) →
  g <$> omap f l = h <$> l.
Proof.
  induction l as [|x l IH]; intros Hf; [done|].
  destruct (Hf x) as (y & Hy & Hg); [apply list_elem_of_here|].
  cbn [omap list_omap]. rewrite Hy, !fmap_cons, Hg. f_equal.
  apply IH. intros x' Hx'. apply Hf. by apply list_elem_of_further.
Qed.

Lemma Forall_omap_total {A B} (f : A → option B) (P : B → Prop) (l : list A) :
  (∀ x y, f x = Some y → P y) → Forall P (omap f l).
Proof.
  intros Hf. apply Forall_forall. intros y Hy.
  apply list_elem_of_omap in Hy as (x & _ & Hx). by eapply Hf.
Qed.

Lemma getFields_declared (type : TypeDefinition) (fieldName : string) :
  fieldName ∈ field_name <$> def_fields type → is_Some (getFields type fieldName).
Proof.
  intros Hin. unfold getFields.
  destruct (head _) as [field|] eqn:Hhead; [done|].
  by apply (head_filter_absent field_name) in Hhead.
Qed.

Lemma createQueryRoute_wellFormed sofa fieldName compiled info :
  createQueryRoute X sofa fieldName = Some (compiled, info) →
  hc_fieldName (cr_handler compiled) = fieldName ∧ wellFormed X sofa OpQuery compiled.
Proof.
  unfold createQueryRoute.
  destruct (getQueryType _) as [root|]; [|done]. cbn [mbind option_bind].
  destruct (getFields root fieldName) as [field|]; [|done]. cbn [mbind option_bind].
  intros [= <- _]. by repeat split.
Qed.

Lemma createMutationRoute_wellFormed sofa fieldName compiled info :
  createMutationRoute X sofa fieldName = Some (compiled, info) →
  hc_fieldName (cr_handler compiled) = fieldName ∧ wellFormed X sofa OpMutation compiled.
Proof.
  unfold createMutationRoute.
  destruct (getMutationType _) as [root|]; [|done]. cbn [mbind option_bind].
  destruct (getFields root fieldName) as [field|]; [|done]. cbn [mbind option_bind].
  intros [= <- _]. by repeat split.
Qed.

(** [createRouter] compiles exactly one route for every root field:
    the handlers of the routes it registers are, in order, those of the
    query fields and then those of the mutation fields, each closing over
    the operation synthesized for its own field and kind, and each
    registered under the path and method its handler closes over. *)
Theorem one_route_per_root_field sofa :
  ∃ queries mutations,
    createRouter_routes X sofa = (queries ++ mutations)%list
    ∧ hc_fieldName ∘ cr_handler <$> queries = queryFieldNames (schema (sofa_opts sofa))
    ∧ hc_fieldName ∘ cr_handler <$> mutations
      = mutationFieldNames (schema (sofa_opts sofa))
    ∧ Forall (wellFormed X sofa OpQuery) queries
    ∧ Forall (wellFormed X sofa OpMutation) mutations.
Proof.
  unfold createRouter_routes, queryFieldNames, mutationFieldNames.
  eexists _, _. split; [reflexivity|]. split_and!.
  - rewrite <- (list_fmap_id (match getQueryType _ with Some _ => _ | None => _ end)) at 2.
    apply fmap_omap_total. intros fieldName Hin.
    destruct (getQueryType _) as [root|] eqn:Hroot; [|by apply elem_of_nil in Hin].
    destruct (getFields_declared root fieldName Hin) as [field Hfield].
    destruct (createQueryRoute X sofa fieldName) as [[compiled info]|] eqn:Hroute.
    + exists compiled. split; [done|].
      by apply createQueryRoute_wellFormed in Hroute as [? _].
    + unfold createQueryRoute in Hroute. rewrite Hroot in Hroute.
      cbn [mbind option_bind] in Hroute. by rewrite Hfield in Hroute.
  - rewrite <- (list_fmap_id (match getMutationType _ with Some _ => _ | None => _ end)) at 2.
    apply fmap_omap_total. intros fieldName Hin.
    destruct (getMutationType _) as [root|] eqn:Hroot; [|by apply elem_of_nil in Hin].
    destruct (getFields_declared root fieldName Hin) as [field Hfield].
    destruct (createMutationRoute X sofa fieldName) as [[compiled info]|] eqn:Hroute.
    + exists compiled. split; [done|].
      by apply createMutationRoute_wellFormed in Hroute as [? _].
    + unfold createMutationRoute in Hroute. rewrite Hroot in Hroute.
      cbn [mbind option_bind] in Hroute. by rewrite Hfield in Hroute.
  - apply Forall_omap_total. intros fieldName compiled Hroute.
    destruct (createQueryRoute X sofa fieldName) as [[compiled' info]|] eqn:Hq; [|done].
    injection Hroute as <-. by apply createQueryRoute_wellFormed in Hq as [_ ?].
  - apply Forall_omap_total. intros fieldName compiled Hroute.
    destruct (createMutationRoute X sofa fieldName) as [[compiled' info]|] eqn:Hq; [|done].
    injection Hroute as <-. by apply createMutationRoute_wellFormed in Hq as [_ ?].
Qed.

End RootFieldRoutes.

(** ** Route overrides *)

Section Overrides.
Context {Env ContextValue : Type} (X : Externals).
Implicit Types (sofa : Sofa Env ContextValue).

Lemma useRequestBody_spec (method : HTTPMethod) :
  useRequestBody method = true ↔ method ∈ [POST; PUT; PATCH].
Proof.
  rewrite !elem_of_cons, elem_of_nil. destruct method; simpl; naive_solver.
Qed.

Lemma getRouteSchemas_request_json sofa field method path info responseStatus :
  request_json (getRouteSchemas field method path info sofa responseStatus)
  = if useRequestBody method
    then Some (resolveRequestBody (Some (info_variables info)) (info_operation info)
                 (sofa_opts sofa))
    else None.
Proof. unfold getRouteSchemas. by destruct (foldl _ _ _). Qed.

Lemma getRouteSchemas_responses sofa field method path info responseStatus :
  responses (getRouteSchemas field method path info sofa responseStatus)
  = [(responseStatus, resolveResponse (info_operation info) (sofa_opts sofa))].
Proof. unfold getRouteSchemas. by destruct (foldl _ _ _). Qed.

(** An override entry replaces the method, the path, the response
    status, the tags and the description of a query route independently:
    each is the override's value when it gives one and otherwise the value
    the route has without any override (GET, the derived path, 200, no tags,
    the field's description).  The schemas of the route follow the final
    method and status: a JSON body is expected exactly on POST, PUT and
    PATCH, and the response is keyed by the final status; the route
    information handed to the document builder names the same path and
    method. *)
Theorem override_replaces_fields_independently sofa (fieldName : string)
    (root : TypeDefinition) (field : GraphQLField) :
  getQueryType (schema (sofa_opts sofa)) = Some root →
  getFields root fieldName = Some field →
  let override := routeConfigOf sofa (type_name (def_type root) +:+ "." +:+ fieldName) in
  ∃ compiled info plain plainInfo,
    createQueryRoute X sofa fieldName = Some (compiled, info)
    ∧ createQueryRoute X (withoutRoutes sofa) fieldName = Some (plain, plainInfo)
    ∧ routeOf plain
      = {| route_method := GET;
           route_path := getPath X fieldName (isSingle (field_type field)
                                              && hasIdArgument field);
           route_responseStatus := 200 |}
    ∧ ri_tags plainInfo = []
    ∧ ri_description plainInfo = default "" (field_description field)
    ∧ route_method (routeOf compiled)
      = default (route_method (routeOf plain)) (override ≫= rc_method)
    ∧ route_path (routeOf compiled)
      = default (route_path (routeOf plain)) (override ≫= rc_path)
    ∧ route_responseStatus (routeOf compiled)
      = default (route_responseStatus (routeOf plain)) (override ≫= rc_responseStatus)
    ∧ ri_tags info = default (ri_tags plainInfo) (override ≫= rc_tags)
    ∧ ri_description info
      = default (ri_description plainInfo) (override ≫= rc_description)
    ∧ (is_Some (request_json (cr_schemas compiled))
       ↔ route_method (routeOf compiled) ∈ [POST; PUT; PATCH])
    ∧ (responses (cr_schemas compiled)).*1 = [route_responseStatus (routeOf compiled)]
    ∧ ri_path info = cr_path compiled
    ∧ ri_method info = cr_method compiled
    ∧ ri_document info = hc_operation (cr_handler compiled).
Proof.
  intros Hroot Hfield override.
  unfold createQueryRoute. cbn [withoutRoutes sofa_opts].
  rewrite Hroot. cbn [mbind option_bind]. rewrite Hfield. cbn [mbind option_bind].
  eexists _, _, _, _. split; [reflexivity|]. split; [reflexivity|].
  fold override. unfold routeOf. cbn.
  split_and!; try done.
  - rewrite <- useRequestBody_spec, getRouteSchemas_request_json.
    destruct (useRequestBody _); [done|]. split; [by intros [? ?]|done].
  - by rewrite getRouteSchemas_responses.
Qed.

End Overrides.

(** ** Errors caught by the handler *)

Section CaughtErrors.
Context {Env ContextValue : Type} (X : Externals).
Implicit Types (config : HandlerConfig Env ContextValue) (serverContext : ServerContext Env).

Lemma defaultErrorHandler_one (error : Error) :
  defaultErrorHandler [error]
  = Response_json (BodyErrors [delete_http error])
      (Some (default 500 (hintedStatus error))) None
      (match hintedHeaders error with
       | Some hinted => hinted ∪ initialHeaders
       | None => initialHeaders
       end).
Proof.
  unfold defaultErrorHandler. cbn [foldl].
  pose proof (defaultErrorHandler_step_status None initialHeaders error) as Hs.
  pose proof (defaultErrorHandler_step_headers None initialHeaders error) as Hh.
  destruct (defaultErrorHandler_step (None, initialHeaders) error) as [status headers].
  simpl in Hs, Hh. subst status headers.
  destruct (hintedStatus error) as [hinted|] eqn:Hhint; [|done].
  apply hintedStatus_nonzero in Hhint. apply Z.eqb_neq in Hhint.
  cbn. by rewrite Hhint.
Qed.

(** With the default error policy, every error caught by the handler
    is answered with the status it hints, or 500 when it hints none, and with
    the error, its [http] extension removed, as the only entry of [errors].
    A body that is not JSON is answered with 400 and the message [POST body
    sent invalid JSON.]; a failure to resolve a variable is answered with
    400, whatever status the original error hinted, and with the original
    error's text as message.  In both cases the server context is left as it
    was and the answer does not depend on the context factory or the
    executor. *)
Theorem caught_errors_are_answered_by_hint config request serverContext :
  errorHandler (hc_sofa config) = None →
  (∀ error, (handlerTry X config request serverContext).1 = Throw error →
     (useHandler X config request serverContext).1
     = Response_json (BodyErrors [delete_http error])
         (Some (default 500 (hintedStatus error))) None
         (match hintedHeaders error with
          | Some hinted => hinted ∪ initialHeaders
          | None => initialHeaders
          end))
  ∧ (∀ error, parseBody X request = Throw error →
       useHandler X config request serverContext
       = (Response_json
            (BodyErrors [ErrorObject "POST body sent invalid JSON."
                           (Some {| ext_http := None; ext_other := [] |})])
            (Some 400) None initialHeaders,
          serverContext))
  ∧ (∀ body error,
       parseBody X request = Ok body →
       foldl (resolveVariables_step X (hc_sofa config) request body) (Ok ∅)
             (info_variables (hc_info config)) = Throw error →
       useHandler X config request serverContext
       = (Response_json
            (BodyErrors [ErrorObject (errorText X error)
                           (Some {| ext_http := None; ext_other := [] |})])
            (Some 400) None initialHeaders,
          serverContext)).
Proof.
  intros Hdefault. split_and!.
  - intros error Hthrow. rewrite (useHandler_catches X _ _ _ _ Hthrow).
    unfold errorHandlerOf. rewrite Hdefault. apply defaultErrorHandler_one.
  - intros error Hbody. unfold useHandler, handlerTry. rewrite Hbody.
    unfold errorHandlerOf. rewrite Hdefault. cbn [default].
    unfold parseBody in Hbody. repeat case_match; try done.
    injection Hbody as <-. by rewrite defaultErrorHandler_one.
  - intros body error Hbody Hvars. unfold useHandler, handlerTry. rewrite Hbody.
    unfold resolveVariables. rewrite Hvars.
    unfold errorHandlerOf. rewrite Hdefault. cbn [default].
    by rewrite defaultErrorHandler_one.
Qed.

End CaughtErrors.

(** ** The default policy and the order of the errors *)

Section ErrorOrder.

Lemma defaultErrorHandler_status (errors : list Error) :
  (hintedStatuses errors = [] ∧ res_status (defaultErrorHandler errors) = 500)
  ∨ (res_status (defaultErrorHandler errors) ∈ hintedStatuses errors
     ∧ Forall (λ hinted, hinted ≤ res_status (defaultErrorHandler errors))
              (hintedStatuses errors)).
Proof.
  unfold defaultErrorHandler.
  pose proof (defaultErrorHandler_loop_status errors initialHeaders) as Hstatus.
  destruct (foldl defaultErrorHandler_step (None, initialHeaders) errors)
    as [status headers].
  simpl in *.
  destruct (hintedStatuses errors) as [|h hints] eqn:Hh.
  - left. simpl in Hstatus. by subst status.
  - right. destruct Hstatus as (s & -> & Hin & Hle).
    assert (s ≠ 0) as Hs.
    { pose proof (hintedStatuses_nonzero errors) as Hnz. rewrite Hh in Hnz.
      rewrite Forall_forall in Hnz. by apply Hnz. }
    apply Z.eqb_neq in Hs. simpl. rewrite Hs. simpl. done.
Qed.

Lemma defaultErrorHandler_body (errors : list Error) :
  res_body (defaultErrorHandler errors) = BodyErrors (delete_http <$> errors).
Proof. unfold defaultErrorHandler. by destruct (foldl _ _ _). Qed.

Lemma defaultErrorHandler_header_keys (errors : list Error) (k : string) :
  is_Some (res_headers (defaultErrorHandler errors) !! k)
  ↔ is_Some (initialHeaders !! k)
    ∨ ∃ error hinted, error ∈ errors ∧ hintedHeaders error = Some hinted
                      ∧ is_Some (hinted !! k).
Proof.
  unfold defaultErrorHandler.
  pose proof (defaultErrorHandler_loop_keys errors (None, initialHeaders) k) as Hkeys.
  pose proof (defaultErrorHandler_loop_origin errors (None, initialHeaders) k) as Horigin.
  destruct (foldl defaultErrorHandler_step (None, initialHeaders) errors)
    as [status headers].
  simpl in *. split; [|exact Hkeys].
  intros [v Hv]. destruct (Horigin v Hv) as [?|(error & hinted & ? & ? & ?)].
  - by left.
  - right. by exists error, hinted.
Qed.

(** The status the default policy answers with does not depend on the
    order of the errors, and neither does the set of header names; the
    entries of [errors] are permuted with the errors.  (The value of a header
    hinted by several errors does depend on the order: the last one wins.) *)
Theorem status_is_order_independent (errors errors' : list Error) :
  errors ≡ₚ errors' →
  res_status (defaultErrorHandler errors) = res_status (defaultErrorHandler errors')
  ∧ (∀ k, is_Some (res_headers (defaultErrorHandler errors) !! k)
          ↔ is_Some (res_headers (defaultErrorHandler errors') !! k))
  ∧ ∃ reported reported',
      res_body (defaultErrorHandler errors) = BodyErrors reported
      ∧ res_body (defaultErrorHandler errors') = BodyErrors reported'
      ∧ reported ≡ₚ reported'.
Proof.
  intros Hperm.
  assert (hintedStatuses errors ≡ₚ hintedStatuses errors') as Hhints.
  { unfold hintedStatuses. by rewrite Hperm. }
  split_and!.
  - destruct (defaultErrorHandler_status errors) as [[Hnil ->]|[Hin Hle]],
             (defaultErrorHandler_status errors') as [[Hnil' ->]|[Hin' Hle']].
    + done.
    + rewrite <- Hhints, Hnil in Hin'. by apply elem_of_nil in Hin'.
    + rewrite Hhints, Hnil' in Hin. by apply elem_of_nil in Hin.
    + rewrite Forall_forall in Hle, Hle'.
      rewrite Hhints in Hin. rewrite <- Hhints in Hin'.
      specialize (Hle _ Hin'). specialize (Hle' _ Hin). lia.
  - intros k. rewrite !defaultErrorHandler_header_keys.
    by setoid_rewrite Hperm.
  - exists (delete_http <$> errors), (delete_http <$> errors').
    split_and!; [apply defaultErrorHandler_body..|]. by rewrite Hperm.
Qed.

End ErrorOrder.

(** ** The parameters of a batch item *)

Section BatchParams.
Context (X : Externals).













End BatchParams.

(** ** The shared server context *)

Section SharedContext.
Context {Env ContextValue : Type} (X : Externals).
Implicit Types (config : HandlerConfig Env ContextValue)
  (serverContext : ServerContext Env) (request : RouterRequest)
  (router : list (CompiledRoute Env ContextValue)).






End SharedContext.

(** ** The properties at work *)



(** In the catalogue deployment the standalone builder has [Item] and has
    no component for the custom scalar [Date], to which the field [added]
    of [Item] refers. *)
Lemma OpenAPI_components_demo :
  obj_get "Item" (schemas (OpenAPI Catalogue.catalogueOpts))
  = obj_get "Item" (createRouter_schemas Catalogue.catalogueSofa)
  ∧ obj_get "Date" (schemas (OpenAPI Catalogue.catalogueOpts)) = None
  ∧ is_ref_to "Date" (resolveFieldType Catalogue.Date_ Catalogue.catalogueOpts).
Proof.
  assert (NoDup (type_name ∘ def_type
                   <$> getTypeMap (schema (sofa_opts Catalogue.catalogueSofa)))) as Hnd.
  { vm_compute. repeat (constructor; [set_solver|]). constructor. }
  destruct (OpenAPI_components Catalogue.catalogueSofa "Item" Hnd) as (_ & Hitem & _).
  destruct (OpenAPI_components Catalogue.catalogueSofa "Date" Hnd) as (_ & _ & Hdate).
  split; [by apply (Hitem Catalogue.itemType)|].
  apply (Hdate (Catalogue.leaf (GraphQLScalarType "Date" None))); [reflexivity..|].
  vm_compute. by eexists.
Defined.

(** The query [item] of the catalogue, at GET [/item/:id] under the base path
    [/api], is documented with [id] in the path [/api/item/{id}]. *)
Lemma route_placeholder_is_documented_in_path_demo :
  documentedPath
    {| ri_document := info_operation (Catalogue.catalogueOperation OpQuery "item");
       ri_path := "/item/:id"; ri_method := GET; ri_tags := [];
       ri_description := "One item" |} (Some "/api")
  = "/api/item/{id}"
  ∧ documented_locations
      (documentedOperation Catalogue.catalogueInfo Catalogue.catalogueOpts
         {| ri_document := info_operation (Catalogue.catalogueOperation OpQuery "item");
            ri_path := "/item/:id"; ri_method := GET; ri_tags := [];
            ri_description := "One item" |} (Some "/api")) "id"
    = [InPath].
Proof.
  split; [reflexivity|].
  apply (route_placeholder_is_documented_in_path Catalogue.catalogueInfo
           Catalogue.catalogueOpts _ (Some "/api")
           [Fixtures.var "id" (NonNullTypeNode (NamedTypeNode "ID"))]
           (Fixtures.var "id" (NonNullTypeNode (NamedTypeNode "ID")))).
  - reflexivity.
  - vm_compute. repeat (constructor; [set_solver|]). constructor.
  - apply list_elem_of_here.
  - vm_compute. set_solver.
Defined.

(** The enum table of the catalogue schema. *)
Lemma resolveEnumTypes_lookup_demo :
  resolveEnumTypes Catalogue.catalogueSchema !! "Status"
  = Some (plain (ShEnum ["ACTIVE"; "ARCHIVED"]))
  ∧ resolveEnumTypes Catalogue.catalogueSchema !! "Item" = None.
Proof.
  assert (NoDup (type_name ∘ def_type <$> getTypeMap Catalogue.catalogueSchema)) as Hnd.
  { vm_compute. repeat (constructor; [set_solver|]). constructor. }
  destruct (resolveEnumTypes_lookup Catalogue.catalogueSchema "Status" Hnd) as [-> _].
  destruct (resolveEnumTypes_lookup Catalogue.catalogueSchema "Item" Hnd) as [-> _].
  split; reflexivity.
Defined.


(** The request body documented for the variables of the catalogue's
    [items]. *)
Lemma request_body_lists_variables_demo :
  ∃ body,
    resolveRequestBody (Some (Catalogue.catalogueVariables "items"))
      (info_operation (Catalogue.catalogueOperation OpQuery "items"))
      Catalogue.catalogueOpts = Some body
    ∧ obj_keys (properties_of body) = ["status"; "since"]
    ∧ shape body = ShObject None (properties_of body).
Proof.
  destruct (request_body_lists_variables
              (info_operation (Catalogue.catalogueOperation OpQuery "items"))
              Catalogue.catalogueOpts (Catalogue.catalogueVariables "items"))
    as (_ & body & Hbody & _ & Hproperties & _ & _ & Hshape & _).
  - vm_compute. repeat (constructor; [set_solver|]). constructor.
  - exists body. split; [exact Hbody|]. split; [by rewrite Hproperties|].
    by apply Hshape.
Defined.

(** The catalogue's query root is named [RootQuery]: the described field
    [item] is documented with its response and without its summary. *)
Lemma descriptions_need_conventional_root_name_demo :
  let documented :=
    buildPathFromOperation "/item/{id}" (Catalogue.catalogueOperation OpQuery "item")
      false [] "One item" Catalogue.catalogueOpts in
  op_summary documented = ""
  ∧ op_response documented = Some (plain (ShRef "#/components/schemas/Item")).
Proof.
  destruct (descriptions_need_conventional_root_name "/item/{id}"
              (Catalogue.catalogueOperation OpQuery "item") false [] "One item"
              Catalogue.catalogueOpts Catalogue.rootQuery
              {| field_name := "item"; field_type := Catalogue.Item;
                 field_args := [{| arg_name := "id";
                                   arg_type := GraphQLNonNull Fixtures.ID;
                                   arg_description := Some "Its id" |}];
                 field_description := Some "One item" |})
    as (Hsummary & _ & _ & Hresponse); [reflexivity..|].
  split; [exact Hsummary|exact Hresponse].
Defined.

(** The catalogue overrides the method, the path and the tags of [items]
    and keeps the default status. *)
Lemma override_replaces_fields_independently_demo :
  ∃ compiled info,
    createQueryRoute Catalogue.catalogueX Catalogue.catalogueSofa "items"
    = Some (compiled, info)
    ∧ routeOf compiled
      = {| route_method := POST; route_path := "/search/items";
           route_responseStatus := 200 |}
    ∧ ri_tags info = ["catalogue"]
    ∧ is_Some (request_json (cr_schemas compiled)).
Proof.
  destruct (override_replaces_fields_independently Catalogue.catalogueX
              Catalogue.catalogueSofa "items" Catalogue.rootQuery
              (Fixtures.mkField "items"
                 (GraphQLNonNull (GraphQLList (GraphQLNonNull Catalogue.Item)))
                 [Fixtures.mkArg "status" Catalogue.Status_;
                  Fixtures.mkArg "since" Catalogue.Date_]))
    as (compiled & info & plain & plainInfo & Hroute & _ & Hplain & Hnotags & _
        & Hmethod & Hpath & Hstatus & Htags & _ & Hjson & _); [reflexivity..|].
  exists compiled, info. split; [exact Hroute|].
  rewrite Hplain in Hmethod, Hpath, Hstatus. rewrite Hnotags in Htags.
  split_and!.
  - destruct (routeOf compiled). simpl in *. by rewrite Hmethod, Hpath, Hstatus.
  - exact Htags.
  - apply Hjson. rewrite Hmethod. vm_compute. set_solver.
Defined.

(** In the catalogue deployment an empty [id] fails to parse with a hint of
    422; the handler answers 400. *)
Lemma caught_errors_are_answered_by_hint_demo :
  useHandler Catalogue.catalogueX
    {| hc_sofa := Catalogue.catalogueSofa;
       hc_info := Catalogue.catalogueOperation OpQuery "item";
       hc_route := {| route_method := GET; route_path := "/item/:id";
                      route_responseStatus := 200 |};
       hc_operation := info_operation (Catalogue.catalogueOperation OpQuery "item");
       hc_fieldName := "item" |}
    {| req_method := GET; req_url := {| pathname := "/item/"; searchParams := [] |};
       req_params := Some {[ "id" := "" ]}; req_body := None |}
    {| sc_request := None; sc_env := tt |}
  = (Response_json
       (BodyErrors [ErrorObject "empty value"
                      (Some {| ext_http := None; ext_other := [] |})])
       (Some 400) None initialHeaders,
     {| sc_request := None; sc_env := tt |}).
Proof.
  destruct (caught_errors_are_answered_by_hint Catalogue.catalogueX
              {| hc_sofa := Catalogue.catalogueSofa;
                 hc_info := Catalogue.catalogueOperation OpQuery "item";
                 hc_route := {| route_method := GET; route_path := "/item/:id";
                                route_responseStatus := 200 |};
                 hc_operation := info_operation (Catalogue.catalogueOperation OpQuery "item");
                 hc_fieldName := "item" |}
              {| req_method := GET;
                 req_url := {| pathname := "/item/"; searchParams := [] |};
                 req_params := Some {[ "id" := "" ]}; req_body := None |}
              {| sc_request := None; sc_env := tt |})
    as (_ & _ & Hvariables); [reflexivity|].
  apply (Hvariables (JObj []) (Fixtures.hinted "empty value" 422 ∅)); reflexivity.
Defined.

(** The two field errors of the demo executor, in either order. *)
Lemma status_is_order_independent_demo :
  res_status
    (defaultErrorHandler [Fixtures.hinted "no such user" 404 {[ "X-B" := "2" ]};
                          Fixtures.hinted "bad input" 400 {[ "X-A" := "1" ]}])
  = res_status
      (defaultErrorHandler [Fixtures.hinted "bad input" 400 {[ "X-A" := "1" ]};
                            Fixtures.hinted "no such user" 404 {[ "X-B" := "2" ]}]).
Proof.
  apply (status_is_order_independent
           [Fixtures.hinted "no such user" 404 {[ "X-B" := "2" ]};
            Fixtures.hinted "bad input" 400 {[ "X-A" := "1" ]}]
           [Fixtures.hinted "bad input" 400 {[ "X-A" := "1" ]};
            Fixtures.hinted "no such user" 404 {[ "X-B" := "2" ]}]).
  apply perm_swap.
Defined.

